(** * RouteWise: the route optimiser of [src/utils/tsp-algorithms.ts]

    A shallow embedding of the three solvers (exhaustive search, Held-Karp
    subset DP, nearest neighbour followed by 2-opt), of the dispatcher
    [optimizeRoute] and of the metrics reducer [calculateRouteMetrics],
    together with the properties the specification states about them.

    Conventions of the embedding.
    - JavaScript numbers that hold stop indices, seconds, metres and money
      are integers of [Z]; [Infinity], which the solvers use as the initial
      value of a running minimum, is the extra point of [num].
    - A matrix is a list of rows.  Reading [matrix[i][j].duration] where the
      row or the cell is [undefined] throws a [TypeError]; this is the only
      exception the code can raise, and it is the [TypeError] outcome.
    - [while] loops and the recursion of [permute] run on fuel; running out
      of it is the outcome [OutOfFuel], which the theorems show is never
      reached from the entry points. *)

From stdpp Require Import base numbers list list_numbers option gmap strings pretty sorting.

Open Scope Z_scope.

(** ** Outcomes *)

Inductive result (A : Type) : Type :=
  | Ok (a : A)
  | TypeError
  | OutOfFuel.
Arguments Ok {A} a.
Arguments TypeError {A}.
Arguments OutOfFuel {A}.

#[global] Instance result_ret : MRet result := @Ok.
#[global] Instance result_bind : MBind result := λ A B f r,
  match r with
  | Ok a => f a
  | TypeError => TypeError
  | OutOfFuel => OutOfFuel
  end.

(** [for (const x of xs) body], the loop state threaded through [body]. *)
Fixpoint forM {S A : Type} (body : S → A → result S) (xs : list A) (s : S)
  : result S :=
  match xs with
  | [] => Ok s
  | x :: xs' => s' ← body s x; forM body xs' s'
  end.

(** ** Numbers with [Infinity] *)

Inductive num : Type :=
  | Fin (z : Z)
  | Infinity.

(** [a < b] *)
Definition num_lt (a b : num) : bool :=
  match a, b with
  | Fin x, Fin y => bool_decide (x < y)
  | Fin _, Infinity => true
  | Infinity, _ => false
  end.

(** [a + d] for a finite [d] *)
Definition num_add (a : num) (d : Z) : num :=
  match a with
  | Fin x => Fin (x + d)
  | Infinity => Infinity
  end.

(** [x || Infinity] where [x] is the result of [Map.get]: [undefined], [0]
    and [Infinity] all give [Infinity]. *)
Definition or_Infinity (x : option num) : num :=
  match x with
  | Some (Fin z) => if bool_decide (z = 0) then Infinity else Fin z
  | Some Infinity => Infinity
  | None => Infinity
  end.

(** ** Data model ([src/types]) *)

Record CostEstimate : Type := mkCost {
  cost_min : Z;
  cost_max : Z
}.

Record DistanceMatrixElement : Type := mkElement {
  duration : Z;                (* seconds *)
  distance : Z;                (* meters *)
  cost : option CostEstimate   (* cost?: CostEstimate *)
}.

Definition DistanceMatrix : Type := list (list DistanceMatrixElement).

Record OptimizationResult : Type := mkResult {
  orderedStops : list string;
  totalDuration : Z;
  totalDistance : Z;
  totalCost : CostEstimate
}.

(** ** Array reads *)

(** [arr[i]] for a number [i]: [undefined] outside the array. *)
Definition nthZ {A : Type} (arr : list A) (i : Z) : option A :=
  if bool_decide (0 ≤ i) then arr !! Z.to_nat i else None.

(** [matrix[i][j]] followed by a field read: throws when the row or the
    cell is [undefined]. *)
Definition cell (matrix : DistanceMatrix) (i j : Z)
  : result DistanceMatrixElement :=
  match nthZ matrix i with
  | None => TypeError
  | Some row =>
      match nthZ row j with
      | None => TypeError
      | Some element => Ok element
      end
  end.

(** [route[k]] used as a matrix index: an [undefined] index makes the
    enclosing matrix read throw. *)
Definition at_index (route : list Z) (k : nat) : result Z :=
  match route !! k with
  | Some stop => Ok stop
  | None => TypeError
  end.

(** [matrix[route[i]][route[i + 1]]] *)
Definition edge (matrix : DistanceMatrix) (route : list Z) (i : nat)
  : result DistanceMatrixElement :=
  a ← at_index route i; b ← at_index route (i + 1); cell matrix a b.

(** ** calculateTotalDistance (lines 251-257) *)

Definition calculateTotalDistance (route : list Z) (matrix : DistanceMatrix)
  : result Z :=
  forM (λ total i, element ← edge matrix route i;
                   Ok (total + duration element))
       (seq 0 (length route - 1)) 0.

(** ** calculateRouteMetrics (lines 262-284) *)

(** [Math.round(x / 60)]: [Math.round] is [floor (y + 1/2)]. *)
Definition round_div60 (x : Z) : Z := (x + 30) `div` 60.

(** The loop state is [(totalDuration, totalDistance, minCost, maxCost)]. *)
Definition metrics_step (matrix : DistanceMatrix) (route : list Z)
    (acc : Z * Z * Z * Z) (i : nat) : result (Z * Z * Z * Z) :=
  let '(totalDuration, totalDistance, minCost, maxCost) := acc in
  element ← edge matrix route i;
  let totalDuration := totalDuration + duration element in
  let totalDistance := totalDistance + distance element in
  match cost element with
  | Some c => Ok (totalDuration, totalDistance,
                  minCost + cost_min c, maxCost + cost_max c)
  | None => Ok (totalDuration, totalDistance, minCost, maxCost)
  end.

Definition calculateRouteMetrics (route : list Z) (matrix : DistanceMatrix)
  : result OptimizationResult :=
  '(totalDuration, totalDistance, minCost, maxCost) ←
    forM (metrics_step matrix route) (seq 0 (length route - 1)) (0, 0, 0, 0);
  Ok {| orderedStops := (pretty : Z → string) <$> route;
        totalDuration := round_div60 totalDuration;
        totalDistance := totalDistance;
        totalCost := {| cost_min := minCost; cost_max := maxCost |} |}.

(** ** bruteForceOptimal (lines 7-59) *)

(** The body of [permute] when [arr] is empty (lines 19-48).  The state is
    [(bestRoute, bestDistance)], the two variables of the enclosing
    function that [permute] assigns. *)
Definition permute_leaf (matrix : DistanceMatrix) (startIndex : Z)
    (endIndex : option Z) (current : list Z) (best : list Z * num)
  : result (list Z * num) :=
  let '(bestRoute, bestDistance) := best in
  let route := startIndex :: current in
  (* lines 23-26 are the loop of calculateTotalDistance, written in place *)
  distance ← calculateTotalDistance route matrix;
  '(route, distance) ←
    match endIndex with
    | Some e =>
        if bool_decide (e ≠ startIndex) then
          (* route.push(endIndex);
             distance += matrix[route[route.length - 2]][endIndex].duration *)
          let route := route ++ [e] in
          a ← at_index route (length route - 2);
          element ← cell matrix a e;
          Ok (route, distance + duration element)
        else
          (* endIndex === startIndex *)
          a ← at_index route (length route - 1);
          element ← cell matrix a startIndex;
          Ok (route ++ [startIndex], distance + duration element)
    | None =>
        a ← at_index route (length route - 1);
        element ← cell matrix a startIndex;
        Ok (route ++ [startIndex], distance + duration element)
    end;
  if num_lt (Fin distance) bestDistance
  then Ok (route, Fin distance)
  else Ok (bestRoute, bestDistance).

(** [[...arr.slice(0, i), ...arr.slice(i + 1)]] *)
Definition without_index (arr : list Z) (i : nat) : list Z :=
  take i arr ++ drop (i + 1) arr.

Fixpoint permute (fuel : nat) (matrix : DistanceMatrix) (startIndex : Z)
    (endIndex : option Z) (arr current : list Z) (best : list Z * num)
  : result (list Z * num) :=
  match arr with
  | [] => permute_leaf matrix startIndex endIndex current best
  | _ :: _ =>
      match fuel with
      | O => OutOfFuel
      | S fuel' =>
          forM (λ best i,
                  x ← at_index arr i;
                  permute fuel' matrix startIndex endIndex
                          (without_index arr i) (current ++ [x]) best)
               (seq 0 (length arr)) best
      end
  end.

(** [Array.from({ length: n }, (_, i) => i)] *)
Definition indices (n : nat) : list Z := Z.of_nat <$> seq 0 n.

Definition bruteForceOptimal (matrix : DistanceMatrix) (startIndex : Z)
    (endIndex : option Z) : result OptimizationResult :=
  let n := length matrix in
  let cities := filter (λ i, i ≠ startIndex) (indices n) in
  '(bestRoute, bestDistance) ←
    permute (length cities) matrix startIndex endIndex cities []
            ([], Infinity);
  calculateRouteMetrics bestRoute matrix.

(** ** Helpers of the subset DP (lines 289-346) *)

(** [1 << city]: the shift count is taken modulo 32 and the result is a
    signed 32-bit integer, so [1 << 31] is [-2^31]. *)
Definition shl1 (city : Z) : Z :=
  let count := Z.land city 31 in
  if bool_decide (count = 31) then - 2 ^ 31 else Z.shiftl 1 count.

(** [getMask] *)
Definition getMask (cities : list Z) : Z :=
  foldl (λ mask city, Z.lor mask (shl1 city)) 0 cities.

(** [generateSubsets]: [generate start current] walks [arr] from index
    [start]; the embedding carries the suffix [arr.slice(start)] instead of
    the index.  [generate_from] is the [for] loop of [generate], whose
    recursive call is the [generate] of the shorter suffix. *)
Fixpoint generate_from (size : nat) (rest current : list Z) : list (list Z) :=
  match rest with
  | [] => []
  | x :: rest' =>
      (if bool_decide (length (current ++ [x]) = size)
       then [current ++ [x]]
       else generate_from size rest' (current ++ [x]))
      ++ generate_from size rest' current
  end.

Definition generate (size : nat) (rest current : list Z) : list (list Z) :=
  if bool_decide (length current = size) then [current]
  else generate_from size rest current.

Definition generateSubsets (arr : list Z) (size : nat) : list (list Z) :=
  generate size arr [].

(** [reconstructPath]: the [while (current !== start)] loop.  The key
    [`${mask},${city}`] of the two maps is the pair [(mask, city)]. *)
Fixpoint reconstruct_loop (fuel : nat) (parent : gmap (Z * Z) Z)
    (start current currentMask : Z) (path : list Z) : result (list Z) :=
  if bool_decide (current ≠ start) then
    match fuel with
    | O => OutOfFuel
    | S fuel' =>
        let path := current :: path in                 (* path.unshift *)
        match parent !! (currentMask, current) with
        | None => Ok path                              (* break *)
        | Some prev =>
            reconstruct_loop fuel' parent start prev
                             (Z.lxor currentMask (shl1 current)) path
        end
    end
  else Ok path.

(** The walk gets one step for each city and one more: every step but the
    last clears a bit of the mask ([reconstruct_loop_fuel] below). *)
Definition reconstructPath (parent : gmap (Z * Z) Z) (mask last start : Z)
    (cities : list Z) : result (list Z) :=
  path ← reconstruct_loop (S (length cities)) parent start last mask [];
  Ok (start :: path).

(** ** heldKarpDP (lines 65-148) *)

(** The state of the table-filling loops is the pair of maps [(dp, parent)]. *)
Definition hk_base (matrix : DistanceMatrix) (startIndex : Z)
    (tables : gmap (Z * Z) num * gmap (Z * Z) Z) (city : Z)
  : result (gmap (Z * Z) num * gmap (Z * Z) Z) :=
  let '(dp, parent) := tables in
  let mask := shl1 city in
  element ← cell matrix startIndex city;
  Ok (<[(mask, city) := Fin (duration element)]> dp,
      <[(mask, city) := startIndex]> parent).

(** Lines 98-109: the scan over [prev], with state [(minCost, bestPrev)]. *)
Definition hk_prev (matrix : DistanceMatrix) (dp : gmap (Z * Z) num)
    (prevMask last : Z) (acc : num * Z) (prev : Z) : result (num * Z) :=
  let '(minCost, bestPrev) := acc in
  if bool_decide (prev = last) then Ok (minCost, bestPrev)
  else
    let prevCost := or_Infinity (dp !! (prevMask, prev)) in
    element ← cell matrix prev last;
    let cost := num_add prevCost (duration element) in
    if num_lt cost minCost then Ok (cost, prev) else Ok (minCost, bestPrev).

(** Lines 93-114: one [last] of one subset. *)
Definition hk_last (matrix : DistanceMatrix) (subset : list Z) (mask : Z)
    (tables : gmap (Z * Z) num * gmap (Z * Z) Z) (last : Z)
  : result (gmap (Z * Z) num * gmap (Z * Z) Z) :=
  let '(dp, parent) := tables in
  let prevMask := Z.lxor mask (shl1 last) in
  '(minCost, bestPrev) ←
    forM (hk_prev matrix dp prevMask last) subset (Infinity, -1);
  Ok (<[(mask, last) := minCost]> dp, <[(mask, last) := bestPrev]> parent).

Definition hk_subset (matrix : DistanceMatrix)
    (tables : gmap (Z * Z) num * gmap (Z * Z) Z) (subset : list Z)
  : result (gmap (Z * Z) num * gmap (Z * Z) Z) :=
  forM (hk_last matrix subset (getMask subset)) subset tables.

Definition hk_size (matrix : DistanceMatrix) (cities : list Z)
    (tables : gmap (Z * Z) num * gmap (Z * Z) Z) (size : nat)
  : result (gmap (Z * Z) num * gmap (Z * Z) Z) :=
  forM (hk_subset matrix) (generateSubsets cities size) tables.

(** Lines 123-134: the choice of the last city, state [(minCost, bestLast)]. *)
Definition hk_final (matrix : DistanceMatrix) (dp : gmap (Z * Z) num)
    (startIndex : Z) (endIndex : option Z) (fullMask : Z)
    (acc : num * Z) (city : Z) : result (num * Z) :=
  let '(minCost, bestLast) := acc in
  let cost := or_Infinity (dp !! (fullMask, city)) in
  totalCost ←
    match endIndex with
    | Some e =>
        if bool_decide (e ≠ startIndex)
        then element ← cell matrix city e; Ok (num_add cost (duration element))
        else element ← cell matrix city startIndex;
             Ok (num_add cost (duration element))
    | None => element ← cell matrix city startIndex;
              Ok (num_add cost (duration element))
    end;
  if num_lt totalCost minCost then Ok (totalCost, city)
  else Ok (minCost, bestLast).

Definition heldKarpDP (matrix : DistanceMatrix) (startIndex : Z)
    (endIndex : option Z) : result OptimizationResult :=
  let n := length matrix in
  let allCities := indices n in
  let cities := filter (λ i, i ≠ startIndex) allCities in
  tables ← forM (hk_base matrix startIndex) cities (∅, ∅);
  '(dp, parent) ←
    forM (hk_size matrix cities) (seq 2 (length cities - 1)) tables;
  let fullMask := getMask cities in
  '(minCost, bestLast) ←
    forM (hk_final matrix dp startIndex endIndex fullMask) cities
         (Infinity, -1);
  route ← reconstructPath parent fullMask bestLast startIndex cities;
  let route :=
    match endIndex with
    | Some e => if bool_decide (e ≠ startIndex) then route ++ [e]
                else route ++ [startIndex]
    | None => route ++ [startIndex]
    end in
  calculateRouteMetrics route matrix.

(** ** nearestNeighborGreedy (lines 167-208) *)

(** [unvisited] is a [Set] of numbers: it iterates in insertion order and
    holds no duplicate, so it is the list of its members in that order. *)
Definition set_delete (x : Z) (unvisited : list Z) : list Z :=
  filter (λ y, y ≠ x) unvisited.

(** Lines 186-192: the scan for the nearest city, state
    [(nearest, minDistance)]. *)
Definition nn_scan (matrix : DistanceMatrix) (current : Z)
    (acc : Z * num) (city : Z) : result (Z * num) :=
  let '(nearest, minDistance) := acc in
  element ← cell matrix current city;
  let distance := duration element in
  if num_lt (Fin distance) minDistance then Ok (city, Fin distance)
  else Ok (nearest, minDistance).

(** The [while (unvisited.size > 0)] loop. *)
Fixpoint nn_loop (fuel : nat) (matrix : DistanceMatrix)
    (unvisited route : list Z) (current : Z) : result (list Z) :=
  match unvisited with
  | [] => Ok route
  | _ :: _ =>
      match fuel with
      | O => OutOfFuel
      | S fuel' =>
          '(nearest, minDistance) ←
            forM (nn_scan matrix current) unvisited (-1, Infinity);
          nn_loop fuel' matrix (set_delete nearest unvisited)
                  (route ++ [nearest]) nearest
      end
  end.

Definition nearestNeighborGreedy (matrix : DistanceMatrix) (startIndex : Z)
    (endIndex : option Z) : result (list Z) :=
  let n := length matrix in
  let unvisited := set_delete startIndex (indices n) in
  let unvisited :=
    match endIndex with
    | Some e => if bool_decide (e ≠ startIndex) then set_delete e unvisited
                else unvisited
    | None => unvisited
    end in
  route ← nn_loop (length unvisited) matrix unvisited [startIndex] startIndex;
  match endIndex with
  | Some e => if bool_decide (e ≠ startIndex) then Ok (route ++ [e])
              else Ok (route ++ [startIndex])
  | None => Ok (route ++ [startIndex])
  end.

(** ** twoOptSwap and twoOptImprove (lines 214-246) *)

(** [route.slice(from, to)] for [0 <= from] and [0 <= to] *)
Definition slice (route : list Z) (from to : nat) : list Z :=
  drop from (take to route).

Definition twoOptSwap (route : list Z) (i j : nat) : list Z :=
  take i route ++ reverse (slice route i (j + 1)) ++ drop (j + 1) route.

(** The body of the inner [for], state [(bestRoute, improved)]. *)
Definition twoOpt_step (matrix : DistanceMatrix) (i : nat)
    (acc : list Z * bool) (j : nat) : result (list Z * bool) :=
  let '(bestRoute, improved) := acc in
  let newRoute := twoOptSwap bestRoute i j in
  new ← calculateTotalDistance newRoute matrix;
  old ← calculateTotalDistance bestRoute matrix;
  if bool_decide (new < old) then Ok (newRoute, true)
  else Ok (bestRoute, improved).

(** The inner [for (let j = i + 1; j < bestRoute.length - 1; j++)]. *)
Definition twoOpt_inner (matrix : DistanceMatrix)
    (acc : list Z * bool) (i : nat) : result (list Z * bool) :=
  forM (twoOpt_step matrix i) (seq (i + 1) (length acc.1 - 1 - (i + 1))) acc.

(** One run of the body of [while (improved)]: [improved = false] and the
    two nested [for] loops.  The loops read [bestRoute.length] at every
    test; [twoOptSwap] keeps the length, so the bounds are those at entry. *)
Definition twoOpt_pass (matrix : DistanceMatrix) (bestRoute : list Z)
  : result (list Z * bool) :=
  forM (twoOpt_inner matrix) (seq 1 (length bestRoute - 2 - 1))
       (bestRoute, false).

Fixpoint twoOpt_loop (fuel : nat) (matrix : DistanceMatrix)
    (bestRoute : list Z) : result (list Z) :=
  match fuel with
  | O => OutOfFuel
  | S fuel' =>
      '(bestRoute, improved) ← twoOpt_pass matrix bestRoute;
      if (improved : bool) then twoOpt_loop fuel' matrix bestRoute
      else Ok bestRoute
  end.

(** Fuel for the [while] loop.  [duration_or_0] reads a duration without
    throwing; the sum of the absolute durations between all pairs of stops
    of the route bounds the total of every reordering of it from below, so
    the distance of the current total to that bound limits the number of
    improving passes. *)
Definition duration_or_0 (matrix : DistanceMatrix) (a b : Z) : Z :=
  match cell matrix a b with
  | Ok element => duration element
  | _ => 0
  end.

Definition sumZ (xs : list Z) : Z := foldr Z.add 0 xs.

Definition pair_bound (matrix : DistanceMatrix) (route : list Z) : Z :=
  sumZ ((λ a, sumZ ((λ b, Z.abs (duration_or_0 matrix a b)) <$> route))
        <$> route).

Definition twoOpt_fuel (route : list Z) (matrix : DistanceMatrix) : nat :=
  match calculateTotalDistance route matrix with
  | Ok total => S (Z.to_nat (total + pair_bound matrix route))
  | _ => 1
  end.

Definition twoOptImprove (route : list Z) (matrix : DistanceMatrix)
  : result (list Z) :=
  twoOpt_loop (twoOpt_fuel route matrix) matrix route.

(** ** nearestNeighbor2Opt (lines 154-162) *)

Definition nearestNeighbor2Opt (matrix : DistanceMatrix) (startIndex : Z)
    (endIndex : option Z) : result OptimizationResult :=
  route ← nearestNeighborGreedy matrix startIndex endIndex;
  optimizedRoute ← twoOptImprove route matrix;
  calculateRouteMetrics optimizedRoute matrix.

(** ** optimizeRoute (lines 351-365) *)

Definition optimizeRoute (matrix : DistanceMatrix) (startIndex : Z)
    (endIndex : option Z) : result OptimizationResult :=
  let n := length matrix in
  if bool_decide (n ≤ 7)%nat then
    bruteForceOptimal matrix startIndex endIndex
  else if bool_decide (n ≤ 10)%nat then
    heldKarpDP matrix startIndex endIndex
  else
    nearestNeighbor2Opt matrix startIndex endIndex.

(** ** Definitions used to state the properties *)

(** The cells of the consecutive edges of a route, as the specification
    words them: the pairs [(route[i], route[i+1])] in order. *)
Fixpoint consecutive_cells (matrix : DistanceMatrix) (route : list Z)
  : result (list DistanceMatrixElement) :=
  match route with
  | a :: (b :: _) as rest =>
      element ← cell matrix a b;
      cells ← consecutive_cells matrix rest;
      Ok (element :: cells)
  | _ => Ok []
  end.

(** A missing cost counts as [{min: 0, max: 0}]. *)
Definition cost_or_zero (element : DistanceMatrixElement) : CostEstimate :=
  default {| cost_min := 0; cost_max := 0 |} (cost element).

(** A fold over the consecutive edges by recursion on the route; the index
    loops of the code are shown equal to it. *)
Fixpoint fold_edges {S : Type} (step : S → DistanceMatrixElement → S)
    (matrix : DistanceMatrix) (route : list Z) (s : S) : result S :=
  match route with
  | a :: (b :: _) as rest =>
      element ← cell matrix a b;
      fold_edges step matrix rest (step s element)
  | _ => Ok s
  end.

(** The matrix is square: every row is as long as the matrix. *)
Definition square (matrix : DistanceMatrix) : Prop :=
  ∀ row, row ∈ matrix → length row = length matrix.

(** [index] is a stop of the matrix. *)
Definition in_range (matrix : DistanceMatrix) (index : Z) : Prop :=
  0 ≤ index < Z.of_nat (length matrix).

(** Number of bits set among the low 32 bits of a mask. *)
Definition popcount32 (mask : Z) : nat :=
  length (filter (λ k, Z.testbit mask (Z.of_nat k) = true) (seq 0 32)).

(** ** Inputs of the scenarios *)

(** A cell with the given duration in seconds, ten metres per second and
    no cost information. *)
Definition leg (seconds : Z) : DistanceMatrixElement :=
  {| duration := seconds; distance := 10 * seconds; cost := None |}.

(** A matrix from a table of durations. *)
Definition matrix_of (durations : list (list Z)) : DistanceMatrix :=
  map (map leg) durations.

(** Section 8 of the specification: n = 3, costs 0-1 = 5, 1-2 = 5,
    0-2 = 20, symmetric, zero diagonal. *)
Definition scenario3 : DistanceMatrix :=
  matrix_of [[0; 5; 20]; [5; 0; 5]; [20; 5; 0]].

(** A 3x4 matrix: [scenario3] with a fourth column. *)
Definition scenario3x4 : DistanceMatrix :=
  matrix_of [[0; 5; 20; 9]; [5; 0; 5; 9]; [20; 5; 0; 9]].

(** Three stops, the first two zero seconds apart in the direction 0 -> 1. *)
Definition zero_leg3 : DistanceMatrix :=
  matrix_of [[0; 0; 600]; [60; 0; 60]; [60; 600; 0]].

(** Two stops at the same place. *)
Definition same_place2 : DistanceMatrix :=
  matrix_of [[0; 0]; [0; 0]].

(** [n] stops on a line, one minute between neighbours. *)
Definition line (n : nat) : DistanceMatrix :=
  map (λ i : Z, map (λ j : Z, leg (60 * Z.abs (i - j))) (indices n))
      (indices n).

(** Five stops with directed durations. *)
Definition directed5 : DistanceMatrix :=
  matrix_of [[0; 4; 2; 6; 5]; [8; 0; 6; 10; 9]; [7; 4; 0; 2; 10];
             [9; 6; 8; 0; 5]; [3; 11; 2; 9; 0]].

(** The state update of one iteration of the loop of
    [calculateRouteMetrics], once the cell has been read. *)
Definition metrics_update (acc : Z * Z * Z * Z)
    (element : DistanceMatrixElement) : Z * Z * Z * Z :=
  let '(totalDuration, totalDistance, minCost, maxCost) := acc in
  match cost element with
  | Some c => (totalDuration + duration element,
               totalDistance + distance element,
               minCost + cost_min c, maxCost + cost_max c)
  | None => (totalDuration + duration element,
             totalDistance + distance element, minCost, maxCost)
  end.

(** Three stops, some legs priced and some not. *)
Definition priced3 : DistanceMatrix :=
  [[leg 0; mkElement 100 900 (Some (mkCost 3 5)); leg 20];
   [leg 5; leg 0; mkElement 50 400 None];
   [mkElement 61 700 (Some (mkCost 2 4)); leg 5; leg 0]].

(** What one run of the body of [while (improved)] keeps true of its state
    [(bestRoute, improved)], [route] being the route at entry. *)
Definition pass_invariant (matrix : DistanceMatrix) (route : list Z)
    (acc : list Z * bool) : Prop :=
  route ≡ₚ acc.1 ∧ length acc.1 = length route ∧
  if acc.2 then
    ∃ old new, calculateTotalDistance route matrix = Ok old
             ∧ calculateTotalDistance acc.1 matrix = Ok new ∧ new < old
  else acc.1 = route.

(** The bit [k] of [1 << p] is set exactly when [k = p], checked for the 32
    shift counts and the low 32 bits. *)
Definition shl1_bits_table : bool :=
  forallb (λ p, forallb (λ k, Bool.eqb (Z.testbit (shl1 (Z.of_nat p))
                                                  (Z.of_nat k))
                                       (k =? p)%nat)
                        (seq 0 32))
          (seq 0 32).

(** Every key [(mask, city)] of the predecessor table has the bit of its
    city set in its mask. *)
Definition parent_keys_set (parent : gmap (Z * Z) Z) : Prop :=
  ∀ mask city prev,
    parent !! (mask, city) = Some prev →
    Z.testbit mask (Z.land city 31) = true.

(** [candidate] has a total strictly below the total of [route]. *)
Definition cheaper (matrix : DistanceMatrix) (route candidate : list Z)
  : bool :=
  match calculateTotalDistance candidate matrix,
        calculateTotalDistance route matrix with
  | Ok c, Ok t => bool_decide (c < t)
  | _, _ => false
  end.

(** How many routes of [universe] are cheaper than [route]. *)
Definition cheaper_count (matrix : DistanceMatrix)
    (universe : list (list Z)) (route : list Z) : nat :=
  length (filter (λ candidate, cheaper matrix route candidate = true)
                 universe).

(** The stops of [visited], taken in order from [current], each is a
    nearest one among those that follow it: its duration from the stop
    before is the smallest, and among equal durations it has the lowest
    index. *)
Fixpoint nearest_first (matrix : DistanceMatrix) (current : Z)
    (visited : list Z) : Prop :=
  match visited with
  | [] => True
  | next :: rest =>
      (∃ element, cell matrix current next = Ok element
         ∧ ∀ city, city ∈ rest →
             ∃ other, cell matrix current city = Ok other
               ∧ (duration element < duration other
                  ∨ duration element = duration other ∧ next < city))
      ∧ nearest_first matrix next rest
  end.

(** What the scan for the nearest city has established once the cities of
    [seen] have been compared, its state being [acc]. *)
Definition scan_invariant (matrix : DistanceMatrix) (current : Z)
    (seen : list Z) (acc : Z * num) : Prop :=
  match acc.2 with
  | Infinity => seen = []
  | Fin d =>
      ∃ element, cell matrix current acc.1 = Ok element
        ∧ d = duration element ∧ acc.1 ∈ seen
        ∧ ∀ city, city ∈ seen →
            ∃ other, cell matrix current city = Ok other
              ∧ d ≤ duration other
              ∧ (city < acc.1 → d < duration other)
  end.

(** The stop that closes the route: [endIndex] when it is a distinct fixed
    end, the start otherwise. *)
Definition closing_stop (startIndex : Z) (endIndex : option Z) : Z :=
  match endIndex with
  | Some e => if bool_decide (e ≠ startIndex) then e else startIndex
  | None => startIndex
  end.

(** The candidate route of the exhaustive search for the order [order] of
    the cities. *)
Definition tour (startIndex : Z) (endIndex : option Z) (order : list Z)
  : list Z :=
  startIndex :: order ++ [closing_stop startIndex endIndex].

(** [a <= b] *)
Definition num_le (a b : num) : Prop :=
  match a, b with
  | Fin x, Fin y => x ≤ y
  | _, Infinity => True
  | Infinity, Fin _ => False
  end.

(** [best'] comes after [best] in a run of the exhaustive search over the
    orders of [arr] that extend [current]: its distance is not larger, and
    it is [best] itself or the candidate of one of those orders with its
    total. *)
Definition search_step (matrix : DistanceMatrix) (startIndex : Z)
    (endIndex : option Z) (arr current : list Z)
    (best best' : list Z * num) : Prop :=
  num_le best'.2 best.2
  ∧ (best' = best
     ∨ ∃ order d,
         order ≡ₚ arr
         ∧ best' = (tour startIndex endIndex (current ++ order), Fin d)
         ∧ calculateTotalDistance
             (tour startIndex endIndex (current ++ order)) matrix = Ok d).

(** The recorded distance of [best] is at most the total of the candidate
    of every order of [arr] that extends [current], and those totals are
    defined. *)
Definition search_covers (matrix : DistanceMatrix) (startIndex : Z)
    (endIndex : option Z) (arr current : list Z) (best : list Z * num)
  : Prop :=
  ∀ order, order ≡ₚ arr →
    ∃ d, calculateTotalDistance
           (tour startIndex endIndex (current ++ order)) matrix = Ok d
         ∧ num_le best.2 (Fin d).

(** ** The caller: [calculateOptimalRoute] of [src/store/routeStore.ts]

    The part of the action that runs before the matrix is fetched (lines
    172-220): the two guards, the list [allDestinations] with the start
    first, the map from ids to indices, and [endIndex].  Of a destination
    the code reads the [id] only, so the type of destinations is left
    open. *)

Section Caller.
Context {Destination : Type} (id : Destination → string).

Inductive prepared : Type :=
  | Rejected (error : string)
  | Prepared (allDestinations : list Destination)
             (destinationMap : gmap string nat) (endIndex : option Z).

(** The body of [destinations.forEach] (lines 198-204), state
    [(allDestinations, destinationMap)]. *)
Definition add_other (startPoint : Destination)
    (acc : list Destination * gmap string nat) (dest : Destination)
  : list Destination * gmap string nat :=
  let '(allDestinations, destinationMap) := acc in
  if decide (id dest ≠ id startPoint) then
    let idx := length allDestinations in
    (allDestinations ++ [dest], <[id dest := idx]> destinationMap)
  else (allDestinations, destinationMap).

Definition prepareDestinations (destinations : list Destination)
    (startPoint endPoint : option Destination) : prepared :=
  if bool_decide (length destinations < 2)%nat then
    Rejected "Please add at least 2 destinations"
  else
    match startPoint with
    | None => Rejected "Please set a starting point"
    | Some startPoint =>
        let '(allDestinations, destinationMap) :=
          foldl (add_other startPoint)
                ([startPoint], {[id startPoint := 0%nat]}) destinations in
        match endPoint with
        | None => Prepared allDestinations destinationMap None
        | Some endPoint =>
            if decide (id endPoint = id startPoint) then
              Prepared allDestinations destinationMap (Some 0)
            else
              match destinationMap !! id endPoint with
              | None =>
                  let endIndex := length allDestinations in
                  Prepared (allDestinations ++ [endPoint])
                           (<[id endPoint := endIndex]> destinationMap)
                           (Some (Z.of_nat endIndex))
              | Some endIndex =>
                  Prepared allDestinations destinationMap
                           (Some (Z.of_nat endIndex))
              end
        end
    end.

(** The list starts with [startPoint], and the map sends an id to an index
    of the list that holds a destination of that id. *)
Definition indexed (startPoint : Destination)
    (acc : list Destination * gmap string nat) : Prop :=
  acc.1 !! 0%nat = Some startPoint
  ∧ ∀ key idx, acc.2 !! key = Some idx →
      ∃ dest, acc.1 !! idx = Some dest ∧ id dest = key.
End Caller.

(** Destinations that are nothing but their id. *)
Definition place (name : string) : string := name.

(** ** Statement of the exactness of the subset DP *)

(** Total duration of the legs of [route], read with [duration_or_0]. *)
Fixpoint legs (matrix : DistanceMatrix) (route : list Z) : Z :=
  match route with
  | a :: (b :: _) as rest => duration_or_0 matrix a b + legs matrix rest
  | _ => 0
  end.

(** Every leg between two distinct stops takes a positive time. *)
Definition positive_legs (matrix : DistanceMatrix) : Prop :=
  ∀ i j element, i ≠ j → cell matrix i j = Ok element → 0 < duration element.

(** [v] is the least duration of a path that leaves [startIndex], visits
    the members of [subset] once each and ends at [stop]. *)
Definition best_path (matrix : DistanceMatrix) (startIndex : Z)
    (subset : list Z) (stop v : Z) : Prop :=
  (∃ order, order ≡ₚ subset ∧ last order = Some stop
            ∧ legs matrix (startIndex :: order) = v)
  ∧ ∀ order, order ≡ₚ subset → last order = Some stop →
             v ≤ legs matrix (startIndex :: order).

(** The entries of [dp] and [parent] under the key of [subset] and [stop]
    are right: [dp] holds the least duration, [parent] the stop before
    [stop] on a path of that duration. *)
Definition entry_good (matrix : DistanceMatrix) (startIndex : Z)
    (tables : gmap (Z * Z) num * gmap (Z * Z) Z)
    (subset : list Z) (stop : Z) : Prop :=
  ∃ v prev,
    tables.1 !! (getMask subset, stop) = Some (Fin v)
    ∧ tables.2 !! (getMask subset, stop) = Some prev
    ∧ best_path matrix startIndex subset stop v
    ∧ if bool_decide (length subset = 1%nat) then prev = startIndex
      else prev ∈ subset ∧ prev ≠ stop
           ∧ ∃ v', best_path matrix startIndex (set_delete stop subset) prev v'
                   ∧ v = v' + duration_or_0 matrix prev stop.

(** The state [(minCost, best)] of a scan for the cheapest of the stops
    [done], where [cost stop v] tells that choosing [stop] costs [v]. *)
Definition cheapest (cost : Z → Z → Prop) (done : list Z) (acc : num * Z)
  : Prop :=
  match acc.1 with
  | Infinity => done = []
  | Fin m => acc.2 ∈ done ∧ cost acc.2 m
             ∧ ∀ stop v, stop ∈ done → cost stop v → m ≤ v
  end.

(** Every right entry of [tables] for a subset of the cities is a right
    entry of [tables']. *)
Definition keeps (matrix : DistanceMatrix) (startIndex : Z)
    (tables tables' : gmap (Z * Z) num * gmap (Z * Z) Z) : Prop :=
  ∀ subset stop,
    subset `sublist_of` filter (λ i, i ≠ startIndex) (indices (length matrix)) →
    entry_good matrix startIndex tables subset stop →
    entry_good matrix startIndex tables' subset stop.

(** The entries of all subsets of up to [size] cities are right. *)
Definition level (matrix : DistanceMatrix) (startIndex : Z) (size : nat)
    (tables : gmap (Z * Z) num * gmap (Z * Z) Z) : Prop :=
  ∀ subset stop,
    subset `sublist_of` filter (λ i, i ≠ startIndex) (indices (length matrix)) →
    stop ∈ subset → (length subset ≤ size)%nat →
    entry_good matrix startIndex tables subset stop.

(** What reaching [stop] from a cheapest path over [rest] that ends at [q]
    costs. *)
Definition through (matrix : DistanceMatrix) (startIndex : Z)
    (rest : list Z) (stop q v : Z) : Prop :=
  ∃ v', best_path matrix startIndex rest q v'
        ∧ v = v' + duration_or_0 matrix q stop.

(** [positive_legs] as a check over the cells of a square matrix. *)
Definition positive_legsb (matrix : DistanceMatrix) : bool :=
  forallb (λ i, forallb (λ j, bool_decide (i = j)
                              || bool_decide (0 < duration_or_0 matrix i j))
                        (indices (length matrix)))
          (indices (length matrix)).

(** * Properties *)

(** ** The outcome monad and [forM] *)

Section Loops.
Context {S A : Type}.
Implicit Types (body : S → A → result S) (xs : list A) (s : S).

Lemma forM_ext body body' xs s :
  (∀ s x, x ∈ xs → body s x = body' s x) →
  forM body xs s = forM body' xs s.
Proof.
  revert s; induction xs as [|x xs IH]; intros s Hext; simpl; [done|].
  rewrite Hext by left.
  destruct (body' s x); simpl; auto.
  apply IH; intros; apply Hext; by right.
Qed.

(** A loop invariant: what holds at entry and is kept by every iteration
    that completes holds when the loop completes. *)
Lemma forM_invariant (P : S → Prop) body xs s s' :
  P s →
  (∀ s x s', x ∈ xs → P s → body s x = Ok s' → P s') →
  forM body xs s = Ok s' → P s'.
Proof.
  revert s; induction xs as [|x xs IH]; intros s Hs Hstep; simpl.
  - by intros [= <-].
  - destruct (body s x) as [s1| |] eqn:Hb; simpl; [|done..].
    apply IH.
    + eapply Hstep; [left|done..].
    + intros ??? Hin; apply Hstep; by right.
Qed.

(** A loop whose iterations never run out of fuel does not either. *)
Lemma forM_fuel body xs s :
  (∀ s x, x ∈ xs → body s x ≠ OutOfFuel) → forM body xs s ≠ OutOfFuel.
Proof.
  revert s; induction xs as [|x xs IH]; intros s Hb; simpl; [done|].
  destruct (body s x) as [s1| |] eqn:Hx; simpl; [|done|].
  - apply IH; intros; apply Hb; by right.
  - by apply Hb in Hx; [|left].
Qed.

(** A non-empty loop whose every iteration throws throws. *)
Lemma forM_throws body xs s :
  xs ≠ [] → (∀ s x, x ∈ xs → body s x = TypeError) →
  forM body xs s = TypeError.
Proof.
  destruct xs as [|x xs]; [done|]; intros _ Hb; simpl.
  rewrite Hb by left; done.
Qed.
End Loops.

(** ** The index loops over the edges of a route *)

Lemma at_index_app_l (pre rest : list Z) (a : Z) :
  at_index (pre ++ a :: rest) (length pre) = Ok a.
Proof. unfold at_index. by rewrite list_lookup_middle. Qed.

Lemma edge_middle matrix (pre rest : list Z) (a b : Z) :
  edge matrix (pre ++ a :: b :: rest) (length pre) = cell matrix a b.
Proof.
  unfold edge. rewrite at_index_app_l; simpl.
  replace (pre ++ a :: b :: rest) with ((pre ++ [a]) ++ b :: rest)
    by by rewrite <- app_assoc.
  replace (length pre + 1)%nat with (length (pre ++ [a]))
    by by rewrite length_app.
  by rewrite at_index_app_l.
Qed.

Section Edges.
Context {S : Type} (step : S → DistanceMatrixElement → S).
Context (matrix : DistanceMatrix).

Lemma forM_edges_from (pre rest : list Z) (s : S) :
  forM (λ s i, element ← edge matrix (pre ++ rest) i; Ok (step s element))
       (seq (length pre) (length rest - 1)) s
  = fold_edges step matrix rest s.
Proof.
  revert pre s; induction rest as [|a rest IH]; intros pre s; [done|].
  destruct rest as [|b rest]; [done|].
  change (length (a :: b :: rest) - 1)%nat with (Datatypes.S (length rest)).
  cbn [seq forM fold_edges]. rewrite edge_middle.
  destruct (cell matrix a b) as [element| |]; simpl; [|done..].
  specialize (IH (pre ++ [a]) (step s element)).
  rewrite <- app_assoc, length_app in IH; simpl in IH.
  rewrite Nat.sub_0_r, Nat.add_1_r in IH. exact IH.
Qed.

Lemma forM_edges (route : list Z) (s : S) :
  forM (λ s i, element ← edge matrix route i; Ok (step s element))
       (seq 0 (length route - 1)) s
  = fold_edges step matrix route s.
Proof. exact (forM_edges_from [] route s). Qed.

Lemma fold_edges_cells (route : list Z) (s : S) :
  fold_edges step matrix route s
  = cells ← consecutive_cells matrix route; Ok (foldl step s cells).
Proof.
  revert s; induction route as [|a route IH]; intros s; [done|].
  destruct route as [|b route]; [done|].
  cbn [fold_edges consecutive_cells].
  destruct (cell matrix a b) as [element| |]; [|done..].
  change (fold_edges step matrix (b :: route) (step s element)
          = cells ← (cells ← consecutive_cells matrix (b :: route);
                     Ok (element :: cells));
            Ok (foldl step s cells)).
  rewrite IH.
  destruct (consecutive_cells matrix (b :: route)); done.
Qed.
End Edges.

Lemma foldl_add_sumZ {A : Type} (f : A → Z) (xs : list A) (z : Z) :
  foldl (λ total x, total + f x) z xs = z + sumZ (f <$> xs).
Proof.
  revert z; induction xs as [|x xs IH]; intros z.
  - unfold sumZ; simpl; lia.
  - change (foldl (λ total x, total + f x) (z + f x) xs
            = z + (f x + sumZ (f <$> xs))).
    rewrite IH. lia.
Qed.

(** [calculateTotalDistance] is the sum of the durations of the
    consecutive cells, and throws exactly when one of them is missing. *)
Lemma calculateTotalDistance_cells route matrix :
  calculateTotalDistance route matrix
  = cells ← consecutive_cells matrix route; Ok (sumZ (duration <$> cells)).
Proof.
  unfold calculateTotalDistance.
  rewrite (forM_edges (λ total element, total + duration element)).
  rewrite fold_edges_cells.
  destruct (consecutive_cells matrix route) as [cells| |]; simpl; [|done..].
  by rewrite foldl_add_sumZ.
Qed.

Lemma consecutive_cells_fuel matrix route :
  consecutive_cells matrix route ≠ OutOfFuel.
Proof.
  induction route as [|a route IH]; [done|].
  destruct route as [|b route]; [done|].
  change (consecutive_cells matrix (a :: b :: route))
    with (element ← cell matrix a b;
          cells ← consecutive_cells matrix (b :: route);
          Ok (element :: cells)).
  unfold cell.
  destruct (nthZ matrix a) as [row|]; [|done].
  destruct (nthZ row b); [|done].
  destruct (consecutive_cells matrix (b :: route)); done.
Qed.

Lemma calculateTotalDistance_fuel route matrix :
  calculateTotalDistance route matrix ≠ OutOfFuel.
Proof.
  rewrite calculateTotalDistance_cells.
  pose proof (consecutive_cells_fuel matrix route).
  destruct (consecutive_cells matrix route); done.
Qed.

(** ** The metrics reducer *)

Lemma metrics_step_update matrix route acc i :
  metrics_step matrix route acc i
  = element ← edge matrix route i; Ok (metrics_update acc element).
Proof.
  destruct acc as [[[totalDuration totalDistance] minCost] maxCost].
  unfold metrics_step, metrics_update.
  destruct (edge matrix route i) as [element| |]; simpl; [|done..].
  by destruct (cost element).
Qed.

Lemma sumZ_cons (x : Z) (xs : list Z) : sumZ (x :: xs) = x + sumZ xs.
Proof. done. Qed.

Lemma tuple4_eq (a a' b b' c c' d d' : Z) :
  a = a' → b = b' → c = c' → d = d' → (a, b, c, d) = (a', b', c', d').
Proof. by intros -> -> -> ->. Qed.

Lemma foldl_metrics_update cells totalDuration totalDistance minCost maxCost :
  foldl metrics_update (totalDuration, totalDistance, minCost, maxCost) cells
  = (totalDuration + sumZ (duration <$> cells),
     totalDistance + sumZ (distance <$> cells),
     minCost + sumZ ((cost_min ∘ cost_or_zero) <$> cells),
     maxCost + sumZ ((cost_max ∘ cost_or_zero) <$> cells)).
Proof.
  revert totalDuration totalDistance minCost maxCost.
  induction cells as [|element cells IH]; intros td ts mn mx.
  - apply tuple4_eq; unfold sumZ; simpl; lia.
  - cbn [foldl]. rewrite !fmap_cons, !sumZ_cons.
    unfold metrics_update at 2, compose at 1 3, cost_or_zero at 1 3.
    destruct (cost element) as [c|]; rewrite IH; apply tuple4_eq; simpl; lia.
Qed.

Lemma round_div60_nearest (x : Z) :
  60 * round_div60 x - 30 ≤ x < 60 * round_div60 x + 30.
Proof.
  unfold round_div60.
  pose proof (Z.div_mod (x + 30) 60 ltac:(lia)).
  pose proof (Z.mod_pos_bound (x + 30) 60 ltac:(lia)).
  lia.
Qed.

(** The reducer on a route whose consecutive cells exist. *)
Lemma calculateRouteMetrics_cells route matrix cells :
  consecutive_cells matrix route = Ok cells →
  calculateRouteMetrics route matrix
  = Ok {| orderedStops := (pretty : Z → string) <$> route;
          totalDuration := round_div60 (sumZ (duration <$> cells));
          totalDistance := sumZ (distance <$> cells);
          totalCost :=
            {| cost_min := sumZ ((cost_min ∘ cost_or_zero) <$> cells);
               cost_max := sumZ ((cost_max ∘ cost_or_zero) <$> cells) |} |}.
Proof.
  intros Hcells. unfold calculateRouteMetrics.
  rewrite (forM_ext _ (λ acc i, element ← edge matrix route i;
                                Ok (metrics_update acc element)))
    by (intros; apply metrics_step_update).
  rewrite forM_edges, fold_edges_cells, Hcells. simpl.
  by rewrite foldl_metrics_update.
Qed.

(** C8. For every route whose consecutive cells exist in the matrix, the
    metrics reducer returns a result whose [orderedStops] are the stops of
    the route as strings, whose [totalDuration] is the sum of the cells'
    durations divided by 60 and rounded to the nearest integer, whose
    [totalDistance] is the sum of the cells' distances, and whose
    [totalCost] sums [cost.min] and [cost.max], a cell without cost counting
    as [{min: 0, max: 0}]. *)
Theorem calculateRouteMetrics_sums route matrix cells :
  consecutive_cells matrix route = Ok cells →
  ∃ res, calculateRouteMetrics route matrix = Ok res
    ∧ orderedStops res = (pretty : Z → string) <$> route
    ∧ totalDuration res = round_div60 (sumZ (duration <$> cells))
    ∧ 60 * totalDuration res - 30 ≤ sumZ (duration <$> cells)
        < 60 * totalDuration res + 30
    ∧ totalDistance res = sumZ (distance <$> cells)
    ∧ cost_min (totalCost res) = sumZ ((cost_min ∘ cost_or_zero) <$> cells)
    ∧ cost_max (totalCost res) = sumZ ((cost_max ∘ cost_or_zero) <$> cells).
Proof.
  intros Hcells. eexists.
  split; [by apply calculateRouteMetrics_cells|]. simpl.
  repeat split; try done; apply round_div60_nearest.
Qed.

Lemma calculateRouteMetrics_sums_witness :
  consecutive_cells priced3 [0; 1; 2; 0]
  = Ok [mkElement 100 900 (Some (mkCost 3 5)); mkElement 50 400 None;
        mkElement 61 700 (Some (mkCost 2 4))]
  ∧ ∃ res, calculateRouteMetrics [0; 1; 2; 0] priced3 = Ok res
    ∧ orderedStops res = ["0"; "1"; "2"; "0"]
    ∧ totalDuration res = 4
    ∧ totalDistance res = 2000
    ∧ totalCost res = {| cost_min := 5; cost_max := 9 |}.
Proof.
  split; [reflexivity|].
  destruct (calculateRouteMetrics_sums [0; 1; 2; 0] priced3 _ eq_refl)
    as (res & Hres & Hstops & Hduration & _ & Hdistance & Hmin & Hmax).
  exists res. destruct res as [stops td ts [mn mx]]; simpl in *.
  repeat split; [done|done|done|done|]. by rewrite Hmin, Hmax.
Defined.

(** ** The dispatcher *)

(** C6. The dispatcher chooses by the number of stops alone: up to 7 stops
    it returns the outcome of the exhaustive search, from 8 to 10 that of
    the subset DP, from 11 on that of nearest neighbour with 2-opt. *)
Theorem optimizeRoute_dispatch matrix startIndex endIndex :
  ((length matrix ≤ 7)%nat →
     optimizeRoute matrix startIndex endIndex
     = bruteForceOptimal matrix startIndex endIndex)
  ∧ ((8 ≤ length matrix ≤ 10)%nat →
     optimizeRoute matrix startIndex endIndex
     = heldKarpDP matrix startIndex endIndex)
  ∧ ((11 ≤ length matrix)%nat →
     optimizeRoute matrix startIndex endIndex
     = nearestNeighbor2Opt matrix startIndex endIndex).
Proof.
  unfold optimizeRoute. repeat split; intros Hn; repeat case_bool_decide;
    done || lia.
Qed.

Lemma optimizeRoute_dispatch_witness :
  optimizeRoute (line 7) 0 None = bruteForceOptimal (line 7) 0 None
  ∧ optimizeRoute (line 8) 0 (Some 3) = heldKarpDP (line 8) 0 (Some 3)
  ∧ optimizeRoute (line 10) 0 None = heldKarpDP (line 10) 0 None
  ∧ optimizeRoute (line 11) 0 (Some 0)
    = nearestNeighbor2Opt (line 11) 0 (Some 0).
Proof.
  split; [|split; [|split]].
  - apply (proj1 (optimizeRoute_dispatch (line 7) 0 None)). simpl. lia.
  - apply (proj1 (proj2 (optimizeRoute_dispatch (line 8) 0 (Some 3)))).
    simpl. lia.
  - apply (proj1 (proj2 (optimizeRoute_dispatch (line 10) 0 None))).
    simpl. lia.
  - apply (proj2 (proj2 (optimizeRoute_dispatch (line 11) 0 (Some 0)))).
    simpl. lia.
Defined.

(** C10. With a single stop and a closed tour, [optimizeRoute] takes the
    exhaustive search and returns the route start, start, its totals being
    those of the diagonal cell. *)
Theorem optimizeRoute_single_stop (c : DistanceMatrixElement) :
  let closed := {| orderedStops := ["0"; "0"];
                   totalDuration := round_div60 (duration c);
                   totalDistance := distance c;
                   totalCost := cost_or_zero c |} in
  optimizeRoute [[c]] 0 None = bruteForceOptimal [[c]] 0 None
  ∧ optimizeRoute [[c]] 0 (Some 0) = bruteForceOptimal [[c]] 0 (Some 0)
  ∧ optimizeRoute [[c]] 0 None = Ok closed
  ∧ optimizeRoute [[c]] 0 (Some 0) = Ok closed.
Proof.
  destruct c as [seconds meters [[cmin cmax]|]];
    repeat split; vm_compute; reflexivity.
Qed.

(** ** The scenarios of the specification *)

(** C2. On the three-stop scenario with the fixed end 2, [optimizeRoute]
    runs the exhaustive search and returns the stops 0, 1, 2, 2: the end
    stop is among the permuted cities and is pushed once more. *)
Theorem optimizeRoute_scenario3 :
  optimizeRoute scenario3 0 (Some 2)
  = Ok {| orderedStops := ["0"; "1"; "2"; "2"];
          totalDuration := 0;
          totalDistance := 100;
          totalCost := {| cost_min := 0; cost_max := 0 |} |}.
Proof. vm_compute. reflexivity. Qed.

(** C1. With a distinct fixed end, the routes of both exact solvers have
    n + 1 stops and hold the end stop twice. *)
Theorem exact_solvers_repeat_end :
  (∃ res, optimizeRoute scenario3 0 (Some 2) = Ok res
     ∧ orderedStops res = ["0"; "1"; "2"; "2"]
     ∧ length (orderedStops res) = 4%nat
     ∧ ¬ NoDup (orderedStops res))
  ∧ (∃ res, optimizeRoute (line 8) 0 (Some 4) = Ok res
     ∧ orderedStops res = ["0"; "1"; "2"; "3"; "7"; "6"; "5"; "4"; "4"]
     ∧ length (orderedStops res) = 9%nat
     ∧ ¬ NoDup (orderedStops res)).
Proof.
  split; eexists; (split; [vm_compute; reflexivity|]); simpl;
    (split; [done|]); (split; [done|]); intros Hnodup.
  - apply NoDup_cons in Hnodup as [_ Hnodup].
    apply NoDup_cons in Hnodup as [_ Hnodup].
    apply NoDup_cons in Hnodup as [Hin _].
    apply Hin. by left.
  - do 7 (apply NoDup_cons in Hnodup as [_ Hnodup]).
    apply NoDup_cons in Hnodup as [Hin _].
    apply Hin. by left.
Qed.

(** C4. The two exact solvers disagree when a leg between distinct stops
    takes zero seconds: the subset DP reads its table with [|| Infinity],
    which turns a stored 0 into [Infinity]. *)
Theorem exact_solvers_disagree :
  (∃ res, bruteForceOptimal zero_leg3 0 None = Ok res
     ∧ orderedStops res = ["0"; "1"; "2"; "0"] ∧ totalDuration res = 2)
  ∧ (∃ res, heldKarpDP zero_leg3 0 None = Ok res
     ∧ orderedStops res = ["0"; "2"; "1"; "0"] ∧ totalDuration res = 21)
  ∧ (∃ res, bruteForceOptimal same_place2 0 None = Ok res
     ∧ totalDuration res = 0)
  ∧ heldKarpDP same_place2 0 None = TypeError.
Proof.
  repeat split; try (eexists; split; [vm_compute; reflexivity|done]).
Qed.

(** ** Closing the tour: [endIndex = null] against [endIndex = startIndex] *)

Section Closed.
Context (matrix : DistanceMatrix) (startIndex : Z).

Lemma not_distinct_from_itself :
  bool_decide (startIndex ≠ startIndex) = false.
Proof. by apply bool_decide_eq_false_2; intros []. Qed.

Lemma permute_leaf_closed current best :
  permute_leaf matrix startIndex None current best
  = permute_leaf matrix startIndex (Some startIndex) current best.
Proof. unfold permute_leaf. by rewrite not_distinct_from_itself. Qed.

Lemma permute_closed fuel arr current best :
  permute fuel matrix startIndex None arr current best
  = permute fuel matrix startIndex (Some startIndex) arr current best.
Proof.
  revert arr current best; induction fuel as [|fuel IH];
    intros [|x arr] current best; cbn [permute];
    try apply permute_leaf_closed; [done|].
  apply forM_ext; intros best' i _.
  destruct (at_index (x :: arr) i); simpl; auto.
Qed.

Lemma bruteForceOptimal_closed :
  bruteForceOptimal matrix startIndex None
  = bruteForceOptimal matrix startIndex (Some startIndex).
Proof. unfold bruteForceOptimal. by rewrite permute_closed. Qed.

Lemma hk_final_closed dp fullMask acc city :
  hk_final matrix dp startIndex None fullMask acc city
  = hk_final matrix dp startIndex (Some startIndex) fullMask acc city.
Proof. unfold hk_final. by rewrite not_distinct_from_itself. Qed.

Lemma heldKarpDP_closed :
  heldKarpDP matrix startIndex None
  = heldKarpDP matrix startIndex (Some startIndex).
Proof.
  unfold heldKarpDP. rewrite not_distinct_from_itself.
  destruct (forM (hk_base matrix startIndex) _ _) as [tables| |];
    simpl; [|done..].
  destruct (forM (hk_size matrix _) _ tables) as [[dp parent]| |];
    simpl; [|done..].
  erewrite forM_ext; [done|].
  intros; apply hk_final_closed.
Qed.

Lemma nearestNeighborGreedy_closed :
  nearestNeighborGreedy matrix startIndex None
  = nearestNeighborGreedy matrix startIndex (Some startIndex).
Proof. unfold nearestNeighborGreedy. by rewrite not_distinct_from_itself. Qed.

Lemma nearestNeighbor2Opt_closed :
  nearestNeighbor2Opt matrix startIndex None
  = nearestNeighbor2Opt matrix startIndex (Some startIndex).
Proof. unfold nearestNeighbor2Opt. by rewrite nearestNeighborGreedy_closed. Qed.
End Closed.

(** ** 2-opt *)

Lemma twoOptSwap_length route i j :
  (i ≤ j + 1)%nat → length (twoOptSwap route i j) = length route.
Proof.
  intros Hij. unfold twoOptSwap, slice.
  rewrite !length_app, length_reverse, !length_drop, !length_take. lia.
Qed.

(** The candidate routes are reorderings of the current route. *)
Lemma twoOptSwap_Permutation route i j :
  (i ≤ j + 1)%nat → twoOptSwap route i j ≡ₚ route.
Proof.
  intros Hij. unfold twoOptSwap, slice.
  rewrite reverse_Permutation.
  rewrite <- (take_drop (j + 1) route) at 4.
  rewrite <- (take_drop i (take (j + 1) route)) at 2.
  rewrite take_take, Nat.min_l, <- app_assoc by done. done.
Qed.

(** One comparison: either the state is kept, or the swap is accepted and
    its total is strictly below the total of the route it replaces. *)
Lemma twoOpt_step_cases matrix i j bestRoute improved acc :
  twoOpt_step matrix i (bestRoute, improved) j = Ok acc →
  acc = (bestRoute, improved)
  ∨ acc = (twoOptSwap bestRoute i j, true)
    ∧ ∃ old new, calculateTotalDistance bestRoute matrix = Ok old
        ∧ calculateTotalDistance (twoOptSwap bestRoute i j) matrix = Ok new
        ∧ new < old.
Proof.
  unfold twoOpt_step.
  destruct (calculateTotalDistance (twoOptSwap _ _ _) _) as [new| |];
    simpl; [|done..].
  destruct (calculateTotalDistance bestRoute _) as [old| |]; simpl; [|done..].
  case_bool_decide; intros [= <-]; [right|by left].
  split; [done|]. by exists old, new.
Qed.

Lemma twoOpt_step_fuel matrix i j acc :
  twoOpt_step matrix i acc j ≠ OutOfFuel.
Proof.
  destruct acc as [bestRoute improved]. unfold twoOpt_step.
  pose proof (calculateTotalDistance_fuel (twoOptSwap bestRoute i j) matrix).
  pose proof (calculateTotalDistance_fuel bestRoute matrix).
  destruct (calculateTotalDistance (twoOptSwap _ _ _) _); simpl; [|done..].
  destruct (calculateTotalDistance bestRoute _); simpl; [|done..].
  by case_bool_decide.
Qed.

Lemma twoOpt_step_invariant matrix route i j acc acc' :
  (i ≤ j + 1)%nat →
  pass_invariant matrix route acc →
  twoOpt_step matrix i acc j = Ok acc' →
  pass_invariant matrix route acc'.
Proof.
  destruct acc as [bestRoute improved].
  intros Hij (Hperm & Hlen & Himp) Hstep; simpl in *.
  apply twoOpt_step_cases in Hstep as [->|[-> (old & new & Hold & Hnew & Hlt)]];
    [done|].
  split; [|split]; simpl.
  - by rewrite twoOptSwap_Permutation.
  - by rewrite twoOptSwap_length.
  - destruct improved.
    + destruct Himp as (old0 & new0 & Hold0 & Hnew0 & Hlt0).
      exists old0, new. split; [done|]. split; [done|].
      rewrite Hold in Hnew0. injection Hnew0 as ->. lia.
    + subst bestRoute. by exists old, new.
Qed.

Lemma twoOpt_pass_invariant matrix route acc :
  twoOpt_pass matrix route = Ok acc → pass_invariant matrix route acc.
Proof.
  unfold twoOpt_pass.
  apply forM_invariant; [done|].
  intros acc1 i acc2 _ Hacc1. unfold twoOpt_inner.
  apply forM_invariant; [done|].
  intros acc3 j acc4 Hj%elem_of_seq. apply twoOpt_step_invariant. lia.
Qed.

Lemma twoOpt_pass_fuel matrix route :
  twoOpt_pass matrix route ≠ OutOfFuel.
Proof.
  apply forM_fuel; intros acc i _.
  apply forM_fuel; intros acc' j _. apply twoOpt_step_fuel.
Qed.

(** *** A lower bound on the total of every reordering *)

Lemma sumZ_Permutation (xs ys : list Z) : xs ≡ₚ ys → sumZ xs = sumZ ys.
Proof.
  induction 1 as [|x xs ys _ IH|x y xs|xs ys zs _ IH1 _ IH2];
    rewrite ?sumZ_cons; lia.
Qed.

Lemma sumZ_fmap_le {A : Type} (f g : A → Z) (xs : list A) :
  (∀ x, f x ≤ g x) → sumZ (f <$> xs) ≤ sumZ (g <$> xs).
Proof.
  intros Hfg; induction xs as [|x xs IH]; [done|].
  rewrite !fmap_cons, !sumZ_cons. specialize (Hfg x). lia.
Qed.

Lemma sumZ_fmap_nonneg {A : Type} (f : A → Z) (xs : list A) :
  (∀ x, 0 ≤ f x) → 0 ≤ sumZ (f <$> xs).
Proof.
  intros Hf; induction xs as [|x xs IH]; [done|].
  rewrite fmap_cons, sumZ_cons. specialize (Hf x). lia.
Qed.

Lemma sumZ_fmap_elem {A : Type} (f : A → Z) (xs : list A) (x : A) :
  (∀ x, 0 ≤ f x) → x ∈ xs → f x ≤ sumZ (f <$> xs).
Proof.
  intros Hf; induction 1 as [x xs|x y xs _ IH];
    rewrite fmap_cons, sumZ_cons.
  - pose proof (sumZ_fmap_nonneg f xs Hf). lia.
  - specialize (Hf y). lia.
Qed.

Lemma pair_bound_Permutation matrix (xs ys : list Z) :
  xs ≡ₚ ys → pair_bound matrix xs = pair_bound matrix ys.
Proof.
  intros Hperm. unfold pair_bound.
  rewrite (sumZ_Permutation _ (_ <$> ys)) by by apply fmap_Permutation.
  f_equal. apply list_fmap_ext; intros _ a _.
  apply sumZ_Permutation. by apply fmap_Permutation.
Qed.

Lemma pair_bound_cons matrix (a b : Z) (rest : list Z) :
  Z.abs (duration_or_0 matrix a b) + pair_bound matrix (b :: rest)
  ≤ pair_bound matrix (a :: b :: rest).
Proof.
  unfold pair_bound at 2. rewrite fmap_cons, sumZ_cons.
  set (f := λ a' b', Z.abs (duration_or_0 matrix a' b')).
  assert (f a b ≤ sumZ (f a <$> a :: b :: rest)).
  { apply sumZ_fmap_elem; [intros; unfold f; lia|]. right; left. }
  assert (pair_bound matrix (b :: rest)
          ≤ sumZ ((λ a', sumZ (f a' <$> a :: b :: rest)) <$> b :: rest)).
  { unfold pair_bound. apply sumZ_fmap_le; intros a'.
    rewrite (fmap_cons _ a), sumZ_cons.
    pose proof (Z.abs_nonneg (duration_or_0 matrix a' a)). unfold f. lia. }
  unfold f in *; cbv beta in *. lia.
Qed.

Lemma consecutive_cells_bound matrix route cells :
  consecutive_cells matrix route = Ok cells →
  - pair_bound matrix route ≤ sumZ (duration <$> cells).
Proof.
  revert cells; induction route as [|a route IH]; intros cells.
  - intros [= <-]. done.
  - destruct route as [|b rest].
    + intros [= <-]. unfold pair_bound, sumZ; simpl. lia.
    + change (consecutive_cells matrix (a :: b :: rest))
        with (element ← cell matrix a b;
              cells ← consecutive_cells matrix (b :: rest);
              Ok (element :: cells)).
      pose proof (pair_bound_cons matrix a b rest) as Hcons.
      unfold duration_or_0 in Hcons.
      destruct (cell matrix a b) as [element| |]; [|done..].
      destruct (consecutive_cells matrix (b :: rest)) as [cells'| |];
        [|done..].
      intros [= <-]. rewrite fmap_cons, sumZ_cons.
      specialize (IH cells' eq_refl). lia.
Qed.

Lemma calculateTotalDistance_bound matrix route total :
  calculateTotalDistance route matrix = Ok total →
  - pair_bound matrix route ≤ total.
Proof.
  rewrite calculateTotalDistance_cells.
  destruct (consecutive_cells matrix route) as [cells| |] eqn:Hcells;
    [|done..].
  intros [= <-]. by apply consecutive_cells_bound.
Qed.

(** *** The [while] loop *)

(** More fuel does not change an outcome that was reached. *)
Lemma twoOpt_loop_more_fuel matrix fuel fuel' route :
  (fuel ≤ fuel')%nat →
  twoOpt_loop fuel matrix route ≠ OutOfFuel →
  twoOpt_loop fuel' matrix route = twoOpt_loop fuel matrix route.
Proof.
  revert fuel' route; induction fuel as [|fuel IH]; intros fuel' route Hle;
    [done|].
  destruct fuel' as [|fuel']; [lia|]. cbn [twoOpt_loop].
  destruct (twoOpt_pass matrix route) as [[best [|]]| |]; simpl; [|done..].
  apply IH. lia.
Qed.

(** The loop ends as soon as the distance of the current total to the lower
    bound of the reorderings is below the fuel. *)
Lemma twoOpt_loop_terminates matrix route0 fuel route :
  route0 ≡ₚ route →
  (0 < fuel)%nat →
  (∀ total, calculateTotalDistance route matrix = Ok total →
            (Z.to_nat (total + pair_bound matrix route0) < fuel)%nat) →
  twoOpt_loop fuel matrix route ≠ OutOfFuel.
Proof.
  revert route; induction fuel as [|fuel IH]; intros route Hperm Hpos Hfuel;
    [lia|].
  cbn [twoOpt_loop].
  destruct (twoOpt_pass matrix route) as [[best improved]| |] eqn:Hpass;
    simpl; [|done|by apply twoOpt_pass_fuel in Hpass].
  destruct improved; [|done].
  apply twoOpt_pass_invariant in Hpass
    as (Hperm' & _ & old & new & Hold & Hnew & Hlt); simpl in *.
  specialize (Hfuel old Hold).
  pose proof (calculateTotalDistance_bound _ _ _ Hnew) as Hbound.
  rewrite <- (pair_bound_Permutation matrix route0) in Hbound
    by by etrans.
  apply IH; [by etrans|lia|].
  intros total. rewrite Hnew. intros [= <-]. lia.
Qed.

Lemma twoOptImprove_fuel route matrix :
  twoOptImprove route matrix ≠ OutOfFuel.
Proof.
  unfold twoOptImprove, twoOpt_fuel.
  apply (twoOpt_loop_terminates matrix route); [done| |].
  - destruct (calculateTotalDistance route matrix); lia.
  - intros total ->. lia.
Qed.

(** The route the loop returns is a reordering of the one it started from,
    and its total is not above the total at entry. *)
Lemma twoOpt_loop_improves matrix fuel route route' :
  twoOpt_loop fuel matrix route = Ok route' →
  route ≡ₚ route' ∧
  ∀ total, calculateTotalDistance route matrix = Ok total →
    ∃ total', calculateTotalDistance route' matrix = Ok total'
              ∧ total' ≤ total.
Proof.
  revert route; induction fuel as [|fuel IH]; intros route; [done|].
  cbn [twoOpt_loop].
  destruct (twoOpt_pass matrix route) as [[best improved]| |] eqn:Hpass;
    simpl; [|done..].
  apply twoOpt_pass_invariant in Hpass as (Hperm & _ & Himp); simpl in *.
  destruct improved.
  - destruct Himp as (old & new & Hold & Hnew & Hlt).
    intros [Hperm' Htotal]%IH. split; [by etrans|].
    intros total. rewrite Hold. intros [= <-].
    destruct (Htotal new Hnew) as (total' & Htotal' & Hle).
    exists total'. split; [done|lia].
  - subst best. intros [= <-]. split; [done|].
    intros total Htotal. exists total. split; [done|lia].
Qed.

(** C7. For every matrix and every route built by the nearest-neighbour
    construction, the route that the 2-opt phase returns has a total
    duration that is at most the total duration of the construction. *)
Theorem twoOpt_never_worse matrix startIndex endIndex route route' total :
  nearestNeighborGreedy matrix startIndex endIndex = Ok route →
  twoOptImprove route matrix = Ok route' →
  calculateTotalDistance route matrix = Ok total →
  ∃ total', calculateTotalDistance route' matrix = Ok total'
            ∧ total' ≤ total.
Proof.
  intros _ Himprove Htotal.
  apply twoOpt_loop_improves in Himprove as [_ Hle]. by apply Hle.
Qed.

Lemma twoOpt_never_worse_witness :
  nearestNeighborGreedy directed5 0 None = Ok [0; 2; 3; 4; 1; 0]
  ∧ twoOptImprove [0; 2; 3; 4; 1; 0] directed5 = Ok [0; 2; 3; 1; 4; 0]
  ∧ calculateTotalDistance [0; 2; 3; 4; 1; 0] directed5 = Ok 28
  ∧ ∃ total', calculateTotalDistance [0; 2; 3; 1; 4; 0] directed5 = Ok total'
              ∧ total' ≤ 28.
Proof.
  split; [reflexivity|]. split; [reflexivity|]. split; [reflexivity|].
  apply (twoOpt_never_worse directed5 0 None [0; 2; 3; 4; 1; 0]);
    reflexivity.
Defined.

(** *** Termination from the finiteness of the reorderings alone

    The argument the specification gives: the totals of the routes at the
    start of successive passes decrease strictly, so the number of
    reorderings of the input that are cheaper than the current route
    decreases with every improving pass.  It uses the order of the totals
    only, not that they are integers. *)

Lemma length_filter_strict {A : Type} (P Q : A → Prop)
    `{!∀ x, Decision (P x), !∀ x, Decision (Q x)} (xs : list A) (x : A) :
  (∀ y, P y → Q y) → x ∈ xs → Q x → ¬ P x →
  (length (filter P xs) < length (filter Q xs))%nat.
Proof.
  intros HPQ Hin HQ HP.
  induction xs as [|y xs IH]; [by apply not_elem_of_nil in Hin|].
  rewrite !filter_cons.
  assert (length (filter P xs) ≤ length (filter Q xs))%nat as Hle.
  { clear -HPQ. induction xs as [|z xs IH]; [done|].
    rewrite !filter_cons. pose proof (HPQ z).
    repeat case_decide; simpl; tauto || lia. }
  apply elem_of_cons in Hin as [<-|Hin].
  - rewrite decide_False, decide_True by done. simpl. lia.
  - specialize (IH Hin). pose proof (HPQ y).
    repeat case_decide; simpl; tauto || lia.
Qed.

Lemma cheaper_count_decreases matrix universe route route' old new :
  calculateTotalDistance route matrix = Ok old →
  calculateTotalDistance route' matrix = Ok new →
  new < old → route' ∈ universe →
  (cheaper_count matrix universe route'
   < cheaper_count matrix universe route)%nat.
Proof.
  intros Hold Hnew Hlt Hin. unfold cheaper_count.
  apply (length_filter_strict _ _ _ route'); [|done| |].
  - intros candidate. unfold cheaper. rewrite Hold, Hnew.
    destruct (calculateTotalDistance candidate matrix); [|done..].
    rewrite !bool_decide_eq_true. lia.
  - unfold cheaper. rewrite Hold, Hnew. apply bool_decide_eq_true. lia.
  - unfold cheaper. rewrite Hnew. rewrite bool_decide_eq_true. lia.
Qed.

Lemma twoOpt_loop_terminates_finite matrix route0 fuel route :
  route0 ≡ₚ route →
  (cheaper_count matrix (permutations route0) route < fuel)%nat →
  twoOpt_loop fuel matrix route ≠ OutOfFuel.
Proof.
  revert route; induction fuel as [|fuel IH]; intros route Hperm Hfuel;
    [lia|].
  cbn [twoOpt_loop].
  destruct (twoOpt_pass matrix route) as [[best improved]| |] eqn:Hpass;
    simpl; [|done|by apply twoOpt_pass_fuel in Hpass].
  destruct improved; [|done].
  apply twoOpt_pass_invariant in Hpass
    as (Hperm' & _ & old & new & Hold & Hnew & Hlt); simpl in *.
  apply IH; [by etrans|].
  pose proof (cheaper_count_decreases matrix (permutations route0)
                route best old new Hold Hnew Hlt) as Hcount.
  rewrite permutations_Permutation in Hcount.
  specialize (Hcount ltac:(by etrans)). lia.
Qed.

(** Whatever fuel lets the loop finish gives the outcome of
    [twoOptImprove]. *)
Lemma twoOpt_loop_any_fuel matrix fuel route :
  twoOpt_loop fuel matrix route ≠ OutOfFuel →
  twoOpt_loop fuel matrix route = twoOptImprove route matrix.
Proof.
  intros Hfuel. unfold twoOptImprove.
  destruct (Nat.le_ge_cases fuel (twoOpt_fuel route matrix)) as [Hle|Hge].
  - symmetry. by apply twoOpt_loop_more_fuel.
  - apply twoOpt_loop_more_fuel; [done|]. apply twoOptImprove_fuel.
Qed.

(** C9. The 2-opt loop terminates on every route and matrix: the model
    never runs out of fuel, and every fuel that lets the loop finish (all
    those from [twoOpt_fuel] on, and all those above the number of
    reorderings of the route) gives the same outcome; every accepted swap
    has a strictly smaller total than the route it replaces; the candidates
    and the returned route are reorderings of the input route; and the loop
    returns after a pass that accepted no swap. *)
Theorem twoOptImprove_terminates route matrix :
  twoOptImprove route matrix ≠ OutOfFuel
  ∧ (∀ fuel, (twoOpt_fuel route matrix ≤ fuel)%nat
             ∨ (length (permutations route) < fuel)%nat
             ∨ twoOpt_loop fuel matrix route ≠ OutOfFuel →
       twoOpt_loop fuel matrix route = twoOptImprove route matrix)
  ∧ (∀ i j bestRoute improved acc,
       twoOpt_step matrix i (bestRoute, improved) j = Ok acc →
       acc = (bestRoute, improved)
       ∨ acc = (twoOptSwap bestRoute i j, true)
         ∧ ∃ old new, calculateTotalDistance bestRoute matrix = Ok old
             ∧ calculateTotalDistance (twoOptSwap bestRoute i j) matrix
               = Ok new
             ∧ new < old)
  ∧ (∀ i j bestRoute, (i < j)%nat → twoOptSwap bestRoute i j ≡ₚ bestRoute)
  ∧ (∀ route', twoOptImprove route matrix = Ok route' → route ≡ₚ route')
  ∧ (∀ fuel bestRoute acc,
       twoOpt_pass matrix bestRoute = Ok acc →
       bestRoute ≡ₚ acc.1
       ∧ (acc.2 = false →
          acc.1 = bestRoute
          ∧ twoOpt_loop (S fuel) matrix bestRoute = Ok bestRoute)).
Proof.
  split; [apply twoOptImprove_fuel|].
  split; [|split; [|split; [|split]]].
  - intros fuel [Hfuel|[Hfuel|Hfuel]]; [| |by apply twoOpt_loop_any_fuel].
    + apply twoOpt_loop_more_fuel; [done|]. apply twoOptImprove_fuel.
    + apply twoOpt_loop_any_fuel.
      apply (twoOpt_loop_terminates_finite matrix route); [done|].
      pose proof (length_filter (λ candidate,
                                   cheaper matrix route candidate = true)
                                (permutations route)).
      unfold cheaper_count. lia.
  - intros i j bestRoute improved acc. apply twoOpt_step_cases.
  - intros i j bestRoute Hij. apply twoOptSwap_Permutation. lia.
  - intros route' Hroute'. by apply twoOpt_loop_improves in Hroute' as [? _].
  - intros fuel bestRoute [best improved] Hpass.
    pose proof (twoOpt_pass_invariant _ _ _ Hpass) as (Hperm & _ & Himp).
    simpl in *. split; [done|]. intros ->. subst best.
    split; [done|]. by rewrite Hpass.
Qed.

Lemma twoOptImprove_terminates_witness :
  twoOptImprove [0; 2; 3; 4; 1; 0] directed5 ≠ OutOfFuel
  ∧ twoOpt_loop 1000 directed5 [0; 2; 3; 4; 1; 0]
    = twoOptImprove [0; 2; 3; 4; 1; 0] directed5
  ∧ twoOptSwap [0; 2; 3; 4; 1; 0] 3 4 ≡ₚ [0; 2; 3; 4; 1; 0]
  ∧ [0; 2; 3; 4; 1; 0] ≡ₚ [0; 2; 3; 1; 4; 0]
  ∧ twoOpt_loop 1 directed5 [0; 2; 3; 1; 4; 0] = Ok [0; 2; 3; 1; 4; 0].
Proof.
  destruct (twoOptImprove_terminates [0; 2; 3; 4; 1; 0] directed5)
    as (Htotal & Hfuel & _ & Hswap & Hperm & Hexit).
  split; [exact Htotal|]. split; [|split; [|split]].
  - apply Hfuel. right; left. apply Nat.ltb_lt. vm_compute. reflexivity.
  - apply Hswap. lia.
  - apply Hperm. reflexivity.
  - apply (Hexit 0%nat [0; 2; 3; 1; 4; 0] ([0; 2; 3; 1; 4; 0], false));
      reflexivity.
Defined.

(** ** Reads outside the matrix *)

Lemma nthZ_outside {A : Type} (arr : list A) (i : Z) :
  ¬ (0 ≤ i < Z.of_nat (length arr)) → nthZ arr i = None.
Proof.
  intros Hout. unfold nthZ. case_bool_decide; [|done].
  apply lookup_ge_None. lia.
Qed.

Lemma nthZ_elem_of {A : Type} (arr : list A) (i : Z) (x : A) :
  nthZ arr i = Some x → x ∈ arr.
Proof.
  unfold nthZ. case_bool_decide; [|done]. apply list_elem_of_lookup_2.
Qed.

Lemma cell_fuel matrix i j : cell matrix i j ≠ OutOfFuel.
Proof.
  unfold cell. destruct (nthZ matrix i) as [row|]; [|done].
  by destruct (nthZ row j).
Qed.

(** [matrix[i]] is [undefined] for an [i] that is not a stop. *)
Lemma cell_row_outside matrix i j :
  ¬ in_range matrix i → cell matrix i j = TypeError.
Proof. intros Hi. unfold cell. by rewrite nthZ_outside. Qed.

(** In a square matrix [matrix[i][j]] is [undefined] for a [j] that is not
    a stop. *)
Lemma cell_column_outside matrix i j :
  square matrix → ¬ in_range matrix j → cell matrix i j = TypeError.
Proof.
  intros Hsquare Hj. unfold cell.
  destruct (nthZ matrix i) as [row|] eqn:Hrow; [|done].
  rewrite nthZ_outside; [done|].
  apply nthZ_elem_of, Hsquare in Hrow. by rewrite Hrow.
Qed.

(** A route whose first edge leaves a stop that has no row throws. *)
Lemma calculateTotalDistance_first_outside matrix a b rest :
  (∀ j, cell matrix a j = TypeError) →
  calculateTotalDistance (a :: b :: rest) matrix = TypeError.
Proof.
  intros Ha. rewrite calculateTotalDistance_cells.
  cbn [consecutive_cells]. by rewrite Ha.
Qed.

(** A route of two stops or more whose last stop has no column throws. *)
Lemma calculateTotalDistance_last_outside matrix route e :
  (∀ i, cell matrix i e = TypeError) →
  (2 ≤ length route)%nat → last route = Some e →
  calculateTotalDistance route matrix = TypeError.
Proof.
  intros He Hlen Hlast. rewrite calculateTotalDistance_cells.
  assert (consecutive_cells matrix route = TypeError) as ->; [|done].
  induction route as [|a route IH]; [simpl in Hlen; lia|].
  destruct route as [|b rest]; [simpl in Hlen; lia|].
  change (consecutive_cells matrix (a :: b :: rest))
    with (element ← cell matrix a b;
          cells ← consecutive_cells matrix (b :: rest);
          Ok (element :: cells)).
  destruct rest as [|c rest].
  - injection Hlast as ->. by rewrite He.
  - pose proof (cell_fuel matrix a b).
    destruct (cell matrix a b); [|done..].
    rewrite IH; [done|simpl; lia|done].
Qed.

(** ** The exhaustive search on an index outside the matrix *)

Lemma at_index_last (route : list Z) (x : Z) :
  at_index (route ++ [x]) (length (route ++ [x]) - 1) = Ok x.
Proof.
  rewrite length_app; simpl.
  replace (length route + 1 - 1)%nat with (length route) by lia.
  apply at_index_app_l.
Qed.

Lemma at_index_before_last (route : list Z) (x y : Z) :
  at_index ((route ++ [x]) ++ [y]) (length ((route ++ [x]) ++ [y]) - 2)
  = Ok x.
Proof.
  rewrite <- app_assoc, length_app; simpl.
  replace (length route + 2 - 2)%nat with (length route) by lia.
  apply at_index_app_l.
Qed.

(** Every list with a first element has a last one. *)
Lemma cons_snoc (a : Z) (l : list Z) : ∃ l' z, a :: l = l' ++ [z].
Proof.
  destruct (last (a :: l)) as [z|] eqn:Hlast.
  - apply last_Some in Hlast as [l' ->]. eauto.
  - by apply last_None in Hlast.
Qed.

Lemma permute_leaf_start_outside matrix startIndex endIndex current best :
  ¬ in_range matrix startIndex →
  permute_leaf matrix startIndex endIndex current best = TypeError.
Proof.
  intros Hstart. destruct best as [bestRoute bestDistance].
  unfold permute_leaf.
  destruct current as [|c current].
  - destruct endIndex as [e|]; [case_bool_decide|]; simpl;
      by rewrite cell_row_outside.
  - rewrite calculateTotalDistance_first_outside; [done|].
    intros j. by apply cell_row_outside.
Qed.

Lemma permute_leaf_end_outside matrix startIndex e current best :
  square matrix → in_range matrix startIndex → ¬ in_range matrix e →
  permute_leaf matrix startIndex (Some e) current best = TypeError.
Proof.
  intros Hsquare Hstart Hend. destruct best as [bestRoute bestDistance].
  unfold permute_leaf.
  rewrite bool_decide_eq_true_2 by (intros ->; done).
  pose proof (calculateTotalDistance_fuel (startIndex :: current) matrix).
  destruct (calculateTotalDistance _ _) as [d| |]; [|done..].
  destruct (cons_snoc startIndex current) as (l' & z & ->).
  cbn [mbind result_bind]. rewrite at_index_before_last.
  cbn [mbind result_bind]. by rewrite cell_column_outside.
Qed.

Lemma length_without_index (arr : list Z) (i : nat) :
  (i < length arr)%nat →
  length (without_index arr i) = (length arr - 1)%nat.
Proof.
  intros Hi. unfold without_index.
  rewrite length_app, length_take, length_drop. lia.
Qed.

Lemma at_index_inside (arr : list Z) (i : nat) :
  (i < length arr)%nat → ∃ x, at_index arr i = Ok x.
Proof.
  intros [x Hx]%lookup_lt_is_Some_2. exists x. unfold at_index. by rewrite Hx.
Qed.

(** When every leaf throws, so does the whole enumeration. *)
Lemma permute_throws matrix startIndex endIndex fuel arr current best :
  (∀ current best,
     permute_leaf matrix startIndex endIndex current best = TypeError) →
  (length arr ≤ fuel)%nat →
  permute fuel matrix startIndex endIndex arr current best = TypeError.
Proof.
  intros Hleaf. revert arr current best.
  induction fuel as [|fuel IH]; intros [|x arr] current best Hlen;
    cbn [permute]; try apply Hleaf; [simpl in Hlen; lia|].
  apply forM_throws; [done|].
  intros best' i Hi%elem_of_seq.
  destruct (at_index_inside (x :: arr) i) as [y ->]; [lia|].
  cbn [mbind result_bind]. apply IH.
  rewrite length_without_index by lia. simpl in *. lia.
Qed.

(** The enumeration never runs out of fuel. *)
Lemma permute_fuel matrix startIndex endIndex fuel arr current best :
  (length arr ≤ fuel)%nat →
  permute fuel matrix startIndex endIndex arr current best ≠ OutOfFuel.
Proof.
  revert arr current best.
  induction fuel as [|fuel IH]; intros [|x arr] current best Hlen;
    cbn [permute]; try (simpl in Hlen; lia).
  1,2: destruct best as [bestRoute bestDistance]; unfold permute_leaf;
    pose proof (calculateTotalDistance_fuel (startIndex :: current) matrix);
    destruct (calculateTotalDistance _ _) as [d| |]; [|done..];
    cbn [mbind result_bind];
    destruct (cons_snoc startIndex current) as (l' & z & ->);
    rewrite ?at_index_before_last, ?at_index_last;
    cbn [mbind result_bind];
    (destruct endIndex as [e|]; [case_bool_decide|]);
    rewrite ?at_index_before_last, ?at_index_last;
    cbn [mbind result_bind];
    match goal with |- context [cell ?m ?a ?b] =>
      pose proof (cell_fuel m a b); destruct (cell m a b) end;
    try done; cbn [mbind result_bind]; by destruct (num_lt _ _).
  apply forM_fuel. intros best' i Hi%elem_of_seq.
  destruct (at_index_inside (x :: arr) i) as [y ->]; [lia|].
  cbn [mbind result_bind]. apply IH.
  rewrite length_without_index by lia. simpl in *. lia.
Qed.

(** ** The stops other than the start *)

Lemma elem_of_indices (n : nat) (i : Z) :
  i ∈ indices n ↔ 0 ≤ i < Z.of_nat n.
Proof.
  unfold indices. rewrite list_elem_of_fmap. split.
  - intros (k & -> & Hk%elem_of_seq). lia.
  - intros Hi. exists (Z.to_nat i). rewrite elem_of_seq. lia.
Qed.

Lemma NoDup_indices (n : nat) : NoDup (indices n).
Proof. apply NoDup_fmap_2; [apply _|apply NoDup_seq]. Qed.

Lemma length_indices (n : nat) : length (indices n) = n.
Proof. unfold indices. by rewrite length_fmap, length_seq. Qed.

(** Deleting what is not a member changes nothing; deleting a member of a
    set takes one element away. *)
Lemma set_delete_not_elem (x : Z) (unvisited : list Z) :
  x ∉ unvisited → set_delete x unvisited = unvisited.
Proof.
  unfold set_delete. induction unvisited as [|y unvisited IH]; [done|].
  intros [Hxy Hx]%not_elem_of_cons.
  rewrite filter_cons, decide_True by done. by rewrite IH.
Qed.

Lemma length_set_delete (x : Z) (unvisited : list Z) :
  NoDup unvisited →
  (length unvisited - 1 ≤ length (set_delete x unvisited))%nat.
Proof.
  induction 1 as [|y unvisited Hy _ IH]; [done|].
  unfold set_delete in *. rewrite filter_cons.
  case_decide as Hxy; simpl; [lia|]. subst y.
  fold (set_delete x unvisited). rewrite set_delete_not_elem by done. lia.
Qed.

Lemma cities_nonempty (n : nat) (startIndex : Z) :
  (2 ≤ n)%nat → filter (λ i, i ≠ startIndex) (indices n) ≠ [].
Proof.
  intros Hn Hnil.
  assert (∀ i, i ∈ indices n → i ≠ startIndex → False) as Hnone.
  { intros i Hi Hne.
    assert (i ∈ filter (λ i, i ≠ startIndex) (indices n)) as Hin
      by by apply list_elem_of_filter.
    rewrite Hnil in Hin. by apply not_elem_of_nil in Hin. }
  destruct (decide (startIndex = 0)) as [->|Hne].
  - apply (Hnone 1); [apply elem_of_indices; lia|done].
  - apply (Hnone 0); [apply elem_of_indices; lia|done].
Qed.

(** ** The subset DP on an index outside the matrix *)

Lemma hk_base_fuel matrix startIndex tables city :
  hk_base matrix startIndex tables city ≠ OutOfFuel.
Proof.
  destruct tables as [dp parent]. unfold hk_base.
  pose proof (cell_fuel matrix startIndex city).
  by destruct (cell matrix startIndex city).
Qed.

Lemma hk_prev_fuel matrix dp prevMask last acc prev :
  hk_prev matrix dp prevMask last acc prev ≠ OutOfFuel.
Proof.
  destruct acc as [minCost bestPrev]. unfold hk_prev.
  case_bool_decide; [done|].
  pose proof (cell_fuel matrix prev last).
  destruct (cell matrix prev last); [|done..].
  cbn [mbind result_bind]. by destruct (num_lt _ _).
Qed.

Lemma hk_size_fuel matrix cities tables size :
  hk_size matrix cities tables size ≠ OutOfFuel.
Proof.
  apply forM_fuel; intros tables1 subset _.
  apply forM_fuel; intros [dp parent] last _. unfold hk_last.
  pose proof (forM_fuel (hk_prev matrix dp
                           (Z.lxor (getMask subset) (shl1 last)) last)
                        subset (Infinity, -1)) as Hprev.
  destruct (forM _ subset _) as [[minCost bestPrev]| |]; [done|done|].
  exfalso. apply Hprev; [|done]. intros; apply hk_prev_fuel.
Qed.

Lemma heldKarpDP_start_outside matrix startIndex endIndex :
  (2 ≤ length matrix)%nat → ¬ in_range matrix startIndex →
  heldKarpDP matrix startIndex endIndex = TypeError.
Proof.
  intros Hn Hstart. unfold heldKarpDP.
  rewrite forM_throws; [done|by apply cities_nonempty|].
  intros [dp parent] city _. unfold hk_base.
  by rewrite cell_row_outside.
Qed.

Lemma heldKarpDP_end_outside matrix startIndex e :
  (2 ≤ length matrix)%nat → square matrix →
  in_range matrix startIndex → ¬ in_range matrix e →
  heldKarpDP matrix startIndex (Some e) = TypeError.
Proof.
  intros Hn Hsquare Hstart Hend. unfold heldKarpDP.
  set (cities := filter (λ i, i ≠ startIndex) (indices (length matrix))).
  pose proof (forM_fuel (hk_base matrix startIndex) cities (∅, ∅)
                (λ tables city _, hk_base_fuel matrix startIndex tables city))
    as Hbase.
  destruct (forM (hk_base matrix startIndex) cities (∅, ∅)) as [tables| |];
    [|done..].
  cbn [mbind result_bind].
  pose proof (forM_fuel (hk_size matrix cities)
                (seq 2 (length cities - 1)) tables
                (λ tables size _, hk_size_fuel matrix cities tables size))
    as Hsize.
  destruct (forM (hk_size matrix cities) _ tables) as [[dp parent]| |];
    [|done..].
  cbn [mbind result_bind].
  rewrite forM_throws; [done|by apply cities_nonempty|].
  intros [minCost bestLast] city _. unfold hk_final.
  rewrite bool_decide_eq_true_2 by (intros ->; done).
  by rewrite cell_column_outside.
Qed.

(** ** The nearest-neighbour construction *)

Lemma nn_scan_fuel matrix current acc city :
  nn_scan matrix current acc city ≠ OutOfFuel.
Proof.
  destruct acc as [nearest minDistance]. unfold nn_scan.
  pose proof (cell_fuel matrix current city).
  destruct (cell matrix current city); [|done..].
  cbn [mbind result_bind]. by destruct (num_lt _ _).
Qed.

Lemma nn_scan_cases matrix current acc city acc' :
  nn_scan matrix current acc city = Ok acc' →
  acc'.1 = acc.1 ∨ acc'.1 = city.
Proof.
  destruct acc as [nearest minDistance]. unfold nn_scan.
  destruct (cell matrix current city); [|done..].
  cbn [mbind result_bind]. destruct (num_lt _ _); intros [= <-]; auto.
Qed.

Lemma nn_scan_first matrix current nearest city acc :
  nn_scan matrix current (nearest, Infinity) city = Ok acc → acc.1 = city.
Proof.
  unfold nn_scan. destruct (cell matrix current city); [|done..].
  cbn [mbind result_bind num_lt]. by intros [= <-].
Qed.

(** The scan of a non-empty set chooses one of its members: durations are
    finite, so the first city already beats [Infinity]. *)
Lemma nn_scan_chooses matrix current unvisited nearest minDistance :
  unvisited ≠ [] →
  forM (nn_scan matrix current) unvisited (-1, Infinity)
  = Ok (nearest, minDistance) →
  nearest ∈ unvisited.
Proof.
  destruct unvisited as [|city unvisited]; [done|]. intros _.
  cbn [forM].
  destruct (nn_scan matrix current (-1, Infinity) city) as [acc| |]
    eqn:Hfirst; cbn [mbind result_bind]; [|done..].
  apply nn_scan_first in Hfirst. intros Hrest.
  apply (forM_invariant (λ acc, acc.1 ∈ city :: unvisited)) in Hrest;
    [done|rewrite Hfirst; by left|].
  intros acc1 city' acc2 Hcity' Hacc [->| ->]%nn_scan_cases; [done|by right].
Qed.

Lemma nn_loop_fuel matrix fuel unvisited route current :
  (length unvisited ≤ fuel)%nat →
  nn_loop fuel matrix unvisited route current ≠ OutOfFuel.
Proof.
  revert unvisited route current.
  induction fuel as [|fuel IH]; intros [|city unvisited] route current Hlen;
    cbn [nn_loop]; try done; [simpl in Hlen; lia|].
  pose proof (forM_fuel (nn_scan matrix current) (city :: unvisited)
                (-1, Infinity)
                (λ acc city' _, nn_scan_fuel matrix current acc city'))
    as Hscan.
  destruct (forM _ (city :: unvisited) _) as [[nearest minDistance]| |]
    eqn:Hforall; [|done..].
  cbn [mbind result_bind]. apply IH.
  apply nn_scan_chooses in Hforall; [|done].
  pose proof (length_filter_lt (λ y, y ≠ nearest) _ nearest Hforall).
  unfold set_delete. simpl in *. lia.
Qed.

Lemma nn_loop_start_outside matrix fuel unvisited route current :
  unvisited ≠ [] → (0 < fuel)%nat → ¬ in_range matrix current →
  nn_loop fuel matrix unvisited route current = TypeError.
Proof.
  intros Hne Hfuel Hcurrent.
  destruct unvisited as [|city unvisited]; [done|].
  destruct fuel as [|fuel]; [lia|]. cbn [nn_loop].
  rewrite forM_throws; [done..|].
  intros [nearest minDistance] city' _. unfold nn_scan.
  by rewrite cell_row_outside.
Qed.

(** A completed construction has visited every city of the set. *)
Lemma nn_loop_length matrix fuel unvisited route current route' :
  NoDup unvisited →
  nn_loop fuel matrix unvisited route current = Ok route' →
  length route' = (length route + length unvisited)%nat.
Proof.
  revert unvisited route current.
  induction fuel as [|fuel IH]; intros [|city unvisited] route current Hnodup;
    cbn [nn_loop]; try done; try (intros [= <-]; simpl; lia).
  destruct (forM _ (city :: unvisited) _) as [[nearest minDistance]| |]
    eqn:Hforall; [|done..].
  cbn [mbind result_bind]. intros ->%IH; [|by apply NoDup_filter].
  apply nn_scan_chooses in Hforall; [|done].
  pose proof (length_filter_lt (λ y, y ≠ nearest) _ nearest Hforall).
  pose proof (length_set_delete nearest _ Hnodup).
  unfold set_delete in *. rewrite length_app. simpl in *. lia.
Qed.

Lemma nearestNeighborGreedy_fuel matrix startIndex endIndex :
  nearestNeighborGreedy matrix startIndex endIndex ≠ OutOfFuel.
Proof.
  unfold nearestNeighborGreedy.
  match goal with |- context [nn_loop (length ?u) ?m ?u ?r ?c] =>
    pose proof (nn_loop_fuel m (length u) u r c (Nat.le_refl _));
    destruct (nn_loop (length u) m u r c) end; [|done..].
  cbn [mbind result_bind].
  destruct endIndex as [e|]; [case_bool_decide|]; done.
Qed.

(** The 2-opt swaps leave the last stop in place. *)
Lemma twoOptSwap_last route i j :
  (j + 1 < length route)%nat → last (twoOptSwap route i j) = last route.
Proof.
  intros Hj. unfold twoOptSwap.
  assert (is_Some (last (drop (j + 1) route))) as [z Hz].
  { destruct (last (drop (j + 1) route)) eqn:Hlast; [done|].
    apply last_None in Hlast. apply (f_equal length) in Hlast.
    rewrite length_drop in Hlast. simpl in Hlast. lia. }
  rewrite <- (take_drop (j + 1) route) at 4.
  rewrite app_assoc, !last_app, Hz. done.
Qed.

(** On a route of four stops or more whose last stop has no column, the
    first comparison of 2-opt throws. *)
Lemma twoOptImprove_last_outside matrix route e :
  (∀ i, cell matrix i e = TypeError) →
  (4 ≤ length route)%nat → last route = Some e →
  twoOptImprove route matrix = TypeError.
Proof.
  intros He Hlen Hlast. unfold twoOptImprove.
  assert (∃ fuel, twoOpt_fuel route matrix = S fuel) as [fuel ->].
  { unfold twoOpt_fuel. destruct (calculateTotalDistance _ _); eauto. }
  assert (twoOpt_step matrix 1 (route, false) 2 = TypeError) as Hstep.
  { unfold twoOpt_step.
    assert (calculateTotalDistance (twoOptSwap route 1 2) matrix = TypeError)
      as ->; [|done].
    apply (calculateTotalDistance_last_outside _ _ e); [done| |].
    - rewrite twoOptSwap_length; lia.
    - rewrite twoOptSwap_last; [done|lia]. }
  assert (twoOpt_inner matrix (route, false) 1 = TypeError) as Hinner.
  { unfold twoOpt_inner. cbn [fst].
    replace (length route - 1 - (1 + 1))%nat with (S (length route - 4))
      by lia.
    change (1 + 1)%nat with 2%nat. cbn [seq forM]. by rewrite Hstep. }
  cbn [twoOpt_loop]. unfold twoOpt_pass.
  replace (length route - 2 - 1)%nat with (S (length route - 4)) by lia.
  cbn [seq forM]. by rewrite Hinner.
Qed.

Lemma nearestNeighbor2Opt_start_outside matrix startIndex endIndex :
  (3 ≤ length matrix)%nat → ¬ in_range matrix startIndex →
  nearestNeighbor2Opt matrix startIndex endIndex = TypeError.
Proof.
  intros Hn Hstart. unfold nearestNeighbor2Opt, nearestNeighborGreedy.
  match goal with |- context [nn_loop (length ?u) ?m ?u ?r ?c] =>
    assert (1 ≤ length u)%nat as Hlen end.
  { pose proof (NoDup_indices (length matrix)) as Hnodup.
    pose proof (length_set_delete startIndex _ Hnodup) as H1.
    rewrite length_indices in H1.
    destruct endIndex as [e|]; [case_bool_decide|]; try lia.
    pose proof (length_set_delete e (set_delete startIndex
                                       (indices (length matrix)))
                  (NoDup_filter _ _ Hnodup)).
    lia. }
  rewrite nn_loop_start_outside; [done| |lia|done].
  intros Hnil. rewrite Hnil in Hlen. simpl in Hlen. lia.
Qed.

Lemma nearestNeighbor2Opt_end_outside matrix startIndex e :
  (4 ≤ length matrix)%nat → square matrix →
  in_range matrix startIndex → ¬ in_range matrix e →
  nearestNeighbor2Opt matrix startIndex (Some e) = TypeError.
Proof.
  intros Hn Hsquare Hstart Hend.
  unfold nearestNeighbor2Opt, nearestNeighborGreedy.
  rewrite bool_decide_eq_true_2 by (intros ->; done).
  pose proof (NoDup_indices (length matrix)) as Hnodup.
  set (unvisited := set_delete e (set_delete startIndex
                                    (indices (length matrix)))).
  assert (NoDup unvisited) as Hnodup'
    by (apply NoDup_filter; by apply NoDup_filter).
  assert (length matrix - 1 ≤ length unvisited)%nat as Hlen.
  { unfold unvisited. rewrite (set_delete_not_elem e).
    - pose proof (length_set_delete startIndex _ Hnodup) as H1.
      by rewrite length_indices in H1.
    - intros [_ He]%list_elem_of_filter. by apply elem_of_indices in He. }
  pose proof (nn_loop_fuel matrix (length unvisited) unvisited [startIndex]
                startIndex (Nat.le_refl _)) as Hfuel.
  destruct (nn_loop _ matrix unvisited _ _) as [route| |] eqn:Hloop;
    [|done..].
  apply nn_loop_length in Hloop; [|done]. simpl in Hloop.
  cbn [mbind result_bind].
  rewrite (twoOptImprove_last_outside _ _ e); [done| | |].
  - intros i. by apply cell_column_outside.
  - rewrite length_app. simpl. lia.
  - apply last_snoc.
Qed.

(** ** Input the specification calls invalid *)

Lemma bruteForceOptimal_start_outside matrix startIndex endIndex :
  ¬ in_range matrix startIndex →
  bruteForceOptimal matrix startIndex endIndex = TypeError.
Proof.
  intros Hstart. unfold bruteForceOptimal.
  rewrite permute_throws; [done| |done].
  intros. by apply permute_leaf_start_outside.
Qed.

Lemma bruteForceOptimal_end_outside matrix startIndex e :
  square matrix → in_range matrix startIndex → ¬ in_range matrix e →
  bruteForceOptimal matrix startIndex (Some e) = TypeError.
Proof.
  intros Hsquare Hstart Hend. unfold bruteForceOptimal.
  rewrite permute_throws; [done| |done].
  intros. by apply permute_leaf_end_outside.
Qed.

(** C3, as the code has it.  [optimizeRoute] has no validation step.  It
    throws, from inside the solver it selected and without a result, when
    the matrix is empty, when [startIndex] is not a stop, and, for a
    square matrix, when [endIndex] is given and is not a stop. *)
Theorem optimizeRoute_invalid_index matrix startIndex endIndex :
  (length matrix < 1)%nat
  ∨ ¬ in_range matrix startIndex
  ∨ (square matrix ∧ ∃ e, endIndex = Some e ∧ ¬ in_range matrix e) →
  optimizeRoute matrix startIndex endIndex = TypeError.
Proof.
  intros Hinvalid.
  assert (¬ in_range matrix startIndex
          ∨ in_range matrix startIndex ∧ square matrix
            ∧ ∃ e, endIndex = Some e ∧ ¬ in_range matrix e) as Hcases.
  { destruct (decide (in_range matrix startIndex)) as [Hin|Hout];
      [|by left].
    destruct Hinvalid as [Hempty|[Hout|Hend]]; [|by left|by right].
    unfold in_range in Hin. lia. }
  unfold optimizeRoute.
  destruct Hcases as [Hstart|(Hstart & Hsquare & e & -> & Hend)];
    repeat case_bool_decide.
  - by apply bruteForceOptimal_start_outside.
  - apply heldKarpDP_start_outside; [lia|done].
  - apply nearestNeighbor2Opt_start_outside; [lia|done].
  - by apply bruteForceOptimal_end_outside.
  - apply heldKarpDP_end_outside; [lia|done..].
  - apply nearestNeighbor2Opt_end_outside; [lia|done..].
Qed.

Lemma square_scenario3 : square scenario3.
Proof.
  intros row Hrow. repeat (apply elem_of_cons in Hrow as [->|Hrow]; [done|]).
  by apply not_elem_of_nil in Hrow.
Qed.

Lemma optimizeRoute_invalid_index_witness :
  optimizeRoute [] 0 None = TypeError
  ∧ optimizeRoute scenario3 3 None = TypeError
  ∧ optimizeRoute scenario3 0 (Some (-1)) = TypeError.
Proof.
  split; [|split].
  - apply (optimizeRoute_invalid_index [] 0 None). left. simpl. lia.
  - apply (optimizeRoute_invalid_index scenario3 3 None). right; left.
    unfold in_range. simpl. lia.
  - apply (optimizeRoute_invalid_index scenario3 0 (Some (-1))).
    right; right. split; [exact square_scenario3|].
    exists (-1). split; [reflexivity|]. unfold in_range. simpl. lia.
Defined.

(** C3 as stated fails: a 3x4 matrix is not square, and [optimizeRoute]
    returns a route for it; with [endIndex = 3], which is not one of its
    three stops, the route even ends at that index. *)
Lemma optimizeRoute_accepts_non_square :
  ¬ square scenario3x4
  ∧ ¬ in_range scenario3x4 3
  ∧ optimizeRoute scenario3x4 0 None
    = Ok {| orderedStops := ["0"; "1"; "2"; "0"];
            totalDuration := 1;
            totalDistance := 300;
            totalCost := {| cost_min := 0; cost_max := 0 |} |}
  ∧ optimizeRoute scenario3x4 0 (Some 3)
    = Ok {| orderedStops := ["0"; "1"; "2"; "3"];
            totalDuration := 0;
            totalDistance := 190;
            totalCost := {| cost_min := 0; cost_max := 0 |} |}.
Proof.
  split; [|split; [|split]].
  - intros Hsquare.
    specialize (Hsquare (map leg [0; 5; 20; 9])). simpl in Hsquare.
    assert (4 = 3)%nat; [|lia]. apply Hsquare. left.
  - unfold in_range. simpl. lia.
  - vm_compute. reflexivity.
  - vm_compute. reflexivity.
Qed.


(** ** The subset DP returns *)

Lemma shift_count_range (city : Z) : 0 ≤ Z.land city 31 < 32.
Proof.
  change 31 with (Z.ones 5). rewrite Z.land_ones by lia.
  apply Z.mod_pos_bound. lia.
Qed.

Lemma shl1_shift_count (city : Z) : shl1 (Z.land city 31) = shl1 city.
Proof. unfold shl1. by rewrite <- Z.land_assoc. Qed.

(** Among the low 32 bits, [1 << city] has exactly the bit
    [city & 31] set. *)
Lemma shl1_testbit (city : Z) (k : nat) :
  (k < 32)%nat →
  Z.testbit (shl1 city) (Z.of_nat k)
  = bool_decide (Z.of_nat k = Z.land city 31).
Proof.
  intros Hk. pose proof (shift_count_range city) as Hp.
  rewrite <- shl1_shift_count.
  assert (shl1_bits_table = true) as Htable by (vm_compute; reflexivity).
  unfold shl1_bits_table in Htable.
  rewrite forallb_forall in Htable.
  specialize (Htable (Z.to_nat (Z.land city 31))).
  rewrite forallb_forall in Htable.
  specialize (Htable ltac:(apply in_seq; lia) k ltac:(apply in_seq; lia)).
  rewrite Z2Nat.id in Htable by lia.
  apply Bool.eqb_prop in Htable as ->.
  destruct (Nat.eqb_spec k (Z.to_nat (Z.land city 31))) as [->|Hne].
  - rewrite bool_decide_eq_true_2; [done|lia].
  - rewrite bool_decide_eq_false_2; [done|lia].
Qed.

Lemma length_filter_ext_in (P Q : nat → Prop)
    `{!∀ k, Decision (P k), !∀ k, Decision (Q k)} (ks : list nat) :
  (∀ k, k ∈ ks → P k ↔ Q k) →
  length (filter P ks) = length (filter Q ks).
Proof.
  induction ks as [|k ks IH]; intros Hext; [done|].
  rewrite !filter_cons.
  pose proof (Hext k ltac:(left)) as Hk.
  specialize (IH ltac:(intros; apply Hext; by right)).
  repeat case_decide; simpl; tauto || lia.
Qed.

Section Count.
Context (P Q : nat → Prop) `{!∀ k, Decision (P k), !∀ k, Decision (Q k)}.
Context (p : nat).

(** Setting one position adds at most one. *)
Lemma length_filter_set (ks : list nat) :
  NoDup ks → (∀ k, k ∈ ks → k ≠ p → Q k ↔ P k) →
  (length (filter Q ks) ≤ length (filter P ks) + 1)%nat.
Proof.
  induction 1 as [|k ks Hk _ IH]; intros Hext; [simpl; lia|].
  rewrite !filter_cons.
  destruct (decide (k = p)) as [->|Hne].
  - assert (length (filter Q ks) = length (filter P ks)) as Heq.
    { apply length_filter_ext_in. intros k Hin.
      apply Hext; [by right|]. by intros ->. }
    repeat case_decide; simpl; lia.
  - pose proof (Hext k ltac:(left) Hne).
    specialize (IH ltac:(intros; apply Hext; [by right|done])).
    repeat case_decide; simpl; tauto || lia.
Qed.

(** Clearing one position that was set takes exactly one away. *)
Lemma length_filter_clear (ks : list nat) :
  NoDup ks → p ∈ ks → (∀ k, k ∈ ks → k ≠ p → Q k ↔ P k) →
  P p → ¬ Q p →
  (length (filter Q ks) + 1 = length (filter P ks))%nat.
Proof.
  induction 1 as [|k ks Hk _ IH]; intros Hin Hext HP HQ.
  - by apply not_elem_of_nil in Hin.
  - rewrite !filter_cons.
    destruct (decide (k = p)) as [->|Hne].
    + assert (length (filter Q ks) = length (filter P ks)) as Heq.
      { apply length_filter_ext_in. intros k Hin'.
        apply Hext; [by right|]. by intros ->. }
      rewrite decide_False, decide_True by done. simpl. lia.
    + apply elem_of_cons in Hin as [->|Hin]; [done|].
      pose proof (Hext k ltac:(left) Hne).
      specialize (IH Hin ltac:(intros; apply Hext; [by right|done]) HP HQ).
      repeat case_decide; simpl; tauto || lia.
Qed.
End Count.

Lemma popcount32_lor (mask city : Z) :
  (popcount32 (Z.lor mask (shl1 city)) ≤ popcount32 mask + 1)%nat.
Proof.
  pose proof (shift_count_range city).
  unfold popcount32.
  apply (length_filter_set _ _ (Z.to_nat (Z.land city 31)));
    [apply NoDup_seq|].
  intros k Hk%elem_of_seq Hne.
  rewrite Z.lor_spec, shl1_testbit by lia.
  rewrite bool_decide_eq_false_2 by lia. by rewrite orb_false_r.
Qed.

Lemma popcount32_lxor (mask city : Z) :
  Z.testbit mask (Z.land city 31) = true →
  (popcount32 (Z.lxor mask (shl1 city)) + 1 = popcount32 mask)%nat.
Proof.
  intros Hset. pose proof (shift_count_range city).
  unfold popcount32.
  apply (length_filter_clear _ _ (Z.to_nat (Z.land city 31)));
    [apply NoDup_seq|apply elem_of_seq; lia| | |].
  - intros k Hk%elem_of_seq Hne.
    rewrite Z.lxor_spec, shl1_testbit by lia.
    rewrite bool_decide_eq_false_2 by lia. by rewrite xorb_false_r.
  - by rewrite Z2Nat.id by lia.
  - rewrite Z.lxor_spec, shl1_testbit by lia.
    rewrite Z2Nat.id by lia. rewrite Hset, bool_decide_eq_true_2 by done.
    done.
Qed.

Lemma getMask_foldl_popcount (cities : list Z) (mask : Z) :
  (popcount32 (foldl (λ mask city, Z.lor mask (shl1 city)) mask cities)
   ≤ popcount32 mask + length cities)%nat.
Proof.
  revert mask; induction cities as [|city cities IH]; intros mask;
    simpl; [lia|].
  specialize (IH (Z.lor mask (shl1 city))).
  pose proof (popcount32_lor mask city). lia.
Qed.

Lemma getMask_popcount (cities : list Z) :
  (popcount32 (getMask cities) ≤ length cities)%nat.
Proof. apply (getMask_foldl_popcount cities 0). Qed.

Lemma getMask_foldl_testbit (cities : list Z) (mask : Z) (k : Z) :
  Z.testbit mask k = true ∨ (∃ city, city ∈ cities
                                     ∧ Z.testbit (shl1 city) k = true) →
  Z.testbit (foldl (λ mask city, Z.lor mask (shl1 city)) mask cities) k
  = true.
Proof.
  revert mask; induction cities as [|city cities IH]; intros mask; simpl.
  - intros [Hmask|(city & Hin & _)]; [done|by apply not_elem_of_nil in Hin].
  - intros Hbit. apply IH. rewrite Z.lor_spec.
    destruct Hbit as [->|(city' & [->|Hin]%elem_of_cons & Hbit)].
    + by left.
    + left. by rewrite Hbit, orb_true_r.
    + right. eauto.
Qed.

(** The mask of a subset has the bit of each of its cities set. *)
Lemma getMask_testbit (cities : list Z) (city : Z) :
  city ∈ cities → Z.testbit (getMask cities) (Z.land city 31) = true.
Proof.
  intros Hin. apply getMask_foldl_testbit. right. exists city.
  split; [done|]. pose proof (shift_count_range city).
  rewrite <- (Z2Nat.id (Z.land city 31)) at 1 by lia.
  rewrite shl1_testbit by lia. rewrite bool_decide_eq_true_2; [done|lia].
Qed.

Lemma parent_keys_set_empty : parent_keys_set ∅.
Proof. intros mask city prev. by rewrite lookup_empty. Qed.

Lemma parent_keys_set_insert parent mask city prev :
  parent_keys_set parent →
  Z.testbit mask (Z.land city 31) = true →
  parent_keys_set (<[(mask, city) := prev]> parent).
Proof.
  intros Hkeys Hbit mask' city' prev'.
  destruct (decide ((mask, city) = (mask', city'))) as [[= <- <-]|Hne].
  - done.
  - rewrite lookup_insert_ne by done. apply Hkeys.
Qed.

Lemma hk_base_keys matrix startIndex tables city tables' :
  parent_keys_set tables.2 →
  hk_base matrix startIndex tables city = Ok tables' →
  parent_keys_set tables'.2.
Proof.
  destruct tables as [dp parent]. unfold hk_base. intros Hkeys.
  destruct (cell matrix startIndex city); [|done..].
  cbn [mbind result_bind]. intros [= <-]. cbn [snd].
  apply parent_keys_set_insert; [done|].
  pose proof (shift_count_range city).
  rewrite <- (Z2Nat.id (Z.land city 31)) at 1 by lia.
  rewrite shl1_testbit by lia. rewrite bool_decide_eq_true_2; [done|lia].
Qed.

Lemma hk_size_keys matrix cities tables size tables' :
  parent_keys_set tables.2 →
  hk_size matrix cities tables size = Ok tables' →
  parent_keys_set tables'.2.
Proof.
  unfold hk_size. intros Hkeys.
  apply (forM_invariant (λ tables, parent_keys_set tables.2)); [done|].
  clear. intros tables1 subset tables2 _ Hkeys. unfold hk_subset.
  apply (forM_invariant (λ tables, parent_keys_set tables.2)); [done|].
  clear. intros [dp parent] last tables3 Hlast Hkeys. unfold hk_last.
  destruct (forM _ subset _) as [[minCost bestPrev]| |]; [|done..].
  cbn [mbind result_bind]. intros [= <-]. cbn [snd].
  apply parent_keys_set_insert; [done|]. by apply getMask_testbit.
Qed.

(** Every step of the walk back clears a set bit of the mask, so the walk
    is no longer than the number of set bits plus one. *)
Lemma reconstruct_loop_fuel parent fuel start current currentMask path :
  parent_keys_set parent →
  (popcount32 currentMask < fuel)%nat →
  reconstruct_loop fuel parent start current currentMask path ≠ OutOfFuel.
Proof.
  intros Hkeys. revert current currentMask path.
  induction fuel as [|fuel IH]; intros current currentMask path Hfuel;
    [lia|].
  cbn [reconstruct_loop]. case_bool_decide; [|done].
  destruct (parent !! (currentMask, current)) as [prev|] eqn:Hprev; [|done].
  apply IH. apply Hkeys in Hprev.
  pose proof (popcount32_lxor currentMask current Hprev). lia.
Qed.

Lemma edge_fuel matrix route i : edge matrix route i ≠ OutOfFuel.
Proof.
  unfold edge, at_index.
  destruct (route !! i) as [a|]; [|done].
  destruct (route !! (i + 1)%nat) as [b|]; [|done].
  apply cell_fuel.
Qed.

Lemma calculateRouteMetrics_fuel route matrix :
  calculateRouteMetrics route matrix ≠ OutOfFuel.
Proof.
  unfold calculateRouteMetrics.
  pose proof (forM_fuel (metrics_step matrix route)
                (seq 0 (length route - 1)) (0, 0, 0, 0)) as Hloop.
  destruct (forM _ _ _) as [[[[td ts] mn] mx]| |]; [done|done|].
  exfalso. apply Hloop; [|done]. intros acc i _.
  rewrite metrics_step_update.
  pose proof (edge_fuel matrix route i). by destruct (edge matrix route i).
Qed.

Lemma bruteForceOptimal_fuel matrix startIndex endIndex :
  bruteForceOptimal matrix startIndex endIndex ≠ OutOfFuel.
Proof.
  unfold bruteForceOptimal.
  match goal with |- context [permute ?f ?m ?s ?e ?arr ?c ?b] =>
    pose proof (permute_fuel m s e f arr c b (Nat.le_refl _));
    destruct (permute f m s e arr c b) as [[bestRoute bestDistance]| |] end;
    [|done..].
  apply calculateRouteMetrics_fuel.
Qed.

Lemma hk_final_fuel matrix dp startIndex endIndex fullMask acc city :
  hk_final matrix dp startIndex endIndex fullMask acc city ≠ OutOfFuel.
Proof.
  destruct acc as [minCost bestLast]. unfold hk_final.
  destruct endIndex as [e|]; [case_bool_decide|];
    match goal with |- context [cell ?m ?a ?b] =>
      pose proof (cell_fuel m a b); destruct (cell m a b) end;
    try done; cbn [mbind result_bind]; by destruct (num_lt _ _).
Qed.

Lemma heldKarpDP_fuel matrix startIndex endIndex :
  heldKarpDP matrix startIndex endIndex ≠ OutOfFuel.
Proof.
  unfold heldKarpDP.
  set (cities := filter (λ i, i ≠ startIndex) (indices (length matrix))).
  pose proof (forM_fuel (hk_base matrix startIndex) cities (∅, ∅)
                (λ tables city _, hk_base_fuel matrix startIndex tables city))
    as Hbase.
  destruct (forM (hk_base matrix startIndex) cities (∅, ∅)) as [tables| |]
    eqn:Hbase_eq; [|done..].
  apply (forM_invariant (λ tables, parent_keys_set tables.2)) in Hbase_eq;
    [|apply parent_keys_set_empty|intros ????; apply hk_base_keys].
  cbn [mbind result_bind].
  pose proof (forM_fuel (hk_size matrix cities)
                (seq 2 (length cities - 1)) tables
                (λ tables size _, hk_size_fuel matrix cities tables size))
    as Hsize.
  destruct (forM (hk_size matrix cities) _ tables) as [[dp parent]| |]
    eqn:Hsize_eq; [|done..].
  apply (forM_invariant (λ tables, parent_keys_set tables.2)) in Hsize_eq;
    [|done|intros ????; apply hk_size_keys].
  cbn [mbind result_bind snd] in *.
  match goal with |- context [forM ?body cities ?acc] =>
    pose proof (forM_fuel body cities acc) as Hfinal;
    destruct (forM body cities acc) as [[minCost bestLast]| |] end;
    [|done|exfalso; apply Hfinal; [|done]; intros; apply hk_final_fuel].
  cbn [mbind result_bind]. unfold reconstructPath.
  pose proof (reconstruct_loop_fuel parent (S (length cities)) startIndex
                bestLast (getMask cities) [] Hsize_eq) as Hpath.
  destruct (reconstruct_loop _ _ _ _ _ _) as [path| |]; [|done|].
  - cbn [mbind result_bind]. apply calculateRouteMetrics_fuel.
  - exfalso. apply Hpath; [|done].
    pose proof (getMask_popcount cities). lia.
Qed.

Lemma nearestNeighbor2Opt_fuel matrix startIndex endIndex :
  nearestNeighbor2Opt matrix startIndex endIndex ≠ OutOfFuel.
Proof.
  unfold nearestNeighbor2Opt.
  pose proof (nearestNeighborGreedy_fuel matrix startIndex endIndex).
  destruct (nearestNeighborGreedy _ _ _) as [route| |]; [|done..].
  cbn [mbind result_bind].
  pose proof (twoOptImprove_fuel route matrix).
  destruct (twoOptImprove route matrix); [|done..].
  apply calculateRouteMetrics_fuel.
Qed.

(** The entry point always returns or throws: the fuel handed to the
    loops of the three solvers is never used up. *)
Theorem optimizeRoute_total matrix startIndex endIndex :
  optimizeRoute matrix startIndex endIndex ≠ OutOfFuel.
Proof.
  unfold optimizeRoute. repeat case_bool_decide.
  - apply bruteForceOptimal_fuel.
  - apply heldKarpDP_fuel.
  - apply nearestNeighbor2Opt_fuel.
Qed.


(** ** The ends of a route *)

Lemma calculateRouteMetrics_stops route matrix res :
  calculateRouteMetrics route matrix = Ok res →
  orderedStops res = (pretty : Z → string) <$> route.
Proof.
  unfold calculateRouteMetrics.
  destruct (forM _ _ _) as [[[[td ts] mn] mx]| |]; [|done..].
  cbn [mbind result_bind]. by intros [= <-].
Qed.

(** The construction only appends to the route it was given. *)
Lemma nn_loop_extends matrix fuel unvisited route current route' :
  nn_loop fuel matrix unvisited route current = Ok route' →
  ∃ visited, route' = route ++ visited.
Proof.
  revert unvisited route current.
  induction fuel as [|fuel IH]; intros [|city unvisited] route current;
    cbn [nn_loop]; try done;
    try (intros [= <-]; exists []; by rewrite app_nil_r).
  destruct (forM _ _ _) as [[nearest minDistance]| |]; [|done..].
  cbn [mbind result_bind]. intros [visited ->]%IH.
  exists (nearest :: visited). by rewrite <- app_assoc.
Qed.

(** The 2-opt swaps leave the first stop in place. *)
Lemma twoOptSwap_head route i j :
  (1 ≤ i)%nat → head (twoOptSwap route i j) = head route.
Proof.
  intros Hi. unfold twoOptSwap, slice.
  destruct route as [|a route]; [by rewrite !take_nil, !drop_nil|].
  destruct i as [|i]; [lia|done].
Qed.

Lemma twoOpt_pass_ends matrix route acc :
  twoOpt_pass matrix route = Ok acc →
  head acc.1 = head route ∧ last acc.1 = last route.
Proof.
  intros Hpass.
  enough (length acc.1 = length route
          ∧ head acc.1 = head route ∧ last acc.1 = last route) by tauto.
  revert Hpass. unfold twoOpt_pass.
  apply (forM_invariant
           (λ acc, length acc.1 = length route
                   ∧ head acc.1 = head route ∧ last acc.1 = last route));
    [done|].
  intros acc1 i acc2 Hi%elem_of_seq Hacc1. unfold twoOpt_inner.
  apply (forM_invariant
           (λ acc, length acc.1 = length route
                   ∧ head acc.1 = head route ∧ last acc.1 = last route));
    [done|].
  intros [best improved] j acc4 Hj%elem_of_seq (Hlen & Hhead & Hlast).
  cbn [fst] in *.
  intros [->|[-> _]]%twoOpt_step_cases; [done|]. cbn [fst].
  rewrite twoOptSwap_length, twoOptSwap_head, twoOptSwap_last by lia.
  done.
Qed.

Lemma twoOpt_loop_ends matrix fuel route route' :
  twoOpt_loop fuel matrix route = Ok route' →
  head route' = head route ∧ last route' = last route.
Proof.
  revert route; induction fuel as [|fuel IH]; intros route; [done|].
  cbn [twoOpt_loop].
  destruct (twoOpt_pass matrix route) as [[best improved]| |] eqn:Hpass;
    [|done..].
  apply twoOpt_pass_ends in Hpass as [Hhead Hlast]. cbn [fst] in *.
  cbn [mbind result_bind]. destruct improved.
  - intros [-> ->]%IH. done.
  - by intros [= <-].
Qed.

(** ** The heuristic on a square matrix with valid indices *)

Section Valid.
Context (matrix : DistanceMatrix) (Hsquare : square matrix).

Lemma nthZ_inside {A : Type} (arr : list A) (i : Z) :
  0 ≤ i < Z.of_nat (length arr) → is_Some (nthZ arr i).
Proof.
  intros Hi. unfold nthZ. rewrite bool_decide_eq_true_2 by lia.
  apply lookup_lt_is_Some_2. lia.
Qed.

Lemma cell_inside i j :
  in_range matrix i → in_range matrix j → ∃ element, cell matrix i j = Ok element.
Proof.
  intros Hi Hj. unfold cell.
  destruct (nthZ_inside matrix i Hi) as [row Hrow]. rewrite Hrow.
  apply nthZ_elem_of, Hsquare in Hrow.
  destruct (nthZ_inside row j) as [element ->]; [by rewrite Hrow|eauto].
Qed.

Lemma calculateTotalDistance_inside route :
  Forall (in_range matrix) route →
  ∃ total, calculateTotalDistance route matrix = Ok total.
Proof.
  intros Hroute. rewrite calculateTotalDistance_cells.
  enough (∃ cells, consecutive_cells matrix route = Ok cells) as [cells ->]
    by eauto.
  induction Hroute as [|a route Ha Hroute IH]; [by exists []|].
  destruct route as [|b route]; [by exists []|].
  change (consecutive_cells matrix (a :: b :: route))
    with (element ← cell matrix a b;
          cells ← consecutive_cells matrix (b :: route);
          Ok (element :: cells)).
  destruct (cell_inside a b) as [element ->];
    [done|by apply Forall_cons in Hroute as [? _]|].
  destruct IH as [cells ->]. by eexists.
Qed.

Lemma forM_returns {S A : Type} (P : S → Prop) (body : S → A → result S)
    (xs : list A) (s : S) :
  P s →
  (∀ s x, x ∈ xs → P s → ∃ s', body s x = Ok s' ∧ P s') →
  ∃ s', forM body xs s = Ok s' ∧ P s'.
Proof.
  revert s; induction xs as [|x xs IH]; intros s Hs Hbody; [by exists s|].
  cbn [forM].
  destruct (Hbody s x) as (s1 & -> & Hs1); [left|done|].
  cbn [mbind result_bind]. apply IH; [done|].
  intros s2 y Hy. apply Hbody. by right.
Qed.

Lemma Forall_set_delete (P : Z → Prop) (x : Z) (unvisited : list Z) :
  Forall P unvisited → Forall P (set_delete x unvisited).
Proof.
  rewrite !Forall_forall. intros Hall y [_ Hy]%list_elem_of_filter. auto.
Qed.

Lemma nn_scan_inside current unvisited acc :
  in_range matrix current → Forall (in_range matrix) unvisited →
  ∃ acc', forM (nn_scan matrix current) unvisited acc = Ok acc'.
Proof.
  intros Hcurrent Hunvisited.
  destruct (forM_returns (λ _, True) (nn_scan matrix current) unvisited acc)
    as (acc' & Hacc' & _); [done| |eauto].
  intros [nearest minDistance] city Hcity _. unfold nn_scan.
  rewrite Forall_forall in Hunvisited.
  destruct (cell_inside current city) as [element ->]; [done|auto|].
  cbn [mbind result_bind]. destruct (num_lt _ _); eauto.
Qed.

Lemma nn_loop_inside fuel unvisited route current :
  (length unvisited ≤ fuel)%nat →
  in_range matrix current → Forall (in_range matrix) unvisited →
  Forall (in_range matrix) route →
  ∃ route', nn_loop fuel matrix unvisited route current = Ok route'
            ∧ Forall (in_range matrix) route'.
Proof.
  revert unvisited route current.
  induction fuel as [|fuel IH];
    intros [|city unvisited] route current Hlen Hcurrent Hunvisited Hroute;
    cbn [nn_loop]; eauto; [simpl in Hlen; lia|].
  destruct (nn_scan_inside current (city :: unvisited) (-1, Infinity))
    as [[nearest minDistance] Hscan]; [done..|].
  rewrite Hscan. cbn [mbind result_bind].
  apply nn_scan_chooses in Hscan; [|done].
  assert (in_range matrix nearest) as Hnearest
    by (rewrite Forall_forall in Hunvisited; auto).
  apply IH; [|done| |].
  - pose proof (length_filter_lt (λ y, y ≠ nearest) _ nearest Hscan).
    unfold set_delete. simpl in *. lia.
  - by apply Forall_set_delete.
  - apply Forall_app. by split; [|apply Forall_singleton].
Qed.

Lemma nearestNeighborGreedy_inside startIndex endIndex :
  in_range matrix startIndex →
  (∀ e, endIndex = Some e → in_range matrix e) →
  ∃ route, nearestNeighborGreedy matrix startIndex endIndex = Ok route
           ∧ Forall (in_range matrix) route.
Proof.
  intros Hstart Hend. unfold nearestNeighborGreedy.
  assert (Forall (in_range matrix) (indices (length matrix))) as Hall.
  { apply Forall_forall. intros i Hi. by apply elem_of_indices in Hi. }
  match goal with |- context [nn_loop (length ?u) ?m ?u ?r ?c] =>
    destruct (nn_loop_inside (length u) u r c) as (route & -> & Hroute) end;
    [done|done| |by apply Forall_singleton|].
  { destruct endIndex as [e|]; [case_bool_decide|];
      repeat apply Forall_set_delete; done. }
  cbn [mbind result_bind].
  destruct endIndex as [e|]; [case_bool_decide|]; eexists; (split; [done|]);
    apply Forall_app; (split; [done|]); apply Forall_singleton; auto.
Qed.

Lemma twoOpt_pass_inside route :
  Forall (in_range matrix) route →
  ∃ acc, twoOpt_pass matrix route = Ok acc.
Proof.
  intros Hroute.
  destruct (forM_returns (λ acc, route ≡ₚ acc.1) (twoOpt_inner matrix)
              (seq 1 (length route - 2 - 1)) (route, false))
    as (acc & Hacc & _); [done| |by exists acc].
  intros acc1 i Hi%elem_of_seq Hperm1. unfold twoOpt_inner.
  apply (forM_returns (λ acc, route ≡ₚ acc.1)); [done|].
  intros [best improved] j Hj%elem_of_seq Hperm. cbn [fst] in Hperm.
  unfold twoOpt_step.
  assert (twoOptSwap best i j ≡ₚ route) as Hswap
    by (rewrite twoOptSwap_Permutation by lia; done).
  destruct (calculateTotalDistance_inside (twoOptSwap best i j))
    as [new ->]; [by rewrite Hswap|].
  destruct (calculateTotalDistance_inside best) as [old ->];
    [by rewrite <- Hperm|].
  cbn [mbind result_bind]. case_bool_decide; eexists; (split; [done|]);
    done.
Qed.

Lemma twoOpt_loop_inside fuel route :
  Forall (in_range matrix) route →
  twoOpt_loop fuel matrix route ≠ TypeError.
Proof.
  revert route; induction fuel as [|fuel IH]; intros route Hroute; [done|].
  cbn [twoOpt_loop].
  destruct (twoOpt_pass_inside route Hroute) as [[best improved] Hpass].
  rewrite Hpass. cbn [mbind result_bind].
  destruct improved; [|done]. apply IH.
  apply twoOpt_pass_invariant in Hpass as [Hperm _]. cbn [fst] in Hperm.
  by rewrite <- Hperm.
Qed.

(** On a square matrix with a valid start and a valid or absent end, the
    heuristic solver returns, and the total of the route after 2-opt is at
    most the total of the nearest-neighbour route. *)
Lemma nearestNeighbor2Opt_inside startIndex endIndex :
  in_range matrix startIndex →
  (∀ e, endIndex = Some e → in_range matrix e) →
  ∃ route route' total total' res,
    nearestNeighborGreedy matrix startIndex endIndex = Ok route
    ∧ twoOptImprove route matrix = Ok route'
    ∧ route ≡ₚ route'
    ∧ calculateTotalDistance route matrix = Ok total
    ∧ calculateTotalDistance route' matrix = Ok total'
    ∧ total' ≤ total
    ∧ nearestNeighbor2Opt matrix startIndex endIndex = Ok res
    ∧ orderedStops res = (pretty : Z → string) <$> route'.
Proof.
  intros Hstart Hend.
  destruct (nearestNeighborGreedy_inside startIndex endIndex)
    as (route & Hroute & Hinside); [done..|].
  pose proof (twoOptImprove_fuel route matrix) as Hfuel.
  pose proof (twoOpt_loop_inside (twoOpt_fuel route matrix) route Hinside)
    as Hthrow.
  fold (twoOptImprove route matrix) in Hthrow.
  destruct (twoOptImprove route matrix) as [route'| |] eqn:Hopt; [|done..].
  destruct (calculateTotalDistance_inside route Hinside) as [total Htotal].
  destruct (twoOpt_loop_improves _ _ _ _ Hopt) as [Hperm Hle].
  destruct (Hle total Htotal) as (total' & Htotal' & Hle').
  assert (∃ cells, consecutive_cells matrix route' = Ok cells) as [cells Hc].
  { rewrite calculateTotalDistance_cells in Htotal'.
    destruct (consecutive_cells matrix route'); [eauto|done..]. }
  pose proof (calculateRouteMetrics_cells route' matrix cells Hc) as Hres.
  eexists route, route', total, total', _.
  repeat split; try done.
  - unfold nearestNeighbor2Opt. rewrite Hroute. cbn [mbind result_bind].
    rewrite Hopt. cbn [mbind result_bind]. exact Hres.
  - done.
Qed.
End Valid.

(** * Further properties of the optimiser *)

(** ** The objective and the reducer *)

Lemma consecutive_cells_cons matrix a b rest :
  consecutive_cells matrix (a :: b :: rest)
  = element ← cell matrix a b;
    cells ← consecutive_cells matrix (b :: rest);
    Ok (element :: cells).
Proof. done. Qed.

Lemma consecutive_cells_app matrix pre x post :
  consecutive_cells matrix (pre ++ x :: post)
  = before ← consecutive_cells matrix (pre ++ [x]);
    after ← consecutive_cells matrix (x :: post);
    Ok (before ++ after).
Proof.
  induction pre as [|a pre IH].
  - cbn [app]. change (consecutive_cells matrix [x]) with (Ok (A:=list DistanceMatrixElement) []).
    cbn [mbind result_bind].
    by destruct (consecutive_cells matrix (x :: post)).
  - destruct pre as [|b pre].
    + cbn [app]. rewrite !consecutive_cells_cons.
      destruct (cell matrix a x); [|done..]. cbn [mbind result_bind].
      change (consecutive_cells matrix [x])
        with (Ok (A:=list DistanceMatrixElement) []).
      cbn [mbind result_bind].
      by destruct (consecutive_cells matrix (x :: post)).
    + change ((a :: b :: pre) ++ x :: post)
        with (a :: b :: (pre ++ x :: post)).
      change ((a :: b :: pre) ++ [x]) with (a :: b :: (pre ++ [x])).
      rewrite !consecutive_cells_cons.
      destruct (cell matrix a b); [|done..]. cbn [mbind result_bind].
      change (b :: (pre ++ x :: post)) with ((b :: pre) ++ x :: post).
      rewrite IH. change (b :: (pre ++ [x])) with ((b :: pre) ++ [x]).
      destruct (consecutive_cells matrix ((b :: pre) ++ [x])); [|done..].
      cbn [mbind result_bind].
      by destruct (consecutive_cells matrix (x :: post)).
Qed.

Lemma sumZ_app (xs ys : list Z) : sumZ (xs ++ ys) = sumZ xs + sumZ ys.
Proof.
  induction xs as [|x xs IH]; [done|].
  cbn [app]. rewrite !sumZ_cons, IH. lia.
Qed.

(** X1. The reducer and the objective of the solvers read the same cells:
    [calculateRouteMetrics] returns exactly when [calculateTotalDistance]
    does, its [totalDuration] is that total rounded to minutes, and it
    throws exactly when the total throws. *)
Theorem calculateRouteMetrics_objective route matrix :
  (∀ res, calculateRouteMetrics route matrix = Ok res →
     ∃ total, calculateTotalDistance route matrix = Ok total
              ∧ totalDuration res = round_div60 total)
  ∧ (∀ total, calculateTotalDistance route matrix = Ok total →
     ∃ res, calculateRouteMetrics route matrix = Ok res
            ∧ totalDuration res = round_div60 total)
  ∧ (calculateRouteMetrics route matrix = TypeError
     ↔ calculateTotalDistance route matrix = TypeError).
Proof.
  rewrite calculateTotalDistance_cells.
  pose proof (consecutive_cells_fuel matrix route) as Hfuel.
  pose proof (calculateRouteMetrics_fuel route matrix) as Hfuel'.
  destruct (consecutive_cells matrix route) as [cells| |] eqn:Hcells;
    [|clear Hfuel|done].
  - rewrite (calculateRouteMetrics_cells _ _ _ Hcells).
    cbn [mbind result_bind]. split; [|split].
    + intros res [= <-]. eauto.
    + intros total [= <-]. eauto.
    + done.
  - cbn [mbind result_bind].
    assert (calculateRouteMetrics route matrix = TypeError) as Hthrow.
    { destruct (calculateRouteMetrics route matrix) as [res| |] eqn:Hres;
        [|done..].
      exfalso. revert Hres. unfold calculateRouteMetrics.
      rewrite (forM_ext _ (λ acc i, element ← edge matrix route i;
                                    Ok (metrics_update acc element)))
        by (intros; apply metrics_step_update).
      by rewrite forM_edges, fold_edges_cells, Hcells. }
    rewrite Hthrow. split; [done|]. split; [done|]. done.
Qed.

Lemma calculateRouteMetrics_objective_witness :
  calculateTotalDistance [0; 1; 2; 0] priced3 = Ok 211
  ∧ ∃ res, calculateRouteMetrics [0; 1; 2; 0] priced3 = Ok res
           ∧ totalDuration res = round_div60 211.
Proof.
  split; [reflexivity|].
  apply (proj1 (proj2 (calculateRouteMetrics_objective [0; 1; 2; 0] priced3))).
  reflexivity.
Defined.

(** ** The 2-opt move *)

Lemma twoOptSwap_app (pre mid post : list Z) :
  mid ≠ [] →
  twoOptSwap (pre ++ mid ++ post) (length pre) (length pre + length mid - 1)
  = pre ++ reverse mid ++ post.
Proof.
  intros Hmid.
  assert (0 < length mid)%nat by (destruct mid; [done|simpl; lia]).
  unfold twoOptSwap, slice.
  replace (length pre + length mid - 1 + 1)%nat
    with (length pre + length mid)%nat by lia.
  rewrite take_app_length.
  rewrite (take_app_add' pre _ _ (length mid)) by done.
  rewrite take_app_length, drop_app_length.
  rewrite (app_assoc pre mid post).
  rewrite (drop_app_length' (pre ++ mid) post) by (rewrite length_app; lia).
  done.
Qed.

Lemma route_segments (route : list Z) (i j : nat) :
  (i ≤ j < length route)%nat →
  ∃ pre mid post,
    route = pre ++ mid ++ post ∧ length pre = i
    ∧ length mid = (j + 1 - i)%nat ∧ mid ≠ [].
Proof.
  intros Hij.
  exists (take i route), (drop i (take (j + 1) route)), (drop (j + 1) route).
  assert (length (drop i (take (j + 1) route)) = (j + 1 - i)%nat) as Hmid
    by (rewrite length_drop, length_take; lia).
  split; [|split; [|split]].
  - rewrite <- (take_drop (j + 1) route) at 1.
    rewrite <- (take_drop i (take (j + 1) route)) at 1.
    rewrite take_take, Nat.min_l, <- app_assoc by lia. done.
  - rewrite length_take. lia.
  - done.
  - intros Hnil. rewrite Hnil in Hmid. simpl in Hmid. lia.
Qed.

(** X3. A 2-opt move on the positions [i..j] of a route reverses that
    segment and nothing else: the stops before [i] and after [j] stay in
    place, position [k] of the segment receives the stop of position
    [i + j - k], the length is kept, and the same move applied again
    restores the route. *)
Theorem twoOptSwap_reverses route i j :
  (i ≤ j < length route)%nat →
  length (twoOptSwap route i j) = length route
  ∧ (∀ k, (k < i ∨ j < k)%nat → twoOptSwap route i j !! k = route !! k)
  ∧ (∀ k, (i ≤ k ≤ j)%nat →
       twoOptSwap route i j !! k = route !! (i + j - k)%nat)
  ∧ twoOptSwap (twoOptSwap route i j) i j = route.
Proof.
  intros Hij.
  destruct (route_segments route i j Hij)
    as (pre & mid & post & -> & Hpre & Hmid & Hne).
  assert (j = length pre + length mid - 1)%nat as -> by lia.
  subst i. rewrite twoOptSwap_app by done.
  split; [|split; [|split]].
  - rewrite !length_app, length_reverse. done.
  - intros k [Hk|Hk].
    + rewrite !lookup_app_l by done. done.
    + rewrite !(lookup_app_r pre) by lia.
      rewrite !lookup_app_r by (rewrite ?length_reverse; lia).
      by rewrite length_reverse.
  - intros k Hk.
    rewrite !(lookup_app_r pre) by lia.
    rewrite !lookup_app_l by (rewrite ?length_reverse; lia).
    rewrite reverse_lookup by lia. f_equal. lia.
  - rewrite <- (length_reverse mid).
    rewrite twoOptSwap_app by (by intros ?%(f_equal reverse);
                               rewrite reverse_involutive in *).
    by rewrite reverse_involutive.
Qed.

Lemma twoOptSwap_reverses_witness :
  twoOptSwap [0; 2; 3; 4; 1; 0] 1 3 = [0; 4; 3; 2; 1; 0]
  ∧ twoOptSwap (twoOptSwap [0; 2; 3; 4; 1; 0] 1 3) 1 3 = [0; 2; 3; 4; 1; 0].
Proof.
  split; [reflexivity|].
  apply (twoOptSwap_reverses [0; 2; 3; 4; 1; 0] 1 3). simpl. lia.
Defined.

(** ** What the 2-opt loop returns *)

Lemma forM_backward {S A : Type} (P : S → Prop) (Q : A → Prop)
    (body : S → A → result S) (xs : list A) (s s' : S) :
  (∀ s x s1, x ∈ xs → body s x = Ok s1 → P s1 → P s ∧ Q x) →
  forM body xs s = Ok s' → P s' → P s ∧ ∀ x, x ∈ xs → Q x.
Proof.
  revert s; induction xs as [|x xs IH]; intros s Hstep; cbn [forM].
  - intros [= <-] Hs. split; [done|]. intros x Hx.
    by apply not_elem_of_nil in Hx.
  - destruct (body s x) as [s1| |] eqn:Hbody; cbn [mbind result_bind];
      [|done..].
    intros Hrest Hs'.
    destruct (IH s1) as [Hs1 Hall]; [|done..|].
    { intros s2 y s3 Hy. apply Hstep. by right. }
    destruct (Hstep s x s1) as [Hs Hx]; [left|done..|].
    split; [done|]. intros y [->|Hy]%elem_of_cons; auto.
Qed.

Lemma twoOpt_step_rejected matrix i j acc best :
  twoOpt_step matrix i acc j = Ok (best, false) →
  acc = (best, false)
  ∧ ∃ new old,
      calculateTotalDistance (twoOptSwap best i j) matrix = Ok new
      ∧ calculateTotalDistance best matrix = Ok old ∧ old ≤ new.
Proof.
  destruct acc as [bestRoute improved]. unfold twoOpt_step.
  destruct (calculateTotalDistance (twoOptSwap _ _ _) _) as [new| |]
    eqn:Hnew; cbn [mbind result_bind]; [|done..].
  destruct (calculateTotalDistance bestRoute _) as [old| |] eqn:Hold;
    cbn [mbind result_bind]; [|done..].
  case_bool_decide; [done|]. intros [= -> ->].
  split; [done|]. exists new, old. repeat split; [done..|lia].
Qed.

(** A pass that reports no improvement has compared every pair of
    positions and found no strictly better route. *)
Lemma twoOpt_pass_rejects matrix route best :
  twoOpt_pass matrix route = Ok (best, false) →
  best = route
  ∧ ∀ i j, (1 ≤ i)%nat → (i < j)%nat → (j + 1 < length route)%nat →
      ∃ new old,
        calculateTotalDistance (twoOptSwap route i j) matrix = Ok new
        ∧ calculateTotalDistance route matrix = Ok old ∧ old ≤ new.
Proof.
  intros Hpass.
  pose proof (twoOpt_pass_invariant _ _ _ Hpass) as (_ & _ & Hbest).
  cbn [fst snd] in Hbest. subst best. split; [done|].
  unfold twoOpt_pass in Hpass.
  apply (forM_backward
           (λ acc, acc = (route, false))
           (λ i, ∀ j, j ∈ seq (i + 1) (length route - 1 - (i + 1)) →
                 ∃ new old,
                   calculateTotalDistance (twoOptSwap route i j) matrix
                   = Ok new
                   ∧ calculateTotalDistance route matrix = Ok old
                   ∧ old ≤ new)) in Hpass; [|clear Hpass|done].
  - destruct Hpass as [_ Hall]. intros i j Hi Hij Hj.
    apply (Hall i); apply elem_of_seq; lia.
  - intros acc i acc1 _ Hinner ->. unfold twoOpt_inner in Hinner.
    apply (forM_backward
             (λ acc, acc = (route, false))
             (λ j, ∃ new old,
                   calculateTotalDistance (twoOptSwap route i j) matrix
                   = Ok new
                   ∧ calculateTotalDistance route matrix = Ok old
                   ∧ old ≤ new)) in Hinner; [|clear Hinner|done].
    + destruct Hinner as [-> Hall]. done.
    + intros acc2 j acc3 _ Hstep ->.
      by apply twoOpt_step_rejected in Hstep.
Qed.

Lemma twoOpt_loop_fixpoint matrix fuel route route' :
  twoOpt_loop fuel matrix route = Ok route' →
  twoOpt_pass matrix route' = Ok (route', false).
Proof.
  revert route; induction fuel as [|fuel IH]; intros route; [done|].
  cbn [twoOpt_loop].
  destruct (twoOpt_pass matrix route) as [[best improved]| |] eqn:Hpass;
    cbn [mbind result_bind]; [|done..].
  destruct improved; [apply IH|].
  intros [= <-].
  pose proof (twoOpt_pass_rejects _ _ _ Hpass) as [-> _]. done.
Qed.

(** X4. The route that 2-opt returns is a local optimum of the move: no
    reversal of a segment between the first and the last stop gives a
    strictly smaller total. *)
Theorem twoOptImprove_local_optimum route matrix route' i j :
  twoOptImprove route matrix = Ok route' →
  (1 ≤ i)%nat → (i < j)%nat → (j + 1 < length route')%nat →
  ∃ new old,
    calculateTotalDistance (twoOptSwap route' i j) matrix = Ok new
    ∧ calculateTotalDistance route' matrix = Ok old ∧ old ≤ new.
Proof.
  intros Hopt%twoOpt_loop_fixpoint.
  apply twoOpt_pass_rejects in Hopt as [_ Hall]. apply Hall.
Qed.

Lemma twoOptImprove_local_optimum_witness :
  twoOptImprove [0; 2; 3; 4; 1; 0] directed5 = Ok [0; 2; 3; 1; 4; 0]
  ∧ ∃ new old,
      calculateTotalDistance (twoOptSwap [0; 2; 3; 1; 4; 0] 2 4) directed5
      = Ok new
      ∧ calculateTotalDistance [0; 2; 3; 1; 4; 0] directed5 = Ok old
      ∧ old ≤ new.
Proof.
  split; [reflexivity|].
  apply (twoOptImprove_local_optimum [0; 2; 3; 4; 1; 0] directed5
           [0; 2; 3; 1; 4; 0] 2 4); [reflexivity|lia|lia|simpl; lia].
Defined.

Lemma twoOpt_fuel_positive route matrix :
  ∃ fuel, twoOpt_fuel route matrix = S fuel.
Proof. unfold twoOpt_fuel. destruct (calculateTotalDistance _ _); eauto. Qed.

(** X5. 2-opt is idempotent: run on a route it returned, it returns that
    route again. *)
Theorem twoOptImprove_idempotent route matrix route' :
  twoOptImprove route matrix = Ok route' →
  twoOptImprove route' matrix = Ok route'.
Proof.
  intros Hopt%twoOpt_loop_fixpoint. unfold twoOptImprove.
  destruct (twoOpt_fuel_positive route' matrix) as [fuel ->].
  cbn [twoOpt_loop]. by rewrite Hopt.
Qed.

Lemma twoOptImprove_idempotent_witness :
  twoOptImprove [0; 2; 3; 4; 1; 0] directed5 = Ok [0; 2; 3; 1; 4; 0]
  ∧ twoOptImprove [0; 2; 3; 1; 4; 0] directed5 = Ok [0; 2; 3; 1; 4; 0].
Proof.
  split; [reflexivity|].
  apply (twoOptImprove_idempotent [0; 2; 3; 4; 1; 0] directed5).
  reflexivity.
Defined.

(** X6. 2-opt never moves the first or the last stop and keeps the number
    of stops; a route of fewer than four stops is returned as it is,
    without a read of the matrix. *)
Theorem twoOptImprove_endpoints route matrix :
  ((length route < 4)%nat → twoOptImprove route matrix = Ok route)
  ∧ ∀ route', twoOptImprove route matrix = Ok route' →
      head route' = head route ∧ last route' = last route
      ∧ length route' = length route.
Proof.
  split.
  - intros Hshort. unfold twoOptImprove.
    destruct (twoOpt_fuel_positive route matrix) as [fuel ->].
    cbn [twoOpt_loop]. unfold twoOpt_pass.
    replace (length route - 2 - 1)%nat with 0%nat by lia. done.
  - intros route' Hopt.
    pose proof (twoOpt_loop_ends _ _ _ _ Hopt) as [Hhead Hlast].
    apply twoOpt_loop_improves in Hopt as [Hperm _].
    repeat split; [done..|]. symmetry. by apply Permutation_length.
Qed.

Lemma twoOptImprove_endpoints_witness :
  twoOptImprove [0; 7; 0] [] = Ok [0; 7; 0]
  ∧ head [0; 2; 3; 1; 4; 0] = head [0; 2; 3; 4; 1; 0]
  ∧ last [0; 2; 3; 1; 4; 0] = last [0; 2; 3; 4; 1; 0]
  ∧ length [0; 2; 3; 1; 4; 0] = length [0; 2; 3; 4; 1; 0].
Proof.
  destruct (twoOptImprove_endpoints [0; 7; 0] []) as [Hshort _].
  destruct (twoOptImprove_endpoints [0; 2; 3; 4; 1; 0] directed5)
    as [_ Hends].
  split; [apply Hshort; simpl; lia|]. apply Hends. reflexivity.
Defined.

(** ** The nearest-neighbour construction visits every stop once *)

Lemma set_delete_Permutation (x : Z) (unvisited : list Z) :
  NoDup unvisited → x ∈ unvisited →
  unvisited ≡ₚ x :: set_delete x unvisited.
Proof.
  induction 1 as [|y unvisited Hy Hnodup IH]; intros Hx.
  - by apply not_elem_of_nil in Hx.
  - unfold set_delete in *. rewrite filter_cons.
    destruct (decide (y = x)) as [->|Hne].
    + rewrite decide_False by (by intros []).
      fold (set_delete x unvisited). by rewrite set_delete_not_elem.
    + rewrite decide_True by done.
      apply elem_of_cons in Hx as [->|Hx]; [done|].
      rewrite (IH Hx) at 1. apply perm_swap.
Qed.

Lemma nn_loop_visits matrix fuel unvisited route current route' :
  NoDup unvisited →
  nn_loop fuel matrix unvisited route current = Ok route' →
  ∃ visited, route' = route ++ visited ∧ visited ≡ₚ unvisited.
Proof.
  revert unvisited route current.
  induction fuel as [|fuel IH]; intros [|city unvisited] route current Hnodup;
    cbn [nn_loop]; try done;
    try (intros [= <-]; exists []; by rewrite app_nil_r).
  destruct (forM _ _ _) as [[nearest minDistance]| |] eqn:Hscan; [|done..].
  cbn [mbind result_bind].
  intros (visited & -> & Hperm)%IH; [|by apply NoDup_filter].
  apply nn_scan_chooses in Hscan; [|done].
  exists (nearest :: visited). split; [by rewrite <- app_assoc|].
  rewrite Hperm. symmetry. by apply set_delete_Permutation.
Qed.

Lemma nearestNeighborGreedy_stops matrix startIndex endIndex route :
  in_range matrix startIndex →
  nearestNeighborGreedy matrix startIndex endIndex = Ok route →
  ((endIndex = None ∨ endIndex = Some startIndex) →
     ∃ visited, route = startIndex :: visited ++ [startIndex]
       ∧ startIndex :: visited ≡ₚ indices (length matrix))
  ∧ (∀ e, endIndex = Some e → e ≠ startIndex → in_range matrix e →
     ∃ visited, route = startIndex :: visited ++ [e]
       ∧ route ≡ₚ indices (length matrix)
       ∧ NoDup route ∧ length route = length matrix).
Proof.
  intros Hstart Hroute.
  pose proof (NoDup_indices (length matrix)) as Hnodup.
  assert (indices (length matrix)
          ≡ₚ startIndex :: set_delete startIndex (indices (length matrix)))
    as Hall by (apply set_delete_Permutation; [done|by apply elem_of_indices]).
  unfold nearestNeighborGreedy in Hroute. split.
  - intros Hclosed.
    assert (nn_loop (length (set_delete startIndex (indices (length matrix))))
              matrix (set_delete startIndex (indices (length matrix)))
              [startIndex] startIndex
            ≫= (λ route, Ok (route ++ [startIndex])) = Ok route) as Hloop.
    { destruct Hclosed as [->| ->]; [done|].
      by rewrite not_distinct_from_itself in Hroute. }
    clear Hroute.
    destruct (nn_loop _ _ _ _ _) as [route1| |] eqn:Hloop1; [|done..].
    cbn [mbind result_bind] in Hloop. injection Hloop as <-.
    apply nn_loop_visits in Hloop1 as (visited & -> & Hperm);
      [|by apply NoDup_filter].
    exists visited. split; [done|]. by rewrite Hall, Hperm.
  - intros e -> Hne He.
    rewrite bool_decide_eq_true_2 in Hroute by done.
    destruct (nn_loop _ _ _ _ _) as [route1| |] eqn:Hloop1; [|done..].
    cbn [mbind result_bind] in Hroute. injection Hroute as <-.
    apply nn_loop_visits in Hloop1 as (visited & -> & Hperm);
      [|by repeat apply NoDup_filter].
    assert (([startIndex] ++ visited) ++ [e] ≡ₚ indices (length matrix))
      as Hroute.
    { assert (set_delete startIndex (indices (length matrix))
              ≡ₚ e :: set_delete e (set_delete startIndex
                                      (indices (length matrix)))) as Hrest.
      { apply set_delete_Permutation; [by apply NoDup_filter|].
        apply list_elem_of_filter. split; [done|].
        by apply elem_of_indices. }
      cbn [app]. symmetry. etrans; [exact Hall|]. apply perm_skip.
      etrans; [exact Hrest|]. etrans; [|apply Permutation_cons_append].
      apply perm_skip. by symmetry. }
    exists visited. split; [done|]. split; [done|].
    split; [by rewrite Hroute|].
    by rewrite Hroute, length_indices.
Qed.

(** X7. With a start that is a stop of the matrix, a route that the
    nearest-neighbour construction returns visits every stop exactly once:
    a closed tour is the start, the other stops in some order, and the
    start again; a tour to a distinct fixed end that is a stop holds all
    [n] stops once, the start first and the end last. *)
Theorem nearestNeighborGreedy_visits_once matrix startIndex endIndex route :
  in_range matrix startIndex →
  nearestNeighborGreedy matrix startIndex endIndex = Ok route →
  ((endIndex = None ∨ endIndex = Some startIndex) →
     ∃ visited, route = startIndex :: visited ++ [startIndex]
       ∧ startIndex :: visited ≡ₚ indices (length matrix))
  ∧ (∀ e, endIndex = Some e → e ≠ startIndex → in_range matrix e →
     ∃ visited, route = startIndex :: visited ++ [e]
       ∧ route ≡ₚ indices (length matrix)
       ∧ NoDup route ∧ length route = length matrix).
Proof. apply nearestNeighborGreedy_stops. Qed.

Lemma nearestNeighborGreedy_visits_once_witness :
  (∃ visited, [0; 2; 3; 4; 1; 0] = 0 :: visited ++ [0]
     ∧ 0 :: visited ≡ₚ indices (length directed5))
  ∧ (∃ visited, [0; 2; 1; 4; 3] = 0 :: visited ++ [3]
     ∧ [0; 2; 1; 4; 3] ≡ₚ indices (length directed5)
     ∧ NoDup [0; 2; 1; 4; 3]
     ∧ length [0; 2; 1; 4; 3] = length directed5).
Proof.
  split.
  - apply (nearestNeighborGreedy_visits_once directed5 0 None);
      [unfold in_range; simpl; lia|reflexivity|by left].
  - apply (nearestNeighborGreedy_visits_once directed5 0 (Some 3)
             [0; 2; 1; 4; 3]);
      [unfold in_range; simpl; lia|reflexivity|reflexivity|lia|].
    unfold in_range; simpl; lia.
Defined.

(** ** The nearest-neighbour construction is greedy *)

Lemma StronglySorted_seq (j n : nat) : StronglySorted lt (seq j n).
Proof.
  revert j; induction n as [|n IH]; intros j; [constructor|].
  cbn [seq]. constructor; [apply IH|].
  apply Forall_forall. intros k Hk%elem_of_seq. lia.
Qed.

Lemma StronglySorted_indices (n : nat) : StronglySorted Z.lt (indices n).
Proof.
  unfold indices. apply (StronglySorted_fmap _ lt); [lia|].
  apply StronglySorted_seq.
Qed.

Lemma StronglySorted_set_delete (x : Z) (unvisited : list Z) :
  StronglySorted Z.lt unvisited →
  StronglySorted Z.lt (set_delete x unvisited).
Proof.
  induction 1 as [|y unvisited Hsorted IH Hy]; [constructor|].
  unfold set_delete in *. rewrite filter_cons.
  case_decide; [|done]. constructor; [done|].
  by apply Forall_set_delete.
Qed.

Lemma StronglySorted_lt_NoDup (xs : list Z) :
  StronglySorted Z.lt xs → NoDup xs.
Proof.
  induction 1 as [|x xs Hsorted IH Hx]; constructor; [|done].
  rewrite Forall_forall in Hx. intros Hin%Hx. lia.
Qed.

Lemma scan_invariant_step matrix current seen acc city acc' :
  (∀ x, x ∈ seen → x < city) →
  scan_invariant matrix current seen acc →
  nn_scan matrix current acc city = Ok acc' →
  scan_invariant matrix current (seen ++ [city]) acc'.
Proof.
  destruct acc as [nearest minDistance]. intros Hlt Hinv.
  unfold nn_scan.
  destruct (cell matrix current city) as [element| |] eqn:Hcell; [|done..].
  cbn [mbind result_bind]. unfold scan_invariant in *. cbn [fst snd] in *.
  destruct minDistance as [best|]; cbn [num_lt].
  - destruct Hinv as (element0 & Hcell0 & -> & Hin & Hall).
    case_bool_decide as Hcmp; intros [= <-]; cbn [fst snd].
    + exists element. split; [done|]. split; [done|].
      split; [apply elem_of_app; right; left|].
      intros c [Hc|Hc%list_elem_of_singleton]%elem_of_app.
      * destruct (Hall c Hc) as (other & Hother & Hle & _).
        exists other. split; [done|]. lia.
      * subst c. exists element. split; [done|]. lia.
    + exists element0. split; [done|]. split; [done|].
      split; [apply elem_of_app; by left|].
      intros c [Hc|Hc%list_elem_of_singleton]%elem_of_app; [by apply Hall|].
      subst c. exists element. split; [done|]. split; [lia|].
      intros Hbefore. specialize (Hlt nearest Hin). lia.
  - subst seen. intros [= <-]; cbn [fst snd app].
    exists element. split; [done|]. split; [done|]. split; [left|].
    intros c Hc%list_elem_of_singleton. subst c.
    exists element. split; [done|]. lia.
Qed.

Lemma scan_invariant_forM matrix current todo seen acc acc' :
  StronglySorted Z.lt (seen ++ todo) →
  scan_invariant matrix current seen acc →
  forM (nn_scan matrix current) todo acc = Ok acc' →
  scan_invariant matrix current (seen ++ todo) acc'.
Proof.
  revert seen acc; induction todo as [|city todo IH]; intros seen acc Hsorted.
  - rewrite app_nil_r. by intros Hinv [= <-].
  - intros Hinv. cbn [forM].
    destruct (nn_scan matrix current acc city) as [acc1| |] eqn:Hstep;
      cbn [mbind result_bind]; [|done..].
    replace (seen ++ city :: todo) with ((seen ++ [city]) ++ todo) in *
      by by rewrite <- app_assoc.
    apply IH; [done|].
    eapply scan_invariant_step; [|done..].
    intros x Hx. apply StronglySorted_app_1_l in Hsorted.
    eapply (StronglySorted_app_1_elem_of Z.lt seen [city]); [done..|left].
Qed.

(** The scan of a sorted set returns a nearest city, the lowest index
    among the nearest. *)
Lemma nn_scan_nearest matrix current unvisited nearest minDistance :
  unvisited ≠ [] → StronglySorted Z.lt unvisited →
  forM (nn_scan matrix current) unvisited (-1, Infinity)
  = Ok (nearest, minDistance) →
  ∃ element, cell matrix current nearest = Ok element
    ∧ ∀ city, city ∈ unvisited → city ≠ nearest →
        ∃ other, cell matrix current city = Ok other
          ∧ (duration element < duration other
             ∨ duration element = duration other ∧ nearest < city).
Proof.
  intros Hne Hsorted Hscan.
  apply (scan_invariant_forM matrix current unvisited []) in Hscan;
    [|done..].
  unfold scan_invariant in Hscan. cbn [fst snd app] in Hscan.
  destruct minDistance as [d|]; [|done].
  destruct Hscan as (element & Hcell & -> & _ & Hall).
  exists element. split; [done|]. intros city Hcity Hneq.
  destruct (Hall city Hcity) as (other & Hother & Hle & Hlt).
  exists other. split; [done|].
  destruct (decide (duration element < duration other)); [by left|].
  right. split; [lia|].
  destruct (decide (city < nearest)) as [Hbefore|]; [|lia].
  specialize (Hlt Hbefore). lia.
Qed.

Lemma nn_loop_nearest_first matrix fuel unvisited route current route' :
  StronglySorted Z.lt unvisited →
  nn_loop fuel matrix unvisited route current = Ok route' →
  ∃ visited, route' = route ++ visited
    ∧ nearest_first matrix current visited.
Proof.
  revert unvisited route current.
  induction fuel as [|fuel IH]; intros [|city unvisited] route current Hsorted;
    cbn [nn_loop]; try done;
    try (intros [= <-]; exists []; by rewrite app_nil_r).
  destruct (forM _ _ _) as [[nearest minDistance]| |] eqn:Hscan; [|done..].
  cbn [mbind result_bind]. intros Hloop.
  pose proof (StronglySorted_set_delete nearest _ Hsorted) as Hsorted'.
  pose proof (nn_loop_visits _ _ _ _ _ _
                (StronglySorted_lt_NoDup _ Hsorted') Hloop)
    as (visited0 & Hroute0 & Hperm).
  apply IH in Hloop as (visited & -> & Hfirst); [|done].
  apply app_inv_head in Hroute0 as <-.
  exists (nearest :: visited). split; [by rewrite <- app_assoc|].
  cbn [nearest_first]. split; [|done].
  apply nn_scan_nearest in Hscan as (element & Hcell & Hall); [|done..].
  exists element. split; [done|]. intros c Hc.
  rewrite Hperm in Hc. apply list_elem_of_filter in Hc as [Hneq Hc].
  by apply Hall.
Qed.

(** X8. Every leg of a route that the nearest-neighbour construction
    returns goes to a nearest stop not yet visited (the fixed end
    excepted, which is kept for last): no later stop of the route is closer
    to the stop the leg leaves, and among equally close stops the leg takes
    the one of lowest index. *)
Theorem nearestNeighborGreedy_nearest_first matrix startIndex endIndex route :
  nearestNeighborGreedy matrix startIndex endIndex = Ok route →
  ∃ visited closing,
    route = startIndex :: visited ++ [closing]
    ∧ nearest_first matrix startIndex visited
    ∧ closing = match endIndex with
                | Some e => if bool_decide (e ≠ startIndex) then e
                            else startIndex
                | None => startIndex
                end.
Proof.
  unfold nearestNeighborGreedy.
  destruct (nn_loop _ _ _ _ _) as [route1| |] eqn:Hloop; [|done..].
  cbn [mbind result_bind]. intros Hroute.
  apply nn_loop_nearest_first in Hloop as (visited & -> & Hfirst).
  - exists visited.
    destruct endIndex as [e|]; [case_bool_decide|];
      injection Hroute as <-; eexists; done.
  - destruct endIndex as [e|]; [case_bool_decide|];
      repeat apply StronglySorted_set_delete; apply StronglySorted_indices.
Qed.

Lemma nearestNeighborGreedy_nearest_first_witness :
  ∃ visited closing,
    [0; 2; 1; 4; 3] = 0 :: visited ++ [closing]
    ∧ nearest_first directed5 0 visited ∧ closing = 3.
Proof.
  apply (nearestNeighborGreedy_nearest_first directed5 0 (Some 3)).
  reflexivity.
Defined.

(** ** The exhaustive search returns a shortest tour *)

Lemma num_le_refl (a : num) : num_le a a.
Proof. destruct a; simpl; lia. Qed.

Lemma num_le_trans (a b c : num) : num_le a b → num_le b c → num_le a c.
Proof. destruct a, b, c; simpl; lia. Qed.

Lemma calculateTotalDistance_snoc matrix (route : list Z) (z c : Z) :
  calculateTotalDistance ((route ++ [z]) ++ [c]) matrix
  = d ← calculateTotalDistance (route ++ [z]) matrix;
    element ← cell matrix z c;
    Ok (d + duration element).
Proof.
  rewrite <- (app_assoc route [z] [c]). cbn [app].
  rewrite !calculateTotalDistance_cells, consecutive_cells_app.
  destruct (consecutive_cells matrix (route ++ [z])) as [before| |];
    [|done..].
  cbn [mbind result_bind]. rewrite consecutive_cells_cons.
  destruct (cell matrix z c) as [element| |]; [|done..].
  cbn [mbind result_bind consecutive_cells].
  rewrite fmap_app, sumZ_app.
  change (sumZ (duration <$> [element])) with (duration element + 0).
  f_equal. lia.
Qed.

(** A leaf of the enumeration evaluates the candidate route of its order
    and keeps it when it is strictly shorter than the best so far. *)
Lemma permute_leaf_tour matrix startIndex endIndex current bestRoute
    bestDistance :
  permute_leaf matrix startIndex endIndex current (bestRoute, bestDistance)
  = d ← calculateTotalDistance (tour startIndex endIndex current) matrix;
    if num_lt (Fin d) bestDistance
    then Ok (tour startIndex endIndex current, Fin d)
    else Ok (bestRoute, bestDistance).
Proof.
  unfold permute_leaf, tour, closing_stop.
  destruct (cons_snoc startIndex current) as (route & z & Hroute).
  change (startIndex :: current ++ [?c]) with ((startIndex :: current) ++ [c]).
  rewrite Hroute.
  destruct endIndex as [e|]; [case_bool_decide|];
    rewrite calculateTotalDistance_snoc;
    (destruct (calculateTotalDistance (route ++ [z]) matrix) as [d| |];
     [|done..]);
    cbn [mbind result_bind];
    rewrite ?at_index_before_last, ?at_index_last;
    cbn [mbind result_bind];
    (destruct (cell matrix z _) as [element| |]; [|done..]);
    done.
Qed.

Lemma permute_leaf_search matrix startIndex endIndex current best best' :
  permute_leaf matrix startIndex endIndex current best = Ok best' →
  search_step matrix startIndex endIndex [] current best best'
  ∧ search_covers matrix startIndex endIndex [] current best'.
Proof.
  destruct best as [bestRoute bestDistance]. rewrite permute_leaf_tour.
  destruct (calculateTotalDistance _ _) as [d| |] eqn:Htotal; [|done..].
  cbn [mbind result_bind].
  assert (∀ best' : list Z * num,
            num_le best'.2 (Fin d) →
            search_covers matrix startIndex endIndex [] current best')
    as Hcovers.
  { intros best1 Hle order ->%Permutation_nil_r.
    rewrite app_nil_r. eauto. }
  destruct (num_lt (Fin d) bestDistance) eqn:Hlt; intros [= <-].
  - split; [|apply Hcovers; simpl; lia]. split.
    + destruct bestDistance as [b|]; simpl in *; [|done].
      apply bool_decide_eq_true in Hlt. lia.
    + right. exists [], d. by rewrite app_nil_r.
  - split; [split; [apply num_le_refl|by left]|].
    apply Hcovers. destruct bestDistance as [b|]; simpl in *; [|done].
    apply bool_decide_eq_false in Hlt. lia.
Qed.

Lemma forM_accumulate {S A : Type} (R : S → S → Prop) (Q : A → S → Prop)
    (body : S → A → result S) (xs : list A) (s s' : S) :
  (∀ s, R s s) → (∀ s1 s2 s3, R s1 s2 → R s2 s3 → R s1 s3) →
  (∀ x s1 s2, Q x s1 → R s1 s2 → Q x s2) →
  (∀ s1 x s2, x ∈ xs → body s1 x = Ok s2 → R s1 s2 ∧ Q x s2) →
  forM body xs s = Ok s' → R s s' ∧ ∀ x, x ∈ xs → Q x s'.
Proof.
  intros Hrefl Htrans Hstable. revert s.
  induction xs as [|x xs IH]; intros s Hstep; cbn [forM].
  - intros [= <-]. split; [done|]. intros x Hx.
    by apply not_elem_of_nil in Hx.
  - destruct (body s x) as [s1| |] eqn:Hbody; cbn [mbind result_bind];
      [|done..].
    intros Hrest.
    destruct (Hstep s x s1) as [HR HQ]; [left|done|].
    destruct (IH s1) as [HR' HQ']; [|done|].
    { intros s2 y s3 Hy. apply Hstep. by right. }
    split; [by eapply Htrans|].
    intros y [->|Hy]%elem_of_cons; [by eapply Hstable|by apply HQ'].
Qed.

Lemma without_index_delete (arr : list Z) (i : nat) :
  without_index arr i = delete i arr.
Proof.
  unfold without_index. by rewrite Nat.add_1_r, delete_take_drop.
Qed.

Lemma search_step_trans matrix startIndex endIndex arr current b1 b2 b3 :
  search_step matrix startIndex endIndex arr current b1 b2 →
  search_step matrix startIndex endIndex arr current b2 b3 →
  search_step matrix startIndex endIndex arr current b1 b3.
Proof.
  intros [Hle1 Hshape1] [Hle2 Hshape2]. split; [by eapply num_le_trans|].
  destruct Hshape2 as [->|Hshape2]; [done|by right].
Qed.

Lemma permute_search matrix startIndex endIndex fuel arr current best best' :
  permute fuel matrix startIndex endIndex arr current best = Ok best' →
  search_step matrix startIndex endIndex arr current best best'
  ∧ search_covers matrix startIndex endIndex arr current best'.
Proof.
  revert arr current best best'.
  induction fuel as [|fuel IH]; intros [|x arr] current best best';
    cbn [permute]; try apply permute_leaf_search; [done|].
  intros Hloop.
  apply (forM_accumulate
           (search_step matrix startIndex endIndex (x :: arr) current)
           (λ i best, ∀ y, (x :: arr) !! i = Some y →
              search_covers matrix startIndex endIndex
                (without_index (x :: arr) i) (current ++ [y]) best))
    in Hloop.
  - destruct Hloop as [Hstep Hcovers]. split; [done|].
    intros order Horder.
    destruct order as [|y order];
      [by apply Permutation_nil_cons in Horder|].
    assert (y ∈ x :: arr) as [i Hi]%list_elem_of_lookup
      by (rewrite <- Horder; left).
    assert (order ≡ₚ without_index (x :: arr) i) as Hrest.
    { rewrite without_index_delete.
      apply (Permutation_cons_inv (a:=y)).
      by rewrite Horder, <- delete_Permutation. }
    destruct (Hcovers i) with (y:=y) (order:=order) as (d & Hd & Hle);
      [apply elem_of_seq; apply lookup_lt_Some in Hi; lia|done..|].
    exists d. by rewrite <- app_assoc in Hd.
  - intros b. split; [apply num_le_refl|by left].
  - intros ???. apply search_step_trans.
  - intros i b1 b2 Hcovers [Hle _] y Hy order Horder.
    destruct (Hcovers y Hy order Horder) as (d & Hd & Hle').
    exists d. split; [done|]. by eapply num_le_trans.
  - intros b1 i b2 Hi Hbody.
    destruct (at_index (x :: arr) i) as [y| |] eqn:Hy; [|done..].
    cbn [mbind result_bind] in Hbody.
    apply IH in Hbody as [[Hle Hshape] Hcovers].
    unfold at_index in Hy.
    destruct ((x :: arr) !! i) as [y'|] eqn:Hlookup; [|done].
    injection Hy as ->.
    split; [|by intros ? [= <-]].
    split; [done|]. destruct Hshape as [->|(order & d & Horder & -> & Hd)];
      [by left|right].
    exists (y :: order), d. rewrite <- app_assoc in *. cbn [app] in *.
    split; [|done].
    rewrite (delete_Permutation (x :: arr) i y) by done.
    apply perm_skip. by rewrite Horder, without_index_delete.
Qed.

Lemma bruteForceOptimal_exact matrix startIndex endIndex res :
  bruteForceOptimal matrix startIndex endIndex = Ok res →
  ∃ order d,
    order ≡ₚ filter (λ i, i ≠ startIndex) (indices (length matrix))
    ∧ orderedStops res
      = (pretty : Z → string) <$> tour startIndex endIndex order
    ∧ calculateTotalDistance (tour startIndex endIndex order) matrix = Ok d
    ∧ totalDuration res = round_div60 d
    ∧ ∀ order',
        order' ≡ₚ filter (λ i, i ≠ startIndex) (indices (length matrix)) →
        ∃ d', calculateTotalDistance (tour startIndex endIndex order') matrix
              = Ok d'
              ∧ d ≤ d'.
Proof.
  unfold bruteForceOptimal.
  set (cities := filter (λ i, i ≠ startIndex) (indices (length matrix))).
  destruct (permute _ _ _ _ _ _ _) as [[bestRoute bestDistance]| |]
    eqn:Hsearch; [|done..].
  cbn [mbind result_bind]. intros Hres.
  apply permute_search in Hsearch as [[_ Hshape] Hcovers].
  destruct (Hcovers cities) as (d0 & _ & Hfinite); [done|].
  destruct Hshape as [[= -> ->]|(order & d & Horder & [= -> ->] & Hd)];
    [done|].
  cbn [app] in *. exists order, d. split; [done|].
  assert (∃ cells, consecutive_cells matrix (tour startIndex endIndex order)
                   = Ok cells ∧ d = sumZ (duration <$> cells))
    as (cells & Hcells & ->).
  { rewrite calculateTotalDistance_cells in Hd.
    destruct (consecutive_cells matrix _) as [cells| |]; [|done..].
    injection Hd as <-. eauto. }
  rewrite (calculateRouteMetrics_cells _ _ _ Hcells) in Hres.
  injection Hres as <-. cbn [orderedStops totalDuration].
  repeat split; [done|].
  intros order' Horder'.
  destruct (Hcovers order' Horder') as (d' & Hd' & Hle).
  exists d'. split; [done|]. exact Hle.
Qed.

(** X10. The exhaustive search is exact.  The route it returns is the
    candidate of one order of the stops other than the start (start, the
    order, closing stop), [totalDuration] is its total rounded to minutes,
    and no order of those stops has a candidate of smaller total.  With a
    distinct fixed end the orders range over all stops but the start, the
    end among them, and the end is then appended as the closing stop. *)
Theorem bruteForceOptimal_optimal matrix startIndex endIndex res :
  bruteForceOptimal matrix startIndex endIndex = Ok res →
  ∃ order d,
    order ≡ₚ filter (λ i, i ≠ startIndex) (indices (length matrix))
    ∧ orderedStops res
      = (pretty : Z → string) <$> tour startIndex endIndex order
    ∧ calculateTotalDistance (tour startIndex endIndex order) matrix = Ok d
    ∧ totalDuration res = round_div60 d
    ∧ ∀ order',
        order' ≡ₚ filter (λ i, i ≠ startIndex) (indices (length matrix)) →
        ∃ d', calculateTotalDistance (tour startIndex endIndex order') matrix
              = Ok d'
              ∧ d ≤ d'.
Proof. apply bruteForceOptimal_exact. Qed.

Lemma bruteForceOptimal_optimal_witness :
  ∃ order d,
    order ≡ₚ filter (λ i, i ≠ 0) (indices (length directed5))
    ∧ ["0"; "1"; "2"; "3"; "4"; "0"]
      = (pretty : Z → string) <$> tour 0 None order
    ∧ calculateTotalDistance (tour 0 None order) directed5 = Ok d
    ∧ 0 = round_div60 d
    ∧ ∀ order',
        order' ≡ₚ filter (λ i, i ≠ 0) (indices (length directed5)) →
        ∃ d', calculateTotalDistance (tour 0 None order') directed5 = Ok d'
              ∧ d ≤ d'.
Proof.
  apply (bruteForceOptimal_optimal directed5 0 None
           {| orderedStops := ["0"; "1"; "2"; "3"; "4"; "0"];
              totalDuration := 0;
              totalDistance := 200;
              totalCost := {| cost_min := 0; cost_max := 0 |} |}).
  reflexivity.
Defined.

(** ** The solvers on a square matrix with valid indices *)

Lemma tour_inside matrix startIndex endIndex order :
  in_range matrix startIndex →
  (∀ e, endIndex = Some e → in_range matrix e) →
  Forall (in_range matrix) order →
  Forall (in_range matrix) (tour startIndex endIndex order).
Proof.
  intros Hstart Hend Horder. unfold tour, closing_stop.
  apply Forall_cons. split; [done|]. apply Forall_app. split; [done|].
  apply Forall_singleton.
  destruct endIndex as [e|]; [case_bool_decide|]; auto.
Qed.

Lemma permute_inside matrix startIndex endIndex fuel arr current best :
  square matrix → in_range matrix startIndex →
  (∀ e, endIndex = Some e → in_range matrix e) →
  Forall (in_range matrix) current → Forall (in_range matrix) arr →
  (length arr ≤ fuel)%nat →
  ∃ best', permute fuel matrix startIndex endIndex arr current best
           = Ok best'.
Proof.
  intros Hsquare Hstart Hend. revert arr current best.
  induction fuel as [|fuel IH]; intros [|x arr] current best Hcurrent Harr Hlen;
    cbn [permute]; try (simpl in Hlen; lia).
  1,2: destruct best as [bestRoute bestDistance]; rewrite permute_leaf_tour;
    destruct (calculateTotalDistance_inside matrix Hsquare
                (tour startIndex endIndex current)) as [d ->];
    [by apply tour_inside|];
    cbn [mbind result_bind]; destruct (num_lt _ _); eauto.
  destruct (forM_returns (λ _, True)
              (λ best i,
                 y ← at_index (x :: arr) i;
                 permute fuel matrix startIndex endIndex
                   (without_index (x :: arr) i) (current ++ [y]) best)
              (seq 0 (length (x :: arr))) best) as (best' & Hbest' & _);
    [done| |eauto].
  intros best1 i Hi%elem_of_seq _.
  destruct ((x :: arr) !! i) as [y|] eqn:Hy;
    [|apply lookup_ge_None in Hy; lia].
  unfold at_index. rewrite Hy. cbn [mbind result_bind].
  destruct (IH (without_index (x :: arr) i) (current ++ [y]) best1)
    as [best2 ->]; [| | |eauto].
  - apply Forall_app. split; [done|]. apply Forall_singleton.
    rewrite Forall_forall in Harr. apply Harr.
    by apply list_elem_of_lookup_2 in Hy.
  - rewrite without_index_delete. rewrite Forall_forall in *.
    intros z Hz. apply Harr.
    eapply elem_of_sublist; [done|apply sublist_delete].
  - rewrite length_without_index by lia. simpl in *. lia.
Qed.

Lemma bruteForceOptimal_inside matrix startIndex endIndex :
  square matrix → in_range matrix startIndex →
  (∀ e, endIndex = Some e → in_range matrix e) →
  ∃ res, bruteForceOptimal matrix startIndex endIndex = Ok res.
Proof.
  intros Hsquare Hstart Hend. unfold bruteForceOptimal.
  set (cities := filter (λ i, i ≠ startIndex) (indices (length matrix))).
  destruct (permute_inside matrix startIndex endIndex (length cities) cities
              [] ([], Infinity)) as [[bestRoute bestDistance] Hsearch];
    [done..| | |].
  { apply Forall_forall. intros i [_ Hi%elem_of_indices]%list_elem_of_filter.
    done. }
  { done. }
  rewrite Hsearch. cbn [mbind result_bind].
  apply permute_search in Hsearch as [[_ Hshape] _].
  destruct Hshape as [[= -> ->]|(order & d & _ & [= -> ->] & Hd)].
  - by eexists.
  - cbn [app] in *. rewrite calculateTotalDistance_cells in Hd.
    destruct (consecutive_cells matrix _) as [cells| |] eqn:Hcells;
      [|done..].
    rewrite (calculateRouteMetrics_cells _ _ _ Hcells). by eexists.
Qed.

Lemma optimizeRoute_inside matrix startIndex endIndex :
  square matrix → in_range matrix startIndex →
  (∀ e, endIndex = Some e → in_range matrix e) →
  (length matrix ≤ 7 ∨ 11 ≤ length matrix)%nat →
  ∃ res, optimizeRoute matrix startIndex endIndex = Ok res.
Proof.
  intros Hsquare Hstart Hend Hsize. unfold optimizeRoute.
  repeat case_bool_decide; [by apply bruteForceOptimal_inside|lia|].
  destruct (nearestNeighbor2Opt_inside matrix Hsquare startIndex endIndex)
    as (_ & _ & _ & _ & res & _ & _ & _ & _ & _ & _ & Hres & _); [done..|].
  by exists res.
Qed.

(** X9. On a square matrix, with a start that is a stop and an end that is
    absent or a stop, [optimizeRoute] returns a result whenever it selects
    the exhaustive search or the heuristic, that is for up to 7 stops and
    for 11 stops or more. *)
Theorem optimizeRoute_returns matrix startIndex endIndex :
  square matrix → in_range matrix startIndex →
  (∀ e, endIndex = Some e → in_range matrix e) →
  (length matrix ≤ 7 ∨ 11 ≤ length matrix)%nat →
  ∃ res, optimizeRoute matrix startIndex endIndex = Ok res.
Proof. apply optimizeRoute_inside. Qed.

Lemma square_directed5 : square directed5.
Proof.
  intros row Hrow. repeat (apply elem_of_cons in Hrow as [->|Hrow]; [done|]).
  by apply not_elem_of_nil in Hrow.
Qed.

Lemma optimizeRoute_returns_witness :
  ∃ res, optimizeRoute directed5 0 (Some 3) = Ok res.
Proof.
  apply (optimizeRoute_returns directed5 0 (Some 3)).
  - exact square_directed5.
  - unfold in_range. simpl. lia.
  - intros e [= <-]. unfold in_range. simpl. lia.
  - left. simpl. lia.
Defined.

(** ** The route of the heuristic after 2-opt *)

Lemma list_ends (route : list Z) (a b : Z) :
  head route = Some a → last route = Some b → (2 ≤ length route)%nat →
  ∃ mid, route = a :: mid ++ [b].
Proof.
  intros Hhead Hlast Hlen.
  destruct route as [|a' route]; [done|]. injection Hhead as ->.
  destruct route as [|c route]; [simpl in Hlen; lia|].
  change (last (a :: c :: route)) with (last (c :: route)) in Hlast.
  apply last_Some in Hlast as [mid Hmid]. exists mid. by rewrite Hmid.
Qed.

Lemma twoOptImprove_keeps_ends matrix (s c : Z) visited route' :
  twoOptImprove (s :: visited ++ [c]) matrix = Ok route' →
  ∃ visited', route' = s :: visited' ++ [c] ∧ visited' ≡ₚ visited.
Proof.
  intros Hopt.
  pose proof (twoOpt_loop_ends _ _ _ _ Hopt) as [Hhead Hlast].
  apply twoOpt_loop_improves in Hopt as [Hperm _].
  change (s :: visited ++ [c]) with ((s :: visited) ++ [c]) in Hlast.
  rewrite last_snoc in Hlast. cbn [head] in Hhead.
  destruct (list_ends route' s c) as [mid ->]; [done..| |].
  { rewrite <- Hperm. rewrite length_cons, length_app. simpl. lia. }
  exists mid. split; [done|].
  apply Permutation_cons_inv, Permutation_app_inv_r in Hperm.
  by symmetry.
Qed.

(** X11. The route that the heuristic solver returns, after 2-opt, still
    visits every stop exactly once: a closed tour is the start, the other
    stops in some order, and the start again; a tour to a distinct fixed
    end that is a stop holds all [n] stops once, the start first and the
    end last. *)
Theorem nearestNeighbor2Opt_visits_once matrix startIndex endIndex res :
  in_range matrix startIndex →
  nearestNeighbor2Opt matrix startIndex endIndex = Ok res →
  ((endIndex = None ∨ endIndex = Some startIndex) →
     ∃ visited,
       orderedStops res
       = (pretty : Z → string) <$> (startIndex :: visited ++ [startIndex])
       ∧ startIndex :: visited ≡ₚ indices (length matrix))
  ∧ (∀ e, endIndex = Some e → e ≠ startIndex → in_range matrix e →
     ∃ visited,
       orderedStops res
       = (pretty : Z → string) <$> (startIndex :: visited ++ [e])
       ∧ startIndex :: visited ++ [e] ≡ₚ indices (length matrix)
       ∧ NoDup (startIndex :: visited ++ [e])
       ∧ length (orderedStops res) = length matrix).
Proof.
  intros Hstart. unfold nearestNeighbor2Opt.
  destruct (nearestNeighborGreedy _ _ _) as [route| |] eqn:Hroute; [|done..].
  cbn [mbind result_bind].
  destruct (twoOptImprove route matrix) as [route'| |] eqn:Hopt; [|done..].
  cbn [mbind result_bind]. intros Hres%calculateRouteMetrics_stops.
  pose proof (nearestNeighborGreedy_stops _ _ _ _ Hstart Hroute)
    as [Hclosed Hopen].
  split.
  - intros Hend. destruct (Hclosed Hend) as (visited & -> & Hperm).
    apply twoOptImprove_keeps_ends in Hopt as (visited' & -> & Hperm').
    exists visited'. split; [done|]. by rewrite Hperm'.
  - intros e He Hne Hin.
    destruct (Hopen e He Hne Hin) as (visited & -> & Hperm & Hnodup & Hlen).
    apply twoOptImprove_keeps_ends in Hopt as (visited' & -> & Hperm').
    exists visited'.
    assert (startIndex :: visited' ++ [e] ≡ₚ startIndex :: visited ++ [e])
      as Hsame by by rewrite Hperm'.
    split; [done|]. split; [by rewrite Hsame|].
    split; [by rewrite Hsame|].
    by rewrite Hres, length_fmap, Hsame.
Qed.

Lemma nearestNeighbor2Opt_visits_once_witness :
  ∃ visited,
    ["0"; "2"; "3"; "1"; "4"; "0"]
    = (pretty : Z → string) <$> (0 :: visited ++ [0])
    ∧ 0 :: visited ≡ₚ indices (length directed5).
Proof.
  apply (nearestNeighbor2Opt_visits_once directed5 0 None
           {| orderedStops := ["0"; "2"; "3"; "1"; "4"; "0"];
              totalDuration := 0;
              totalDistance := 220;
              totalCost := {| cost_min := 0; cost_max := 0 |} |});
    [unfold in_range; simpl; lia|reflexivity|by left].
Defined.

(** ** Closed tours: the closing leg back to the start *)

Lemma calculateRouteMetrics_total route matrix res :
  calculateRouteMetrics route matrix = Ok res →
  orderedStops res = (pretty : Z → string) <$> route
  ∧ ∃ total, calculateTotalDistance route matrix = Ok total
             ∧ totalDuration res = round_div60 total.
Proof.
  intros Hres. split; [by apply (calculateRouteMetrics_stops _ matrix)|].
  rewrite calculateTotalDistance_cells.
  destruct (consecutive_cells matrix route) as [cells| |] eqn:Hcells.
  - rewrite (calculateRouteMetrics_cells _ _ _ Hcells) in Hres.
    injection Hres as <-. cbn [mbind result_bind]. eauto.
  - exfalso. revert Hres. unfold calculateRouteMetrics.
    rewrite (forM_ext _ (λ acc i, element ← edge matrix route i;
                                  Ok (metrics_update acc element)))
      by (intros; apply metrics_step_update).
    by rewrite forM_edges, fold_edges_cells, Hcells.
  - by destruct (consecutive_cells_fuel matrix route).
Qed.

(** The total of a route whose last stop [c] was pushed onto [path] is the
    total of [path] plus the leg from the last stop of [path] to [c]. *)
Lemma closing_leg matrix (path : list Z) (c d : Z) :
  path ≠ [] →
  calculateTotalDistance (path ++ [c]) matrix = Ok d →
  ∃ lastStop before closing,
    last path = Some lastStop
    ∧ calculateTotalDistance path matrix = Ok before
    ∧ cell matrix lastStop c = Ok closing
    ∧ d = before + duration closing.
Proof.
  intros Hne.
  destruct (last path) as [z|] eqn:Hlast; [|by apply last_None in Hlast].
  apply last_Some in Hlast as [route ->].
  rewrite calculateTotalDistance_snoc.
  destruct (calculateTotalDistance (route ++ [z]) matrix) as [before| |];
    [|done..].
  cbn [mbind result_bind].
  destruct (cell matrix z c) as [closing| |] eqn:Hcell; [|done..].
  cbn [mbind result_bind]. intros [= <-].
  by exists z, before, closing.
Qed.

Lemma bruteForceOptimal_closing matrix startIndex res :
  bruteForceOptimal matrix startIndex None = Ok res →
  ∃ visited d,
    orderedStops res
    = (pretty : Z → string) <$> ((startIndex :: visited) ++ [startIndex])
    ∧ calculateTotalDistance ((startIndex :: visited) ++ [startIndex]) matrix
      = Ok d
    ∧ totalDuration res = round_div60 d.
Proof.
  intros (order & d & _ & Hstops & Hd & Htotal & _)%bruteForceOptimal_exact.
  by exists order, d.
Qed.

Lemma heldKarpDP_closing matrix startIndex res :
  heldKarpDP matrix startIndex None = Ok res →
  ∃ visited d,
    orderedStops res
    = (pretty : Z → string) <$> ((startIndex :: visited) ++ [startIndex])
    ∧ calculateTotalDistance ((startIndex :: visited) ++ [startIndex]) matrix
      = Ok d
    ∧ totalDuration res = round_div60 d.
Proof.
  unfold heldKarpDP.
  destruct (forM (hk_base _ _) _ _) as [tables| |]; [|done..].
  cbn [mbind result_bind].
  destruct (forM (hk_size _ _) _ _) as [[dp parent]| |]; [|done..].
  cbn [mbind result_bind].
  destruct (forM (hk_final _ _ _ _ _) _ _) as [[minCost bestLast]| |];
    [|done..].
  cbn [mbind result_bind]. unfold reconstructPath.
  destruct (reconstruct_loop _ _ _ _ _ _) as [path| |]; [|done..].
  cbn [mbind result_bind].
  intros [Hstops (d & Hd & Htotal)]%calculateRouteMetrics_total.
  by exists path, d.
Qed.

Lemma nearestNeighbor2Opt_closing matrix startIndex res :
  nearestNeighbor2Opt matrix startIndex None = Ok res →
  ∃ visited d,
    orderedStops res
    = (pretty : Z → string) <$> ((startIndex :: visited) ++ [startIndex])
    ∧ calculateTotalDistance ((startIndex :: visited) ++ [startIndex]) matrix
      = Ok d
    ∧ totalDuration res = round_div60 d.
Proof.
  unfold nearestNeighbor2Opt, nearestNeighborGreedy.
  destruct (nn_loop _ _ _ _ _) as [route1| |] eqn:Hloop; [|done..].
  cbn [mbind result_bind].
  apply nn_loop_extends in Hloop as [visited ->]. cbn [app].
  destruct (twoOptImprove _ matrix) as [route'| |] eqn:Hopt; [|done..].
  cbn [mbind result_bind].
  apply twoOptImprove_keeps_ends in Hopt as (visited' & -> & _).
  intros [Hstops (d & Hd & Htotal)]%calculateRouteMetrics_total.
  by exists visited', d.
Qed.

(** C5. For every matrix and start index, [optimizeRoute] called with
    [endIndex = null] and called with [endIndex = startIndex] have the same
    outcome, hence the same [orderedStops].  The route they return is a
    path that leaves the start index, with the start index pushed once more
    after its last stop; and the closing leg from that last stop back to
    the start index is read from the matrix and counted in
    [totalDuration]. *)
Theorem optimizeRoute_null_is_start matrix startIndex :
  optimizeRoute matrix startIndex None
  = optimizeRoute matrix startIndex (Some startIndex)
  ∧ ∀ res, optimizeRoute matrix startIndex None = Ok res →
      ∃ visited lastStop path closing,
        orderedStops res
        = (pretty : Z → string) <$> ((startIndex :: visited) ++ [startIndex])
        ∧ last (startIndex :: visited) = Some lastStop
        ∧ calculateTotalDistance (startIndex :: visited) matrix = Ok path
        ∧ cell matrix lastStop startIndex = Ok closing
        ∧ totalDuration res = round_div60 (path + duration closing).
Proof.
  split.
  - unfold optimizeRoute.
    rewrite bruteForceOptimal_closed, heldKarpDP_closed,
      nearestNeighbor2Opt_closed.
    done.
  - intros res Hres.
    assert (∃ visited d,
              orderedStops res
              = (pretty : Z → string)
                  <$> ((startIndex :: visited) ++ [startIndex])
              ∧ calculateTotalDistance
                  ((startIndex :: visited) ++ [startIndex]) matrix = Ok d
              ∧ totalDuration res = round_div60 d)
      as (visited & d & Hstops & Hd & Htotal).
    { revert Hres. unfold optimizeRoute. repeat case_bool_decide.
      - apply bruteForceOptimal_closing.
      - apply heldKarpDP_closing.
      - apply nearestNeighbor2Opt_closing. }
    apply closing_leg in Hd
      as (lastStop & path & closing & Hlast & Hpath & Hcell & ->); [|done].
    by exists visited, lastStop, path, closing.
Qed.

Lemma optimizeRoute_null_is_start_witness :
  optimizeRoute directed5 0 None = optimizeRoute directed5 0 (Some 0)
  ∧ optimizeRoute directed5 0 None
    = Ok {| orderedStops := ["0"; "1"; "2"; "3"; "4"; "0"];
            totalDuration := 0;
            totalDistance := 200;
            totalCost := {| cost_min := 0; cost_max := 0 |} |}
  ∧ ∃ visited lastStop path closing,
      ["0"; "1"; "2"; "3"; "4"; "0"]
      = (pretty : Z → string) <$> ((0 :: visited) ++ [0])
      ∧ last (0 :: visited) = Some lastStop
      ∧ calculateTotalDistance (0 :: visited) directed5 = Ok path
      ∧ cell directed5 lastStop 0 = Ok closing
      ∧ 0 = round_div60 (path + duration closing).
Proof.
  destruct (optimizeRoute_null_is_start directed5 0) as [Hsame Hclosed].
  split; [exact Hsame|]. split; [reflexivity|].
  exact (Hclosed _ eq_refl).
Defined.

(** ** The subsets of the DP *)

Lemma generate_from_elem (size : nat) (rest current l : list Z) :
  l ∈ generate_from size rest current
  ↔ ∃ t, l = current ++ t ∧ t ≠ [] ∧ t `sublist_of` rest ∧ length l = size.
Proof.
  revert current; induction rest as [|x rest IH]; intros current.
  - cbn [generate_from]. split; [by intros ?%not_elem_of_nil|].
    intros (t & _ & Hne & Hsub%sublist_nil_r & _). done.
  - cbn [generate_from]. rewrite elem_of_app. split.
    + intros [Hfirst|Hskip].
      * case_bool_decide as Hsize.
        -- apply list_elem_of_singleton in Hfirst as ->.
           exists [x]. split; [done|]. split; [done|]. split; [|done].
           apply sublist_skip, sublist_nil_l.
        -- apply IH in Hfirst as (t & -> & Hne & Hsub & Hlen).
           exists (x :: t). rewrite <- app_assoc in *.
           split; [done|]. split; [done|]. split; [|done].
           by apply sublist_skip.
      * apply IH in Hskip as (t & -> & Hne & Hsub & Hlen).
        exists t. split; [done|]. split; [done|]. split; [|done].
        by apply sublist_cons.
    + intros (t & -> & Hne & Hsub & Hlen).
      apply sublist_cons_r in Hsub as [Hsub|(t' & -> & Hsub)].
      * right. apply IH. by exists t.
      * left. destruct t' as [|y t'].
        -- rewrite bool_decide_eq_true_2 by done. by left.
        -- rewrite bool_decide_eq_false_2
             by (rewrite !length_app in *; simpl in *; lia).
           apply IH. exists (y :: t'). rewrite <- app_assoc.
           split; [done|]. split; [done|]. done.
Qed.

Lemma elem_of_generateSubsets (arr : list Z) (size : nat) (l : list Z) :
  l ∈ generateSubsets arr size ↔ l `sublist_of` arr ∧ length l = size.
Proof.
  unfold generateSubsets, generate. case_bool_decide as Hsize.
  - simpl in Hsize. subst size. rewrite list_elem_of_singleton. split.
    + intros ->. split; [apply sublist_nil_l|done].
    + intros [_ Hlen]. by destruct l.
  - rewrite generate_from_elem. split.
    + intros (t & -> & _ & Hsub & Hlen). done.
    + intros [Hsub Hlen]. exists l. split; [done|].
      split; [|done]. intros ->. simpl in *. done.
Qed.

(** X12. [generateSubsets(arr, size)] returns exactly the subsequences of
    [arr] that have [size] elements, each in the order of [arr]: the single
    empty subset for size 0, and none at all for a size above the length
    of [arr]. *)
Theorem generateSubsets_sublists (arr : list Z) (size : nat) (l : list Z) :
  (l ∈ generateSubsets arr size ↔ l `sublist_of` arr ∧ length l = size)
  ∧ generateSubsets arr 0 = [[]]
  ∧ ((length arr < size)%nat → generateSubsets arr size = []).
Proof.
  pose proof (elem_of_generateSubsets arr size l) as Hspec.
  split; [done|]. split; [done|].
  intros Hlong. unfold generateSubsets, generate.
  rewrite bool_decide_eq_false_2 by (simpl; lia).
  destruct (generate_from size arr []) as [|l' ls] eqn:Hgen; [done|].
  assert (l' ∈ generate_from size arr []) as Hl' by (rewrite Hgen; left).
  apply generate_from_elem in Hl' as (t & -> & _ & Hsub%sublist_length & Hlen).
  simpl in Hlen. lia.
Qed.

Lemma generateSubsets_sublists_witness :
  [2; 5] ∈ generateSubsets [1; 2; 3; 5] 2
  ∧ generateSubsets [1; 2; 3; 5] 5 = [].
Proof.
  split.
  - apply (proj1 (generateSubsets_sublists [1; 2; 3; 5] 2 [2; 5])).
    split; [|done].
    apply sublist_cons, sublist_skip, sublist_cons, sublist_skip,
      sublist_nil.
  - apply (generateSubsets_sublists [1; 2; 3; 5] 5 []). simpl. lia.
Defined.

Lemma generate_from_NoDup (size : nat) (rest current : list Z) :
  NoDup rest → NoDup (generate_from size rest current).
Proof.
  intros Hnodup. revert current.
  induction Hnodup as [|x rest Hx Hnodup IH]; intros current;
    cbn [generate_from]; [constructor|].
  apply NoDup_app. split; [|split; [|apply IH]].
  - case_bool_decide; [apply NoDup_singleton|apply IH].
  - intros l Hfirst Hskip.
    apply generate_from_elem in Hskip as (t & -> & _ & Hsub & _).
    assert (∃ t', current ++ t = current ++ x :: t') as [t' Heq].
    { case_bool_decide.
      - apply list_elem_of_singleton in Hfirst. by exists [].
      - apply generate_from_elem in Hfirst as (t' & Heq & _).
        exists t'. by rewrite Heq, <- app_assoc. }
    apply app_inv_head in Heq as ->.
    apply Hx. eapply elem_of_sublist; [left|done].
Qed.

(** X13. Over a list without duplicates, [generateSubsets] returns every
    subset once, and no subset holds a stop twice. *)
Theorem generateSubsets_NoDup (arr : list Z) (size : nat) :
  NoDup arr →
  NoDup (generateSubsets arr size)
  ∧ ∀ l, l ∈ generateSubsets arr size → NoDup l.
Proof.
  intros Hnodup. split.
  - unfold generateSubsets, generate.
    case_bool_decide; [apply NoDup_singleton|by apply generate_from_NoDup].
  - intros l Hl. unfold generateSubsets, generate in Hl.
    case_bool_decide.
    + apply list_elem_of_singleton in Hl as ->. constructor.
    + apply generate_from_elem in Hl as (t & -> & _ & Hsub & _).
      by eapply sublist_NoDup.
Qed.

Lemma generateSubsets_NoDup_witness :
  NoDup (generateSubsets [1; 2; 3; 5] 2)
  ∧ ∀ l, l ∈ generateSubsets [1; 2; 3; 5] 2 → NoDup l.
Proof.
  apply (generateSubsets_NoDup [1; 2; 3; 5] 2).
  exact (bool_decide_unpack (NoDup [1; 2; 3; 5]) I).
Defined.

(** ** The masks of the DP *)

Lemma getMask_foldl_bits (cities : list Z) (mask k : Z) :
  Z.testbit (foldl (λ mask city, Z.lor mask (shl1 city)) mask cities) k
  = Z.testbit mask k || existsb (λ city, Z.testbit (shl1 city) k) cities.
Proof.
  revert mask; induction cities as [|city cities IH]; intros mask; simpl.
  - by rewrite orb_false_r.
  - by rewrite IH, Z.lor_spec, orb_assoc.
Qed.

Lemma shl1_add_32 (city : Z) : shl1 (city + 32) = shl1 city.
Proof.
  unfold shl1. change 31 with (Z.ones 5). rewrite !Z.land_ones by lia.
  change (2 ^ 5) with 32.
  replace ((city + 32) `mod` 32) with (city `mod` 32); [done|].
  symmetry. apply (Z_mod_plus_full city 1 32).
Qed.

Lemma land_31_small (city : Z) : 0 ≤ city < 32 → Z.land city 31 = city.
Proof.
  intros Hcity. change 31 with (Z.ones 5). rewrite Z.land_ones by lia.
  apply Z.mod_small. lia.
Qed.

Lemma getMask_bit (cities : list Z) (k : Z) :
  0 ≤ k < 32 →
  Z.testbit (getMask cities) k = true
  ↔ ∃ city, city ∈ cities ∧ Z.land city 31 = k.
Proof.
  intros Hk. unfold getMask. rewrite getMask_foldl_bits, Z.bits_0.
  cbn [orb]. rewrite existsb_exists. split.
  - intros (city & Hin%list_elem_of_In & Hbit). exists city. split; [done|].
    rewrite <- (Z2Nat.id k) in Hbit by lia.
    rewrite shl1_testbit in Hbit by lia.
    apply bool_decide_eq_true in Hbit. lia.
  - intros (city & Hin & Hland). exists city.
    split; [by apply list_elem_of_In|].
    rewrite <- (Z2Nat.id k) by lia. rewrite shl1_testbit by lia.
    apply bool_decide_eq_true. lia.
Qed.

(** X14. The mask of a list of stops has, among its low 32 bits, exactly
    the bits [city & 31] of its stops set.  For stops below 32 the bit [k]
    tells whether [k] is in the list; two stops 32 apart set the same bit,
    so a list and the same list shifted by 32 have one mask. *)
Theorem getMask_members (cities : list Z) (k : Z) :
  0 ≤ k < 32 →
  (Z.testbit (getMask cities) k = true
   ↔ ∃ city, city ∈ cities ∧ Z.land city 31 = k)
  ∧ (Forall (λ city, 0 ≤ city < 32) cities →
     Z.testbit (getMask cities) k = true ↔ k ∈ cities)
  ∧ getMask ((λ city, city + 32) <$> cities) = getMask cities.
Proof.
  intros Hk. split; [by apply getMask_bit|]. split.
  - intros Hsmall. rewrite getMask_bit by done.
    rewrite Forall_forall in Hsmall. split.
    + intros (city & Hin & <-). by rewrite land_31_small by auto.
    + intros Hin. exists k. split; [done|]. by apply land_31_small.
  - unfold getMask.
    assert (∀ mask,
              foldl (λ mask city, Z.lor mask (shl1 city)) mask
                    ((λ city, city + 32) <$> cities)
              = foldl (λ mask city, Z.lor mask (shl1 city)) mask cities)
      as Hwrap; [|apply Hwrap].
    induction cities as [|city cities IH]; intros mask; [done|].
    rewrite fmap_cons. cbn [foldl]. rewrite shl1_add_32. apply IH.
Qed.

Lemma getMask_members_witness :
  (Z.testbit (getMask [1; 4; 6]) 4 = true ↔ 4 ∈ [1; 4; 6])
  ∧ getMask ((λ city, city + 32) <$> [1; 4; 6]) = getMask [1; 4; 6].
Proof.
  destruct (getMask_members [1; 4; 6] 4) as (_ & Hbit & Hwrap); [lia|].
  split; [|exact Hwrap]. apply Hbit.
  repeat (apply Forall_cons; split; [lia|]). apply Forall_nil_2.
Defined.

Lemma getMask_foldl_Permutation (cities1 cities2 : list Z) (mask : Z) :
  cities1 ≡ₚ cities2 →
  foldl (λ mask city, Z.lor mask (shl1 city)) mask cities1
  = foldl (λ mask city, Z.lor mask (shl1 city)) mask cities2.
Proof.
  intros Hperm. revert mask.
  induction Hperm as [|x l1 l2 _ IH|x y l|l1 l2 l3 _ IH1 _ IH2];
    intros mask; cbn [foldl].
  - done.
  - apply IH.
  - by rewrite <- !Z.lor_assoc, (Z.lor_comm (shl1 y)).
  - by rewrite IH1.
Qed.

(** X15. The mask depends only on the members of the list, not on their
    order; and two lists without duplicates of stops below 32 that have the
    same mask have the same members.  The keys [(mask, city)] of the DP
    tables therefore tell the subsets of up to 32 stops apart. *)
Theorem getMask_sets (cities1 cities2 : list Z) :
  (cities1 ≡ₚ cities2 → getMask cities1 = getMask cities2)
  ∧ (NoDup cities1 → NoDup cities2 →
     Forall (λ city, 0 ≤ city < 32) cities1 →
     Forall (λ city, 0 ≤ city < 32) cities2 →
     getMask cities1 = getMask cities2 → cities1 ≡ₚ cities2).
Proof.
  split; [apply getMask_foldl_Permutation|].
  intros Hnodup1 Hnodup2 Hsmall1 Hsmall2 Hmask.
  apply NoDup_Permutation; [done..|].
  assert (∀ l1 l2 : list Z,
            Forall (λ city, 0 ≤ city < 32) l1 →
            Forall (λ city, 0 ≤ city < 32) l2 →
            getMask l1 = getMask l2 → ∀ x, x ∈ l1 → x ∈ l2) as Hincl.
  { intros l1 l2 H1 H2 Heq x Hx.
    rewrite Forall_forall in H1. specialize (H1 x Hx) as Hrange.
    assert (Z.testbit (getMask l1) x = true) as Hbit.
    { apply getMask_bit; [done|]. exists x. split; [done|].
      by apply land_31_small. }
    rewrite Heq in Hbit. apply getMask_bit in Hbit as (y & Hy & Hland);
      [|done].
    rewrite Forall_forall in H2. rewrite land_31_small in Hland by auto.
    by subst y. }
  intros x. split; by apply Hincl.
Qed.

Lemma getMask_sets_witness :
  getMask [6; 1; 4] = getMask [1; 4; 6] ∧ [2; 3] ≡ₚ [3; 2].
Proof.
  destruct (getMask_sets [6; 1; 4] [1; 4; 6]) as [Hperm _].
  destruct (getMask_sets [2; 3] [3; 2]) as [_ Hinj].
  split.
  - apply Hperm.
    exact (bool_decide_unpack ([6; 1; 4] ≡ₚ [1; 4; 6]) I).
  - apply Hinj.
    + exact (bool_decide_unpack (NoDup [2; 3]) I).
    + exact (bool_decide_unpack (NoDup [3; 2]) I).
    + repeat (apply Forall_cons; split; [lia|]). apply Forall_nil_2.
    + repeat (apply Forall_cons; split; [lia|]). apply Forall_nil_2.
    + reflexivity.
Defined.

(** ** The indices the caller passes to [optimizeRoute] *)

Section CallerProperties.
Context {Destination : Type} (id : Destination → string).

Lemma add_other_indexed startPoint acc dest :
  indexed id startPoint acc → indexed id startPoint (add_other id startPoint acc dest).
Proof.
  destruct acc as [allDestinations destinationMap].
  intros [Hstart Hmap]. unfold add_other, indexed in *. cbn [fst snd] in *.
  case_decide; [|done]. cbn [fst snd]. split.
  - rewrite lookup_app_l; [done|]. by apply lookup_lt_Some in Hstart.
  - intros key idx.
    destruct (decide (key = id dest)) as [->|Hne].
    + rewrite lookup_insert_eq. intros [= <-]. exists dest.
      split; [|done]. by rewrite list_lookup_middle.
    + rewrite lookup_insert_ne by done.
      intros (other & Hother & Hid)%Hmap. exists other. split; [|done].
      rewrite lookup_app_l; [done|]. by apply lookup_lt_Some in Hother.
Qed.

Lemma foldl_add_other_indexed startPoint destinations acc :
  indexed id startPoint acc →
  indexed id startPoint (foldl (add_other id startPoint) acc destinations).
Proof.
  revert acc; induction destinations as [|dest destinations IH]; intros acc;
    [done|].
  intros Hacc. cbn [foldl]. by apply IH, add_other_indexed.
Qed.

Lemma prepareDestinations_spec destinations startPoint endPoint :
  (((length destinations < 2)%nat ∨ startPoint = None)
   ↔ ∃ error, prepareDestinations id destinations startPoint endPoint
              = Rejected error)
  ∧ ∀ allDestinations destinationMap endIndex,
      prepareDestinations id destinations startPoint endPoint
      = Prepared allDestinations destinationMap endIndex →
      ∃ start, startPoint = Some start
        ∧ allDestinations !! 0%nat = Some start
        ∧ (endIndex = None ↔ endPoint = None)
        ∧ (∀ k, endIndex = Some k →
             ∃ finish dest, endPoint = Some finish
               ∧ nthZ allDestinations k = Some dest
               ∧ id dest = id finish
               ∧ 0 ≤ k < Z.of_nat (length allDestinations)
               ∧ (k = 0 ↔ id finish = id start)).
Proof.
  unfold prepareDestinations. split.
  - case_bool_decide as Hlen.
    + split; [eauto|]. intros _. by left.
    + destruct startPoint as [start|].
      * destruct (foldl _ _ _) as [allDestinations destinationMap].
        split; [intros [?|?]; done|]. intros [error Herror].
        destruct endPoint as [finish|]; [|done].
        case_decide; [done|]. by destruct (destinationMap !! id finish).
      * split; [eauto|]. intros _. by right.
  - intros allDestinations destinationMap endIndex.
    case_bool_decide; [done|].
    destruct startPoint as [start|]; [|done].
    pose proof (foldl_add_other_indexed start destinations
                  ([start], {[id start := 0%nat]})) as Hindexed.
    destruct (foldl _ _ _) as [all map].
    destruct Hindexed as [Hstart Hmap].
    { split; [done|]. cbn [fst snd].
      intros key idx [<- <-]%lookup_singleton_Some. by exists start. }
    cbn [fst snd] in *. intros Hprepared. exists start. split; [done|].
    destruct endPoint as [finish|].
    + destruct (decide (id finish = id start)) as [Hsame|Hother].
      * injection Hprepared as <- <- <-.
        split; [done|]. split; [done|].
        intros k [= <-]. exists finish, start.
        split; [done|]. split; [done|]. split; [done|].
        split; [|done]. apply lookup_lt_Some in Hstart. lia.
      * destruct (map !! id finish) as [idx|] eqn:Hidx;
          injection Hprepared as <- <- <-.
        -- destruct (Hmap _ _ Hidx) as (dest & Hdest & Hid).
           split; [done|]. split; [done|].
           intros k [= <-]. exists finish, dest.
           split; [done|]. split.
           { unfold nthZ. rewrite bool_decide_eq_true_2 by lia.
             by rewrite Nat2Z.id. }
           split; [done|]. split.
           { apply lookup_lt_Some in Hdest. lia. }
           split; [|done]. intros Hzero.
           assert (idx = 0%nat) as -> by lia.
           rewrite Hstart in Hdest. injection Hdest as <-. done.
        -- split; [by rewrite lookup_app_l by (by apply lookup_lt_Some in Hstart)|].
           split; [done|].
           intros k [= <-]. exists finish, finish.
           split; [done|]. split.
           { unfold nthZ. rewrite bool_decide_eq_true_2 by lia.
             by rewrite Nat2Z.id, list_lookup_middle. }
           split; [done|]. split; [rewrite length_app; simpl; lia|].
           split; [|done]. intros Hzero. apply lookup_lt_Some in Hstart. lia.
    + injection Hprepared as <- <- <-.
      split; [done|]. split; [done|]. done.
Qed.
(** X16. What [calculateOptimalRoute] hands to the optimiser.  It rejects
    fewer than two destinations and a missing start without preparing
    anything.  Otherwise the start is the first entry of [allDestinations],
    so index 0 is a stop; [endIndex] is absent exactly when no end point is
    set, and when present it is the index of an entry with the id of the
    end point, hence a stop; and it is 0 exactly when the end point has the
    id of the start. *)
Theorem prepareDestinations_indices destinations startPoint endPoint :
  (((length destinations < 2)%nat ∨ startPoint = None)
   ↔ ∃ error, prepareDestinations id destinations startPoint endPoint
              = Rejected error)
  ∧ ∀ allDestinations destinationMap endIndex,
      prepareDestinations id destinations startPoint endPoint
      = Prepared allDestinations destinationMap endIndex →
      ∃ start, startPoint = Some start
        ∧ allDestinations !! 0%nat = Some start
        ∧ (endIndex = None ↔ endPoint = None)
        ∧ (∀ k, endIndex = Some k →
             ∃ finish dest, endPoint = Some finish
               ∧ nthZ allDestinations k = Some dest
               ∧ id dest = id finish
               ∧ 0 ≤ k < Z.of_nat (length allDestinations)
               ∧ (k = 0 ↔ id finish = id start)).
Proof. apply prepareDestinations_spec. Qed.

(** X17. The indices that [calculateOptimalRoute] computes are stops of
    every square matrix over [allDestinations]: [optimizeRoute] is called
    with a valid start and a valid or absent end, and with up to 7 or at
    least 11 entries it returns a result. *)
Theorem prepareDestinations_accepted destinations startPoint endPoint
    allDestinations destinationMap endIndex matrix :
  prepareDestinations id destinations startPoint endPoint
  = Prepared allDestinations destinationMap endIndex →
  square matrix → length matrix = length allDestinations →
  in_range matrix 0
  ∧ (∀ e, endIndex = Some e → in_range matrix e)
  ∧ ((length matrix ≤ 7 ∨ 11 ≤ length matrix)%nat →
     ∃ res, optimizeRoute matrix 0 endIndex = Ok res).
Proof.
  intros Hprepared Hsquare Hlen.
  destruct (proj2 (prepareDestinations_spec destinations startPoint endPoint)
              _ _ _ Hprepared) as (start & _ & Hstart & _ & Hend).
  assert (in_range matrix 0) as Hzero.
  { unfold in_range. rewrite Hlen. apply lookup_lt_Some in Hstart. lia. }
  assert (∀ e, endIndex = Some e → in_range matrix e) as Hend'.
  { intros e He. destruct (Hend e He) as (_ & _ & _ & _ & _ & Hrange & _).
    unfold in_range. by rewrite Hlen. }
  split; [done|]. split; [done|].
  by apply optimizeRoute_inside.
Qed.
End CallerProperties.

Lemma prepareDestinations_indices_witness :
  prepareDestinations place [place "museum"; place "park"; place "cafe"]
    (Some (place "park")) (Some (place "station"))
  = Prepared [place "park"; place "museum"; place "cafe"; place "station"]
             (<["station" := 3%nat]>
                (<["cafe" := 2%nat]>
                   (<["museum" := 1%nat]> {["park" := 0%nat]})))
             (Some 3)
  ∧ ∃ start, Some (place "park") = Some start
      ∧ [place "park"; place "museum"; place "cafe"; place "station"]
          !! 0%nat = Some start.
Proof.
  split; [by vm_compute|].
  destruct (proj2 (prepareDestinations_indices place
                     [place "museum"; place "park"; place "cafe"]
                     (Some (place "park")) (Some (place "station")))
              _ _ _ eq_refl) as (start & Hstart & Hfirst & _).
  exists start. split; [done|]. exact Hfirst.
Defined.

Lemma prepareDestinations_accepted_witness :
  prepareDestinations place
    [place "museum"; place "park"; place "cafe"; place "zoo"]
    (Some (place "park")) (Some (place "pier"))
  = Prepared [place "park"; place "museum"; place "cafe"; place "zoo";
              place "pier"]
             (<["pier" := 4%nat]>
                (<["zoo" := 3%nat]>
                   (<["cafe" := 2%nat]>
                      (<["museum" := 1%nat]> {["park" := 0%nat]}))))
             (Some 4)
  ∧ square directed5
  ∧ length directed5 = 5%nat
  ∧ in_range directed5 0
  ∧ (∀ e, Some 4 = Some e → in_range directed5 e)
  ∧ ((length directed5 ≤ 7 ∨ 11 ≤ length directed5)%nat →
     ∃ res, optimizeRoute directed5 0 (Some 4) = Ok res).
Proof.
  split; [by vm_compute|].
  split; [exact square_directed5|].
  split; [reflexivity|].
  apply (prepareDestinations_accepted place
           [place "museum"; place "park"; place "cafe"; place "zoo"]
           (Some (place "park")) (Some (place "pier"))
           [place "park"; place "museum"; place "cafe"; place "zoo";
            place "pier"]
           (<["pier" := 4%nat]>
              (<["zoo" := 3%nat]>
                 (<["cafe" := 2%nat]>
                    (<["museum" := 1%nat]> {["park" := 0%nat]}))))
           (Some 4) directed5);
    [by vm_compute | exact square_directed5 | reflexivity].
Defined.

(** * The subset DP is exact for positive legs *)

(** ** Loops with an invariant over the elements already visited *)

Lemma forM_prefix_from {S A : Type} (P : list A → S → Prop)
    (body : S → A → result S) (all xs done : list A) (s : S) :
  (∀ x, x ∈ xs → x ∈ all) →
  (∀ done x s1, x ∈ all → P done s1 →
                ∃ s2, body s1 x = Ok s2 ∧ P (done ++ [x]) s2) →
  P done s →
  ∃ s', forM body xs s = Ok s' ∧ P (done ++ xs) s'.
Proof.
  intros Hall Hstep. revert done s.
  induction xs as [|x xs IH]; intros done s HP.
  - exists s. by rewrite app_nil_r.
  - destruct (Hstep done x s) as (s2 & Hbody & HP2); [apply Hall; left|done|].
    destruct (IH (λ y Hy, Hall y (list_elem_of_further _ _ _ Hy))
                 (done ++ [x]) s2 HP2) as (s' & Hloop & HP').
    exists s'. cbn [forM]. rewrite Hbody. cbn [mbind result_bind].
    rewrite <- app_assoc in HP'. done.
Qed.

Lemma forM_prefix {S A : Type} (P : list A → S → Prop)
    (body : S → A → result S) (xs : list A) (s : S) :
  P [] s →
  (∀ done x s1, x ∈ xs → P done s1 →
                ∃ s2, body s1 x = Ok s2 ∧ P (done ++ [x]) s2) →
  ∃ s', forM body xs s = Ok s' ∧ P xs s'.
Proof.
  intros Hstart Hstep.
  by apply (forM_prefix_from P body xs xs [] s).
Qed.

Lemma forM_seq {S : Type} (P : nat → S → Prop) (body : S → nat → result S)
    (len start : nat) (s : S) :
  P start s →
  (∀ k s1, (start ≤ k < start + len)%nat → P k s1 →
           ∃ s2, body s1 k = Ok s2 ∧ P (Datatypes.S k) s2) →
  ∃ s', forM body (seq start len) s = Ok s' ∧ P (start + len)%nat s'.
Proof.
  revert start s. induction len as [|len IH]; intros start s HP Hstep.
  - exists s. by rewrite Nat.add_0_r.
  - destruct (Hstep start s) as (s2 & Hbody & HP2); [lia|done|].
    destruct (IH (Datatypes.S start) s2 HP2) as (s' & Hloop & HP').
    { intros k s1 Hk. apply Hstep. lia. }
    exists s'. cbn [seq forM]. rewrite Hbody. cbn [mbind result_bind].
    by replace (start + Datatypes.S len)%nat
         with (Datatypes.S start + len)%nat by lia.
Qed.

(** ** Scans for the cheapest stop *)

Lemma cheapest_step (cost : Z → Z → Prop) (done : list Z) (minCost : num)
    (best stop c : Z) :
  cheapest cost done (minCost, best) →
  cost stop c → (∀ v, cost stop v → v = c) →
  cheapest cost (done ++ [stop])
           (if num_lt (Fin c) minCost then (Fin c, stop)
            else (minCost, best)).
Proof.
  unfold cheapest. cbn [fst snd]. intros Hacc Hcost Hunique.
  destruct minCost as [m|]; cbn [num_lt].
  - destruct Hacc as (Hbest & Hm & Hleast). case_bool_decide as Hlt.
    + cbn [fst snd]. split; [apply elem_of_app; right; by left|].
      split; [done|]. intros q v [Hq|Hq%list_elem_of_singleton]%elem_of_app Hv.
      * specialize (Hleast q v Hq Hv). lia.
      * subst q. apply Hunique in Hv. lia.
    + cbn [fst snd]. split; [apply elem_of_app; by left|].
      split; [done|]. intros q v [Hq|Hq%list_elem_of_singleton]%elem_of_app Hv.
      * by apply (Hleast q v).
      * subst q. apply Hunique in Hv. lia.
  - subst done. cbn [fst snd]. split; [by left|]. split; [done|].
    intros q v Hq%list_elem_of_singleton Hv. subst q.
    apply Hunique in Hv. lia.
Qed.

(** ** Masks of stops below 31 *)

Lemma shl1_small (city : Z) : 0 ≤ city < 31 → shl1 city = 2 ^ city.
Proof.
  intros Hcity. unfold shl1. rewrite land_31_small by lia.
  rewrite bool_decide_eq_false_2 by lia. by rewrite Z.shiftl_1_l.
Qed.

Lemma getMask_small_bit (subset : list Z) (k : Z) :
  Forall (λ city, 0 ≤ city < 31) subset →
  Z.testbit (getMask subset) k = bool_decide (k ∈ subset).
Proof.
  intros Hsmall. unfold getMask. rewrite getMask_foldl_bits, Z.bits_0.
  cbn [orb]. induction Hsmall as [|city subset Hcity _ IH]; cbn [existsb].
  - by rewrite bool_decide_eq_false_2 by apply not_elem_of_nil.
  - rewrite IH, shl1_small by done.
    rewrite (Z.pow2_bits_eqb city k (proj1 Hcity)).
    destruct (Z.eqb_spec city k) as [->|Hne]; cbn [orb].
    + rewrite bool_decide_eq_true_2; [done|left].
    + apply bool_decide_ext. rewrite elem_of_cons.
      split; [by right|]. by intros [->|?].
Qed.

(** [mask ^ (1 << last)] is the mask of the subset without [last]. *)
Lemma getMask_delete (subset : list Z) (stop : Z) :
  Forall (λ city, 0 ≤ city < 31) subset → stop ∈ subset →
  Z.lxor (getMask subset) (shl1 stop) = getMask (set_delete stop subset).
Proof.
  intros Hsmall Hstop. apply Z.bits_inj. intros k.
  assert (0 ≤ stop < 31) as Hrange
    by (rewrite Forall_forall in Hsmall; by apply Hsmall).
  rewrite Z.lxor_spec, (getMask_small_bit subset k Hsmall).
  rewrite (getMask_small_bit _ k (Forall_set_delete _ stop subset Hsmall)).
  rewrite shl1_small by done.
  rewrite (Z.pow2_bits_eqb stop k (proj1 Hrange)).
  destruct (Z.eqb_spec stop k) as [->|Hne].
  - rewrite bool_decide_eq_true_2 by done.
    rewrite bool_decide_eq_false_2; [done|].
    by intros [? _]%list_elem_of_filter.
  - rewrite xorb_false_r. apply bool_decide_ext. unfold set_delete.
    rewrite list_elem_of_filter. split; [|by intros [_ ?]].
    intros Hk. split; [|done]. by intros ->.
Qed.

(** Two increasing lists of stops below 31 with one mask are equal. *)
Lemma getMask_sorted_inj (subset1 subset2 : list Z) :
  Forall (λ city, 0 ≤ city < 31) subset1 →
  Forall (λ city, 0 ≤ city < 31) subset2 →
  StronglySorted Z.lt subset1 → StronglySorted Z.lt subset2 →
  getMask subset1 = getMask subset2 → subset1 = subset2.
Proof.
  intros Hsmall1 Hsmall2 Hsorted1 Hsorted2 Hmask.
  apply (StronglySorted_unique_strong Z.lt); [lia|done..|].
  apply NoDup_Permutation; [by apply StronglySorted_lt_NoDup..|].
  intros k.
  pose proof (getMask_small_bit subset1 k Hsmall1) as H1.
  pose proof (getMask_small_bit subset2 k Hsmall2) as H2.
  rewrite Hmask, H2 in H1.
  split; intros Hk; apply (bool_decide_unpack _);
    apply (bool_decide_pack _) in Hk; congruence.
Qed.

Lemma StronglySorted_sublist (subset cities : list Z) :
  subset `sublist_of` cities → StronglySorted Z.lt cities →
  StronglySorted Z.lt subset.
Proof.
  intros Hsub Hsorted. revert subset Hsub.
  induction Hsorted as [|x cities Hsorted IH Hx]; intros subset Hsub.
  - apply sublist_nil_r in Hsub as ->. constructor.
  - apply sublist_cons_r in Hsub as [Hsub|(subset' & -> & Hsub)]; [auto|].
    constructor; [auto|]. rewrite Forall_forall in *.
    intros y Hy. apply Hx. by eapply elem_of_sublist.
Qed.

(** ** Durations of paths *)

Lemma legs_snoc matrix (route : list Z) (a b : Z) :
  legs matrix ((route ++ [a]) ++ [b])
  = legs matrix (route ++ [a]) + duration_or_0 matrix a b.
Proof.
  induction route as [|x route IH]; [cbn; lia|].
  destruct route as [|y route]; [cbn; lia|].
  change (legs matrix (((x :: y :: route) ++ [a]) ++ [b]))
    with (duration_or_0 matrix x y + legs matrix (((y :: route) ++ [a]) ++ [b])).
  change (legs matrix ((x :: y :: route) ++ [a]))
    with (duration_or_0 matrix x y + legs matrix ((y :: route) ++ [a])).
  rewrite IH. lia.
Qed.

Lemma legs_last matrix (route : list Z) (a b : Z) :
  last route = Some a →
  legs matrix (route ++ [b]) = legs matrix route + duration_or_0 matrix a b.
Proof. intros [route' ->]%last_Some. apply legs_snoc. Qed.

Lemma consecutive_cells_legs matrix (route : list Z) cells :
  consecutive_cells matrix route = Ok cells →
  sumZ (duration <$> cells) = legs matrix route.
Proof.
  revert cells. induction route as [|a route IH]; intros cells.
  - cbn. by intros [= <-].
  - destruct route as [|b route]; [cbn; by intros [= <-]|].
    rewrite consecutive_cells_cons.
    change (legs matrix (a :: b :: route))
      with (duration_or_0 matrix a b + legs matrix (b :: route)).
    unfold duration_or_0.
    destruct (cell matrix a b) as [element| |]; cbn [mbind result_bind];
      [|done..].
    destruct (consecutive_cells matrix (b :: route)) as [rest| |];
      cbn [mbind result_bind]; [|done..].
    intros [= <-]. rewrite fmap_cons, sumZ_cons. by rewrite (IH rest).
Qed.

Lemma calculateTotalDistance_legs matrix (route : list Z) :
  square matrix → Forall (in_range matrix) route →
  calculateTotalDistance route matrix = Ok (legs matrix route)
  ∧ ∃ cells, consecutive_cells matrix route = Ok cells
             ∧ sumZ (duration <$> cells) = legs matrix route.
Proof.
  intros Hsquare Hroute.
  destruct (calculateTotalDistance_inside matrix Hsquare route Hroute)
    as [total Htotal].
  rewrite calculateTotalDistance_cells in Htotal |- *.
  destruct (consecutive_cells matrix route) as [cells| |] eqn:Hcells;
    cbn [mbind result_bind] in *; [|done..].
  rewrite (consecutive_cells_legs matrix route cells Hcells).
  split; [done|]. exists cells. split; [done|].
  by apply consecutive_cells_legs.
Qed.

Lemma legs_positive matrix (route : list Z) :
  square matrix → positive_legs matrix →
  NoDup route → Forall (in_range matrix) route →
  0 ≤ legs matrix route ∧ ((2 ≤ length route)%nat → 0 < legs matrix route).
Proof.
  intros Hsquare Hpositive Hnodup Hroute.
  induction route as [|a route IH]; [cbn; split; [lia|simpl; lia]|].
  destruct route as [|b route]; [cbn; split; [lia|simpl; lia]|].
  apply NoDup_cons in Hnodup as [Ha Hnodup].
  apply Forall_cons in Hroute as [Hina Hroute].
  destruct (IH Hnodup Hroute) as [IH0 _].
  assert (0 < duration_or_0 matrix a b) as Hleg.
  { unfold duration_or_0.
    destruct (cell_inside matrix Hsquare a b) as [element Hcell];
      [done|by apply Forall_cons in Hroute as [? _]|].
    rewrite Hcell. apply (Hpositive a b); [|done].
    intros ->. apply Ha. left. }
  change (legs matrix (a :: b :: route))
    with (duration_or_0 matrix a b + legs matrix (b :: route)).
  split; [lia|]. intros _. lia.
Qed.

(** ** Subsets of the cities and least durations *)

Section HeldKarp.
Context (matrix : DistanceMatrix) (Hsquare : square matrix).
Context (startIndex : Z) (Hstart : in_range matrix startIndex).
Context (Hsize : (length matrix ≤ 31)%nat).
Context (Hpositive : positive_legs matrix).

Local Notation "'cities'" :=
  (filter (λ i, i ≠ startIndex) (indices (length matrix))).

Lemma elem_of_cities (city : Z) :
  city ∈ cities ↔ in_range matrix city ∧ city ≠ startIndex.
Proof.
  rewrite list_elem_of_filter, elem_of_indices. unfold in_range. tauto.
Qed.

Lemma subset_facts (subset : list Z) :
  subset `sublist_of` cities →
  StronglySorted Z.lt subset ∧ NoDup subset
  ∧ Forall (λ city, 0 ≤ city < 31) subset
  ∧ Forall (in_range matrix) subset ∧ startIndex ∉ subset.
Proof.
  intros Hsub.
  assert (StronglySorted Z.lt subset) as Hsorted.
  { eapply StronglySorted_sublist; [done|].
    apply (StronglySorted_set_delete startIndex), StronglySorted_indices. }
  assert (∀ city, city ∈ subset → in_range matrix city ∧ city ≠ startIndex)
    as Hin.
  { intros city Hcity. apply elem_of_cities. by eapply elem_of_sublist. }
  split; [done|]. split; [by apply StronglySorted_lt_NoDup|].
  split; [|split].
  - apply Forall_forall. intros city [Hcity _]%Hin.
    unfold in_range in Hcity. lia.
  - apply Forall_forall. by intros city [Hcity _]%Hin.
  - by intros [_ Hne]%Hin.
Qed.

Lemma subset_delete (subset : list Z) (stop : Z) :
  subset `sublist_of` cities → set_delete stop subset `sublist_of` cities.
Proof. intros Hsub. etrans; [apply sublist_filter|done]. Qed.

Lemma length_subset_delete (subset : list Z) (stop : Z) :
  NoDup subset → stop ∈ subset →
  length subset = Datatypes.S (length (set_delete stop subset)).
Proof.
  intros Hnodup Hstop.
  by rewrite (Permutation_length (set_delete_Permutation stop subset
                                    Hnodup Hstop)).
Qed.

(** A path over a subset of the cities repeats no stop and stays inside
    the matrix. *)
Lemma order_facts (subset order : list Z) :
  subset `sublist_of` cities → order ≡ₚ subset →
  NoDup (startIndex :: order) ∧ Forall (in_range matrix) (startIndex :: order).
Proof.
  intros (_ & Hnodup & _ & Hin & Hstart')%subset_facts Hperm. split.
  - apply NoDup_cons. by rewrite Hperm.
  - apply Forall_cons. by rewrite Hperm.
Qed.

Lemma best_path_unique (subset : list Z) (stop v1 v2 : Z) :
  best_path matrix startIndex subset stop v1 →
  best_path matrix startIndex subset stop v2 → v1 = v2.
Proof.
  intros [(order1 & Hperm1 & Hlast1 & Hlegs1) Hleast1]
         [(order2 & Hperm2 & Hlast2 & Hlegs2) Hleast2].
  specialize (Hleast1 order2 Hperm2 Hlast2).
  specialize (Hleast2 order1 Hperm1 Hlast1). lia.
Qed.

Lemma best_path_positive (subset : list Z) (stop v : Z) :
  subset `sublist_of` cities →
  best_path matrix startIndex subset stop v → 0 < v.
Proof.
  intros Hsub [(order & Hperm & Hlast & <-) _].
  destruct (order_facts subset order Hsub Hperm) as [Hnodup Hin].
  apply (legs_positive matrix _ Hsquare Hpositive Hnodup Hin).
  destruct order; [done|simpl; lia].
Qed.

Lemma best_path_singleton (city : Z) :
  best_path matrix startIndex [city] city (duration_or_0 matrix startIndex city).
Proof.
  split.
  - exists [city]. split; [done|]. split; [done|]. cbn. lia.
  - intros order ->%Permutation_singleton_r _. cbn. lia.
Qed.

(** The recurrence of the DP: a cheapest path over [subset] to [stop] is a
    cheapest path over the rest to some [prev], followed by the leg from
    [prev] to [stop]. *)
Lemma best_path_extend (subset : list Z) (stop prev m : Z) :
  subset `sublist_of` cities → stop ∈ subset →
  prev ∈ set_delete stop subset →
  (∃ v', best_path matrix startIndex (set_delete stop subset) prev v'
         ∧ m = v' + duration_or_0 matrix prev stop) →
  (∀ q, q ∈ set_delete stop subset →
        ∃ v, best_path matrix startIndex (set_delete stop subset) q v) →
  (∀ q v, q ∈ set_delete stop subset →
     (∃ v', best_path matrix startIndex (set_delete stop subset) q v'
            ∧ v = v' + duration_or_0 matrix q stop) → m ≤ v) →
  best_path matrix startIndex subset stop m.
Proof.
  intros Hsub Hstop Hprev (v' & [(order & Hperm & Hlast & Hlegs) _] & ->)
         Hall Hleast.
  destruct (subset_facts subset Hsub) as (_ & Hnodup & _).
  pose proof (set_delete_Permutation stop subset Hnodup Hstop) as Hsplit.
  split.
  - exists (order ++ [stop]). split; [|split].
    + rewrite <- Permutation_cons_append, Hperm. by symmetry.
    + apply last_snoc.
    + change (startIndex :: order ++ [stop])
        with ((startIndex :: order) ++ [stop]).
      rewrite (legs_last matrix _ prev stop), Hlegs; [done|].
      by rewrite last_cons, Hlast.
  - intros order' Hperm' [rest ->]%last_Some.
    assert (rest ≡ₚ set_delete stop subset) as Hrest.
    { apply (Permutation_cons_inv (a:=stop)).
      by rewrite Permutation_cons_append, Hperm'. }
    destruct (last rest) as [q|] eqn:Hq.
    + assert (q ∈ set_delete stop subset) as Hq'.
      { rewrite <- Hrest. by apply last_Some_elem_of. }
      destruct (Hall q Hq') as [v Hv].
      change (startIndex :: rest ++ [stop])
        with ((startIndex :: rest) ++ [stop]).
      rewrite (legs_last matrix _ q stop) by by rewrite last_cons, Hq.
      etrans; [apply (Hleast q _ Hq'); by exists v|].
      destruct Hv as [_ Hv]. specialize (Hv rest Hrest Hq). lia.
    + apply last_None in Hq as ->. apply Permutation_nil_l in Hrest.
      rewrite <- Hrest in Hprev. by apply not_elem_of_nil in Hprev.
Qed.

(** ** The tables *)

Lemma through_unique rest stop q v1 v2 :
  through matrix startIndex rest stop q v1 →
  through matrix startIndex rest stop q v2 → v1 = v2.
Proof.
  intros (v1' & Hv1 & ->) (v2' & Hv2 & ->).
  by rewrite (best_path_unique rest q v1' v2' Hv1 Hv2).
Qed.

Lemma keeps_refl tables : keeps matrix startIndex tables tables.
Proof. by intros subset stop _ Hgood. Qed.

Lemma keeps_trans tables1 tables2 tables3 :
  keeps matrix startIndex tables1 tables2 →
  keeps matrix startIndex tables2 tables3 →
  keeps matrix startIndex tables1 tables3.
Proof. intros H12 H23 subset stop Hsub Hgood. auto. Qed.

(** A write under the key of [subset] and [stop] leaves the entries of the
    other subsets and stops as they are. *)
Lemma entry_good_insert dp parent (subset : list Z) (stop : Z) minCost bestPrev :
  subset `sublist_of` cities →
  entry_good matrix startIndex
    (<[(getMask subset, stop) := minCost]> dp,
     <[(getMask subset, stop) := bestPrev]> parent) subset stop →
  keeps matrix startIndex (dp, parent)
        (<[(getMask subset, stop) := minCost]> dp,
         <[(getMask subset, stop) := bestPrev]> parent).
Proof.
  intros Hsub Hnew subset' stop' Hsub' Hgood.
  destruct (decide ((getMask subset, stop) = (getMask subset', stop')))
    as [[= Hmask <-]|Hkey].
  - destruct (subset_facts subset Hsub) as (Hsorted & _ & Hsmall & _).
    destruct (subset_facts subset' Hsub') as (Hsorted' & _ & Hsmall' & _).
    by rewrite <- (getMask_sorted_inj subset subset').
  - destruct Hgood as (v & prev & Hdp & Hparent & Hrest).
    exists v, prev. cbn [fst snd] in *.
    by rewrite !lookup_insert_ne.
Qed.

Lemma set_delete_snoc (stop q : Z) (done : list Z) :
  set_delete stop (done ++ [q])
  = if decide (q = stop) then set_delete stop done
    else set_delete stop done ++ [q].
Proof.
  unfold set_delete. rewrite filter_app, filter_cons, filter_nil.
  destruct (decide (q = stop)) as [->|Hne].
  - rewrite decide_False by (intros H; by apply H). by rewrite app_nil_r.
  - by rewrite decide_True.
Qed.

(** Lines 93-114: the scan over [prev] finds the cheapest way to [stop]. *)
Lemma hk_last_good tables (subset : list Z) (stop : Z) :
  subset `sublist_of` cities → stop ∈ subset → (2 ≤ length subset)%nat →
  (∀ q, q ∈ set_delete stop subset →
        entry_good matrix startIndex tables (set_delete stop subset) q) →
  ∃ tables', hk_last matrix subset (getMask subset) tables stop = Ok tables'
             ∧ entry_good matrix startIndex tables' subset stop
             ∧ keeps matrix startIndex tables tables'.
Proof.
  intros Hsub Hstop Hlen Hlower. destruct tables as [dp parent].
  destruct (subset_facts subset Hsub) as (_ & Hnodup & Hsmall & Hin & _).
  assert (in_range matrix stop) as Hstop_in
    by (rewrite Forall_forall in Hin; auto).
  unfold hk_last. rewrite (getMask_delete subset stop Hsmall Hstop).
  destruct (forM_prefix
              (λ done acc,
                 cheapest (through matrix startIndex
                                   (set_delete stop subset) stop)
                          (set_delete stop done) acc)
              (hk_prev matrix dp (getMask (set_delete stop subset)) stop)
              subset (Infinity, -1))
    as ([minCost bestPrev] & -> & Hacc).
  { done. }
  { intros done prev [minCost bestPrev] Hprev Hacc. unfold hk_prev.
    rewrite set_delete_snoc. case_bool_decide as Hne.
    - rewrite decide_True by done. by eexists.
    - rewrite decide_False by done.
      assert (prev ∈ set_delete stop subset) as Hprev'
        by by apply list_elem_of_filter.
      destruct (Hlower prev Hprev') as (v & p & Hdp & _ & Hv & _).
      cbn [fst] in Hdp. rewrite Hdp.
      pose proof (best_path_positive _ _ _ (subset_delete subset stop Hsub) Hv)
        as Hpos.
      unfold or_Infinity. rewrite bool_decide_eq_false_2 by lia.
      destruct (cell_inside matrix Hsquare prev stop) as [element Hcell];
        [rewrite Forall_forall in Hin; auto|done|].
      rewrite Hcell. cbn [mbind result_bind num_add].
      assert (duration_or_0 matrix prev stop = duration element) as Hdur
        by (unfold duration_or_0; by rewrite Hcell).
      rewrite <- Hdur.
      exists (if num_lt (Fin (v + duration_or_0 matrix prev stop)) minCost
              then (Fin (v + duration_or_0 matrix prev stop), prev)
              else (minCost, bestPrev)).
      split; [by destruct (num_lt _ _)|].
      apply cheapest_step; [done|by exists v|].
      intros v2 Hv2. apply (through_unique _ _ _ _ _ Hv2). by exists v. }
  cbn [mbind result_bind]. eexists. split; [done|].
  assert (entry_good matrix startIndex
            (<[(getMask subset, stop) := minCost]> dp,
             <[(getMask subset, stop) := bestPrev]> parent) subset stop)
    as Hgood; [|split; [done|by apply entry_good_insert]].
  unfold cheapest in Hacc. cbn [fst snd] in Hacc.
  destruct minCost as [m|].
  - destruct Hacc as (Hbest & Hcost & Hleast).
    exists m, bestPrev. cbn [fst snd]. rewrite !lookup_insert_eq.
    split; [done|]. split; [done|]. split.
    + apply (best_path_extend subset stop bestPrev m); try done.
      intros q Hq. destruct (Hlower q Hq) as (v & _ & _ & _ & Hv & _).
      by exists v.
    + rewrite bool_decide_eq_false_2 by lia.
      apply list_elem_of_filter in Hbest as [Hne Hbest]. done.
  - exfalso. rewrite (length_subset_delete subset stop Hnodup Hstop) in Hlen.
    rewrite Hacc in Hlen. simpl in Hlen. lia.
Qed.

(** Lines 90-115: all stops of one subset. *)
Lemma hk_subset_good tables (subset : list Z) :
  subset `sublist_of` cities → (2 ≤ length subset)%nat →
  (∀ stop q, stop ∈ subset → q ∈ set_delete stop subset →
     entry_good matrix startIndex tables (set_delete stop subset) q) →
  ∃ tables', hk_subset matrix tables subset = Ok tables'
             ∧ (∀ stop, stop ∈ subset →
                  entry_good matrix startIndex tables' subset stop)
             ∧ keeps matrix startIndex tables tables'.
Proof.
  intros Hsub Hlen Hlower. unfold hk_subset.
  destruct (forM_prefix
              (λ done tables',
                 keeps matrix startIndex tables tables'
                 ∧ ∀ stop, stop ∈ done →
                     entry_good matrix startIndex tables' subset stop)
              (hk_last matrix subset (getMask subset)) subset tables)
    as (tables' & Hloop & Hkeeps & Hgood).
  { split; [apply keeps_refl|]. by intros stop ?%not_elem_of_nil. }
  { intros done stop tables1 Hstop [Hkeeps Hdone].
    destruct (hk_last_good tables1 subset stop Hsub Hstop Hlen)
      as (tables2 & Hlast & Hgood & Hkeeps2).
    { intros q Hq. apply Hkeeps; [by apply subset_delete|]. by apply Hlower. }
    exists tables2. split; [done|]. split; [by eapply keeps_trans|].
    intros stop' [Hstop'|Hstop'%list_elem_of_singleton]%elem_of_app;
      [|by subst stop'].
    apply Hkeeps2; [done|]. by apply Hdone. }
  by exists tables'.
Qed.

(** Lines 87-116: all subsets of one size. *)
Lemma hk_size_good tables (size : nat) :
  (1 ≤ size)%nat → level matrix startIndex size tables →
  ∃ tables', hk_size matrix cities tables (Datatypes.S size) = Ok tables'
             ∧ level matrix startIndex (Datatypes.S size) tables'.
Proof.
  intros Hone Hlevel. unfold hk_size.
  destruct (forM_prefix
              (λ done tables',
                 keeps matrix startIndex tables tables'
                 ∧ ∀ subset stop, subset ∈ done → stop ∈ subset →
                     subset `sublist_of` cities
                     ∧ entry_good matrix startIndex tables' subset stop)
              (hk_subset matrix)
              (generateSubsets cities (Datatypes.S size)) tables)
    as (tables' & Hloop & Hkeeps & Hgood).
  { split; [apply keeps_refl|]. by intros subset stop ?%not_elem_of_nil. }
  { intros done subset tables1 [Hsub Hlen]%elem_of_generateSubsets
           [Hkeeps Hdone].
    destruct (subset_facts subset Hsub) as (_ & Hnodup & _).
    destruct (hk_subset_good tables1 subset Hsub) as (tables2 & Hsubset & Hgood & Hkeeps2);
      [lia| |].
    { intros stop q Hstop Hq. apply Hkeeps; [by apply subset_delete|].
      apply Hlevel; [by apply subset_delete|done|].
      rewrite (length_subset_delete subset stop Hnodup Hstop) in Hlen. lia. }
    exists tables2. split; [done|]. split; [by eapply keeps_trans|].
    intros subset' stop [Hsubset'|Hsubset'%list_elem_of_singleton]%elem_of_app
           Hstop.
    - destruct (Hdone subset' stop Hsubset' Hstop) as [Hsub' Hgood'].
      split; [done|]. by apply Hkeeps2.
    - subst subset'. split; [done|]. by apply Hgood. }
  exists tables'. split; [done|]. intros subset stop Hsub Hstop Hlen.
  destruct (decide (length subset = Datatypes.S size)) as [Hfull|Hless].
  - apply (Hgood subset stop); [|done]. by apply elem_of_generateSubsets.
  - apply Hkeeps; [done|]. apply Hlevel; [done..|lia].
Qed.

(** Lines 77-84: the direct paths from the start. *)
Lemma hk_base_good :
  ∃ tables, forM (hk_base matrix startIndex) cities (∅, ∅) = Ok tables
            ∧ level matrix startIndex 1 tables.
Proof.
  destruct (forM_prefix
              (λ done tables,
                 ∀ city, city ∈ done →
                   entry_good matrix startIndex tables [city] city)
              (hk_base matrix startIndex) cities (∅, ∅))
    as (tables & Hloop & Hgood).
  { by intros city ?%not_elem_of_nil. }
  { intros done city [dp parent] [Hcity _]%elem_of_cities Hdone.
    unfold hk_base.
    destruct (cell_inside matrix Hsquare startIndex city) as [element Hcell];
      [done..|].
    rewrite Hcell. cbn [mbind result_bind]. eexists. split; [done|].
    assert (entry_good matrix startIndex
              (<[(shl1 city, city) := Fin (duration element)]> dp,
               <[(shl1 city, city) := startIndex]> parent) [city] city)
      as Hnew.
    { exists (duration element), startIndex. cbn [fst snd].
      change (getMask [city]) with (Z.lor 0 (shl1 city)).
      rewrite Z.lor_0_l, !lookup_insert_eq.
      split; [done|]. split; [done|]. split; [|done].
      replace (duration element)
        with (duration_or_0 matrix startIndex city)
        by (unfold duration_or_0; by rewrite Hcell).
      apply best_path_singleton. }
    intros city' [Hcity'|Hcity'%list_elem_of_singleton]%elem_of_app;
      [|by subst city'].
    destruct (decide (city' = city)) as [->|Hne]; [done|].
    destruct (Hdone city' Hcity') as (v & prev & Hdp & Hparent & Hrest).
    exists v, prev. cbn [fst snd] in *.
    rewrite !lookup_insert_ne by congruence. done. }
  exists tables. split; [done|]. intros subset stop Hsub Hstop Hlen.
  destruct subset as [|city [|city' subset]]; simpl in Hlen; [|clear Hlen|lia].
  - by apply not_elem_of_nil in Hstop.
  - apply list_elem_of_singleton in Hstop as ->. apply Hgood.
    eapply elem_of_sublist; [|done]. left.
Qed.

(** Lines 86-117: after the loop over the sizes, the entries of all
    subsets of the cities are right. *)
Lemma hk_tables_good :
  (2 ≤ length matrix)%nat →
  ∃ tables,
    (tables ← forM (hk_base matrix startIndex) cities (∅, ∅);
     forM (hk_size matrix cities) (seq 2 (length cities - 1)) tables)
    = Ok tables
    ∧ level matrix startIndex (length cities) tables.
Proof.
  intros Hn. destruct hk_base_good as (tables & -> & Hlevel).
  cbn [mbind result_bind].
  pose proof (cities_nonempty (length matrix) startIndex Hn) as Hcities.
  destruct (forM_seq (λ size tables, level matrix startIndex (size - 1) tables)
              (hk_size matrix cities) (length cities - 1) 2 tables)
    as (tables' & Hloop & Hlevel').
  { done. }
  { intros size tables1 Hsize' Hlevel1.
    destruct (hk_size_good tables1 (size - 1)) as (tables2 & Hstep & Hlevel2);
      [lia|done|].
    replace (Datatypes.S (size - 1)) with size in * by lia.
    exists tables2. split; [done|].
    by replace (Datatypes.S size - 1)%nat with size by lia. }
  exists tables'. split; [done|].
  assert (length cities ≠ 0%nat) as Hlen by by intros ?%nil_length_inv.
  by replace (2 + (length cities - 1) - 1)%nat with (length cities)
    in Hlevel' by lia.
Qed.

(** ** The walk back through [parent] *)

Lemma reconstruct_loop_good tables (fuel : nat) (subset : list Z) (stop : Z)
    (path : list Z) :
  level matrix startIndex (length cities) tables →
  subset `sublist_of` cities → stop ∈ subset → (length subset ≤ fuel)%nat →
  ∃ order v,
    reconstruct_loop fuel tables.2 startIndex stop (getMask subset) path
    = Ok (order ++ path)
    ∧ order ≡ₚ subset ∧ last order = Some stop
    ∧ legs matrix (startIndex :: order) = v
    ∧ best_path matrix startIndex subset stop v.
Proof.
  intros Hlevel. revert subset stop path.
  induction fuel as [|fuel IH]; intros subset stop path Hsub Hstop Hfuel.
  { destruct subset; [by apply not_elem_of_nil in Hstop|simpl in Hfuel; lia]. }
  destruct (subset_facts subset Hsub) as (_ & Hnodup & Hsmall & _ & Hstart').
  destruct (Hlevel subset stop Hsub Hstop (sublist_length _ _ Hsub))
    as (v & prev & _ & Hparent & Hbest & Hprev).
  cbn [reconstruct_loop].
  rewrite bool_decide_eq_true_2 by (intros ->; done).
  rewrite Hparent. case_bool_decide as Hone.
  - subst prev.
    assert (subset = [stop]) as ->.
    { destruct subset as [|city [|city' subset]]; [done| |done].
      by apply list_elem_of_singleton in Hstop as ->. }
    exists [stop], v.
    split; [destruct fuel; cbn [reconstruct_loop];
            by rewrite bool_decide_eq_false_2 by (intros H; by apply H)|].
    split; [done|]. split; [done|]. split; [|done].
    rewrite (best_path_unique _ _ _ _ Hbest (best_path_singleton stop)).
    cbn. lia.
  - destruct Hprev as (Hprev & Hne & v' & Hbest' & ->).
    rewrite (getMask_delete subset stop Hsmall Hstop).
    destruct (IH (set_delete stop subset) prev (stop :: path))
      as (order & v'' & Hloop & Hperm & Hlast & Hlegs & Hbest'').
    { by apply subset_delete. }
    { by apply list_elem_of_filter. }
    { rewrite (length_subset_delete subset stop Hnodup Hstop) in Hfuel. lia. }
    rewrite (best_path_unique _ _ _ _ Hbest'' Hbest') in Hlegs.
    exists (order ++ [stop]), (v' + duration_or_0 matrix prev stop).
    rewrite <- app_assoc. split; [done|]. split; [|split; [|split; [|done]]].
    + rewrite <- Permutation_cons_append, Hperm. symmetry.
      by apply set_delete_Permutation.
    + apply last_snoc.
    + change (startIndex :: order ++ [stop])
        with ((startIndex :: order) ++ [stop]).
      rewrite (legs_last matrix _ prev stop), Hlegs; [done|].
      by rewrite last_cons, Hlast.
Qed.

(** ** The choice of the last city and the result *)

Lemma hk_final_closing dp endIndex fullMask minCost bestLast city :
  hk_final matrix dp startIndex endIndex fullMask (minCost, bestLast) city
  = element ← cell matrix city (closing_stop startIndex endIndex);
    Ok (if num_lt (num_add (or_Infinity (dp !! (fullMask, city)))
                           (duration element)) minCost
        then (num_add (or_Infinity (dp !! (fullMask, city)))
                      (duration element), city)
        else (minCost, bestLast)).
Proof.
  unfold hk_final, closing_stop.
  destruct endIndex as [e|]; [case_bool_decide|];
    (destruct (cell _ _ _); cbn [mbind result_bind]; [|done..]);
    by destruct (num_lt _ _).
Qed.

Lemma closing_stop_push (endIndex : option Z) (route : list Z) :
  match endIndex with
  | Some e => if bool_decide (e ≠ startIndex) then route ++ [e]
              else route ++ [startIndex]
  | None => route ++ [startIndex]
  end = route ++ [closing_stop startIndex endIndex].
Proof.
  unfold closing_stop. destruct endIndex as [e|]; [|done].
  by case_bool_decide.
Qed.

Lemma closing_stop_inside (endIndex : option Z) :
  (∀ e, endIndex = Some e → in_range matrix e) →
  in_range matrix (closing_stop startIndex endIndex).
Proof.
  intros Hend. unfold closing_stop. destruct endIndex as [e|]; [|done].
  case_bool_decide; [by apply Hend|done].
Qed.

Lemma legs_tour (endIndex : option Z) (order : list Z) (stop : Z) :
  last order = Some stop →
  legs matrix (tour startIndex endIndex order)
  = legs matrix (startIndex :: order)
    + duration_or_0 matrix stop (closing_stop startIndex endIndex).
Proof.
  intros Hlast. unfold tour.
  change (startIndex :: order ++ [closing_stop startIndex endIndex])
    with ((startIndex :: order) ++ [closing_stop startIndex endIndex]).
  apply legs_last. by rewrite last_cons, Hlast.
Qed.

Lemma heldKarpDP_exact (endIndex : option Z) :
  (2 ≤ length matrix)%nat →
  (∀ e, endIndex = Some e → in_range matrix e) →
  ∃ res order d,
    heldKarpDP matrix startIndex endIndex = Ok res
    ∧ order ≡ₚ cities
    ∧ orderedStops res
      = (pretty : Z → string) <$> tour startIndex endIndex order
    ∧ calculateTotalDistance (tour startIndex endIndex order) matrix = Ok d
    ∧ totalDuration res = round_div60 d
    ∧ ∀ order', order' ≡ₚ cities →
        ∃ d', calculateTotalDistance (tour startIndex endIndex order') matrix
              = Ok d'
              ∧ d ≤ d'.
Proof.
  intros Hn Hend. unfold heldKarpDP.
  destruct (hk_tables_good Hn) as ([dp parent] & Htables & Hlevel).
  destruct (forM (hk_base matrix startIndex) cities (∅, ∅))
    as [tables0| |]; cbn [mbind result_bind] in Htables |- *; [|done..].
  rewrite Htables. cbn [mbind result_bind].
  pose proof (closing_stop_inside endIndex Hend) as Hclosing.
  pose proof (cities_nonempty (length matrix) startIndex Hn) as Hcities.
  assert (∀ city, city ∈ cities →
            ∃ v, dp !! (getMask cities, city) = Some (Fin v)
                 ∧ best_path matrix startIndex cities city v ∧ 0 < v)
    as Hfull.
  { intros city Hcity.
    destruct (Hlevel cities city) as (v & _ & Hdp & _ & Hbest & _);
      [done..|].
    exists v. split; [done|]. split; [done|].
    by apply (best_path_positive cities city). }
  destruct (forM_prefix
              (cheapest (through matrix startIndex cities
                                 (closing_stop startIndex endIndex)))
              (hk_final matrix dp startIndex endIndex (getMask cities))
              cities (Infinity, -1))
    as ([minCost bestLast] & -> & Hacc).
  { done. }
  { intros done city [minCost bestLast] Hcity Hacc.
    rewrite hk_final_closing.
    destruct (Hfull city Hcity) as (v & Hdp & Hbest & Hpos).
    destruct (cell_inside matrix Hsquare city
                (closing_stop startIndex endIndex)) as [element Hcell];
      [by apply elem_of_cities in Hcity as [? _]|done|].
    rewrite Hcell, Hdp. cbn [mbind result_bind].
    unfold or_Infinity. rewrite bool_decide_eq_false_2 by lia.
    cbn [num_add]. eexists. split; [done|].
    assert (through matrix startIndex cities
              (closing_stop startIndex endIndex) city
              (v + duration element)) as Hthrough.
    { exists v. split; [done|]. unfold duration_or_0. by rewrite Hcell. }
    apply cheapest_step; [done..|].
    intros v2 Hv2. by apply (through_unique _ _ _ _ _ Hv2). }
  cbn [mbind result_bind]. unfold cheapest in Hacc. cbn [fst snd] in Hacc.
  destruct minCost as [m|]; [|done].
  destruct Hacc as (Hbest & (v & Hv & ->) & Hleast).
  unfold reconstructPath.
  destruct (reconstruct_loop_good (dp, parent) (Datatypes.S (length cities))
              cities bestLast [] Hlevel)
    as (order & v' & Hloop & Hperm & Hlast & Hlegs & Hv'); [done..|lia|].
  rewrite (best_path_unique _ _ _ _ Hv' Hv) in Hlegs.
  cbn [snd] in Hloop. rewrite Hloop, app_nil_r. cbn [mbind result_bind].
  rewrite closing_stop_push.
  change ((startIndex :: order) ++ [closing_stop startIndex endIndex])
    with (tour startIndex endIndex order).
  assert (∀ order', order' ≡ₚ cities →
            Forall (in_range matrix) (tour startIndex endIndex order'))
    as Hinside.
  { intros order' Hperm'. apply tour_inside; [done..|].
    by apply (order_facts cities order') in Hperm' as [_ [_ ?]%Forall_cons]. }
  destruct (calculateTotalDistance_legs matrix
              (tour startIndex endIndex order) Hsquare (Hinside order Hperm))
    as (Htotal & cells & Hcells & Hsum).
  rewrite (calculateRouteMetrics_cells _ _ cells Hcells).
  eexists _, order, _. split; [done|]. split; [done|].
  cbn [orderedStops totalDuration]. split; [done|]. split; [done|].
  split; [by rewrite Hsum|].
  intros order' Hperm'.
  destruct (calculateTotalDistance_legs matrix
              (tour startIndex endIndex order') Hsquare (Hinside order' Hperm'))
    as (Htotal' & _).
  eexists. split; [done|].
  destruct (last order') as [q|] eqn:Hq.
  - rewrite (legs_tour endIndex order bestLast Hlast), Hlegs.
    rewrite (legs_tour endIndex order' q Hq).
    assert (q ∈ cities) as Hq'
      by (rewrite <- Hperm'; by apply last_Some_elem_of).
    destruct (Hfull q Hq') as (vq & _ & Hvq & _).
    etrans; [apply (Hleast q (vq + duration_or_0 matrix q
                                     (closing_stop startIndex endIndex)) Hq');
             by exists vq|].
    destruct Hvq as [_ Hvq]. specialize (Hvq order' Hperm' Hq). lia.
  - apply last_None in Hq as ->. by apply Permutation_nil_l in Hperm'.
Qed.
End HeldKarp.

(** ** The exact solvers on positive legs *)

Lemma positive_legsb_spec matrix :
  square matrix → positive_legsb matrix = true → positive_legs matrix.
Proof.
  intros Hsquare Hcheck i j element Hne Hcell.
  assert (in_range matrix i) as Hi.
  { destruct (decide (in_range matrix i)) as [|Hout]; [done|].
    by rewrite (cell_row_outside matrix i j Hout) in Hcell. }
  assert (in_range matrix j) as Hj.
  { destruct (decide (in_range matrix j)) as [|Hout]; [done|].
    by rewrite (cell_column_outside matrix i j Hsquare Hout) in Hcell. }
  unfold positive_legsb in Hcheck.
  apply Is_true_true_2, forallb_True in Hcheck.
  rewrite Forall_forall in Hcheck.
  specialize (Hcheck i (proj2 (elem_of_indices _ _) Hi)).
  apply forallb_True in Hcheck. rewrite Forall_forall in Hcheck.
  specialize (Hcheck j (proj2 (elem_of_indices _ _) Hj)).
  apply orb_True in Hcheck as [Heq|Hpos].
  - by apply bool_decide_unpack in Heq.
  - apply bool_decide_unpack in Hpos. unfold duration_or_0 in Hpos.
    by rewrite Hcell in Hpos.
Qed.

Lemma square_line8 : square (line 8).
Proof.
  intros row Hrow. repeat (apply elem_of_cons in Hrow as [->|Hrow]; [done|]).
  by apply not_elem_of_nil in Hrow.
Qed.

(** X18. Held-Karp is exact on positive legs.  On a square matrix of 2 to
    31 stops whose legs between distinct stops all take a positive time,
    with a start that is a stop and an end that is absent or a stop,
    [heldKarpDP] returns a result; its route is the start, an order of the
    other stops and the closing stop; [totalDuration] is the total of that
    route rounded to minutes; and no order of those stops gives a route of
    smaller total. *)
Theorem heldKarpDP_optimal matrix startIndex endIndex :
  square matrix → in_range matrix startIndex →
  (∀ e, endIndex = Some e → in_range matrix e) →
  (2 ≤ length matrix ≤ 31)%nat → positive_legs matrix →
  ∃ res order d,
    heldKarpDP matrix startIndex endIndex = Ok res
    ∧ order ≡ₚ filter (λ i, i ≠ startIndex) (indices (length matrix))
    ∧ orderedStops res
      = (pretty : Z → string) <$> tour startIndex endIndex order
    ∧ calculateTotalDistance (tour startIndex endIndex order) matrix = Ok d
    ∧ totalDuration res = round_div60 d
    ∧ ∀ order',
        order' ≡ₚ filter (λ i, i ≠ startIndex) (indices (length matrix)) →
        ∃ d', calculateTotalDistance (tour startIndex endIndex order') matrix
              = Ok d'
              ∧ d ≤ d'.
Proof.
  intros Hsquare Hstart Hend [Hmin Hmax] Hpositive.
  by apply heldKarpDP_exact.
Qed.

Lemma heldKarpDP_optimal_witness :
  ∃ res order d,
    heldKarpDP (line 8) 0 None = Ok res
    ∧ order ≡ₚ filter (λ i, i ≠ 0) (indices (length (line 8)))
    ∧ orderedStops res = (pretty : Z → string) <$> tour 0 None order
    ∧ calculateTotalDistance (tour 0 None order) (line 8) = Ok d
    ∧ totalDuration res = round_div60 d
    ∧ ∀ order',
        order' ≡ₚ filter (λ i, i ≠ 0) (indices (length (line 8))) →
        ∃ d', calculateTotalDistance (tour 0 None order') (line 8) = Ok d'
              ∧ d ≤ d'.
Proof.
  apply (heldKarpDP_optimal (line 8) 0 None).
  - exact square_line8.
  - unfold in_range. simpl. lia.
  - done.
  - simpl. lia.
  - apply positive_legsb_spec; [exact square_line8|]. vm_compute. reflexivity.
Defined.

(** X19. On positive legs the two exact solvers agree.  Under the
    conditions of X18, [bruteForceOptimal] and [heldKarpDP] both return a
    result and the two results have the same [totalDuration]. *)
Theorem exact_solvers_agree matrix startIndex endIndex :
  square matrix → in_range matrix startIndex →
  (∀ e, endIndex = Some e → in_range matrix e) →
  (2 ≤ length matrix ≤ 31)%nat → positive_legs matrix →
  ∃ res1 res2,
    bruteForceOptimal matrix startIndex endIndex = Ok res1
    ∧ heldKarpDP matrix startIndex endIndex = Ok res2
    ∧ totalDuration res1 = totalDuration res2.
Proof.
  intros Hsquare Hstart Hend [Hmin Hmax] Hpositive.
  destruct (bruteForceOptimal_inside matrix startIndex endIndex
              Hsquare Hstart Hend) as [res1 Hres1].
  destruct (bruteForceOptimal_exact matrix startIndex endIndex res1 Hres1)
    as (order1 & d1 & Hperm1 & _ & Hd1 & Htotal1 & Hleast1).
  destruct (heldKarpDP_exact matrix Hsquare startIndex Hstart Hmax Hpositive
              endIndex Hmin Hend)
    as (res2 & order2 & d2 & Hres2 & Hperm2 & _ & Hd2 & Htotal2 & Hleast2).
  exists res1, res2. split; [done|]. split; [done|].
  destruct (Hleast1 order2 Hperm2) as (d2' & Hd2' & Hle1).
  destruct (Hleast2 order1 Hperm1) as (d1' & Hd1' & Hle2).
  rewrite Hd2 in Hd2'. rewrite Hd1 in Hd1'.
  injection Hd2' as <-. injection Hd1' as <-.
  rewrite Htotal1, Htotal2. f_equal. lia.
Qed.

Lemma exact_solvers_agree_witness :
  ∃ res1 res2,
    bruteForceOptimal (line 8) 0 (Some 4) = Ok res1
    ∧ heldKarpDP (line 8) 0 (Some 4) = Ok res2
    ∧ totalDuration res1 = totalDuration res2.
Proof.
  apply (exact_solvers_agree (line 8) 0 (Some 4)).
  - exact square_line8.
  - unfold in_range. simpl. lia.
  - intros e [= <-]. unfold in_range. simpl. lia.
  - simpl. lia.
  - apply positive_legsb_spec; [exact square_line8|]. vm_compute. reflexivity.
Defined.

(** X20. In its exact range [optimizeRoute] is exact.  On a square matrix
    of up to 10 stops, with a start that is a stop and an end that is
    absent or a stop, and with positive legs between distinct stops when
    there are 8 stops or more, [optimizeRoute] returns a result whose
    route is the start, an order of the other stops and the closing stop,
    and no order of those stops gives a route of smaller total duration. *)
Theorem optimizeRoute_optimal matrix startIndex endIndex :
  square matrix → in_range matrix startIndex →
  (∀ e, endIndex = Some e → in_range matrix e) →
  (length matrix ≤ 10)%nat →
  ((8 ≤ length matrix)%nat → positive_legs matrix) →
  ∃ res order d,
    optimizeRoute matrix startIndex endIndex = Ok res
    ∧ order ≡ₚ filter (λ i, i ≠ startIndex) (indices (length matrix))
    ∧ orderedStops res
      = (pretty : Z → string) <$> tour startIndex endIndex order
    ∧ calculateTotalDistance (tour startIndex endIndex order) matrix = Ok d
    ∧ totalDuration res = round_div60 d
    ∧ ∀ order',
        order' ≡ₚ filter (λ i, i ≠ startIndex) (indices (length matrix)) →
        ∃ d', calculateTotalDistance (tour startIndex endIndex order') matrix
              = Ok d'
              ∧ d ≤ d'.
Proof.
  intros Hsquare Hstart Hend Hmax Hpositive. unfold optimizeRoute.
  case_bool_decide as Hsmall.
  - destruct (bruteForceOptimal_inside matrix startIndex endIndex
                Hsquare Hstart Hend) as [res Hres].
    destruct (bruteForceOptimal_exact matrix startIndex endIndex res Hres)
      as (order & d & Hrest).
    by exists res, order, d.
  - rewrite bool_decide_eq_true_2 by done.
    apply heldKarpDP_exact; [done..|lia|apply Hpositive; lia|lia|done].
Qed.

Lemma optimizeRoute_optimal_witness :
  ∃ res order d,
    optimizeRoute (line 8) 0 (Some 4) = Ok res
    ∧ order ≡ₚ filter (λ i, i ≠ 0) (indices (length (line 8)))
    ∧ orderedStops res = (pretty : Z → string) <$> tour 0 (Some 4) order
    ∧ calculateTotalDistance (tour 0 (Some 4) order) (line 8) = Ok d
    ∧ totalDuration res = round_div60 d
    ∧ ∀ order',
        order' ≡ₚ filter (λ i, i ≠ 0) (indices (length (line 8))) →
        ∃ d', calculateTotalDistance (tour 0 (Some 4) order') (line 8) = Ok d'
              ∧ d ≤ d'.
Proof.
  apply (optimizeRoute_optimal (line 8) 0 (Some 4)).
  - exact square_line8.
  - unfold in_range. simpl. lia.
  - intros e [= <-]. unfold in_range. simpl. lia.
  - simpl. lia.
  - intros _. apply positive_legsb_spec; [exact square_line8|].
    vm_compute. reflexivity.
Defined.
